(** * Game-night leaderboard front end: a shallow embedding of [app.js]

    The browser renderer of the game-night leaderboard fetches a feed and a
    guest-token registry, greets the guest named by a URL token, highlights
    that guest's rows and renders leaderboard, timeline and activity lists.

    The development follows the source function by function.  ECMAScript
    built-ins the source calls ([String.prototype.normalize], [toLowerCase],
    [trim], [encodeURIComponent], [decodeURIComponent], [URLSearchParams],
    property lookup on plain objects) are modelled after the language
    specification; the Unicode Character Database enters through the
    [Unicode] interface.

    Part I holds the definitions, Part II the lemmas and theorems. *)

From Stdlib Require Import NArith ZArith Ascii String.
From stdpp Require Import gmap list strings.

Set Warnings "-register-all".

(* ===================================================================== *)
(** * Part I.  Definitions                                                *)
(* ===================================================================== *)

(** ** JavaScript strings

    A string is the sequence of its code points.  A supplementary character is
    one element; an element in U+D800..U+DFFF stands for an unpaired
    surrogate code unit. *)

Abbreviation jsstring := (list N).

Definition str (s : string) : jsstring :=
  (λ a, N_of_ascii a) <$> list_ascii_of_string s.
Arguments str s%_string.

Definition is_surrogate (c : N) : bool := (0xD800 <=? c)%N && (c <=? 0xDFFF)%N.

(** A string without unpaired surrogates (a USVString). *)
Definition well_formed (s : jsstring) : bool := forallb (λ c, negb (is_surrogate c)) s.

(** WhiteSpace and LineTerminator code points: what [trim] strips and what
    [\s] matches. *)
Definition is_white_space (c : N) : bool :=
  bool_decide (c ∈ [0x09; 0x0A; 0x0B; 0x0C; 0x0D; 0x20; 0xA0; 0x1680; 0x2028;
                    0x2029; 0x202F; 0x205F; 0x3000; 0xFEFF]%N)
  || ((0x2000 <=? c)%N && (c <=? 0x200A)%N).

Fixpoint trimStart (s : jsstring) : jsstring :=
  match s with
  | c :: rest => if is_white_space c then trimStart rest else s
  | [] => []
  end.

Definition trimEnd (s : jsstring) : jsstring := reverse (trimStart (reverse s)).

(** [s.trim()] *)
Definition trim (s : jsstring) : jsstring := trimEnd (trimStart s).

(** [s.replace(/\s+/g, "_")]: every maximal run of white space becomes one
    underscore. *)
Fixpoint underscore_runs (in_run : bool) (s : jsstring) : jsstring :=
  match s with
  | [] => []
  | c :: rest =>
      if is_white_space c
      then (if in_run then [] else [0x5F%N]) ++ underscore_runs true rest
      else c :: underscore_runs false rest
  end.

Definition replace_whitespace_runs (s : jsstring) : jsstring := underscore_runs false s.

(** [s.replace(/\+/g, " ")] *)
Definition replace_plus (s : jsstring) : jsstring :=
  (λ c, if (c =? 0x2B)%N then 0x20%N else c) <$> s.

(** The class [U+0300..U+036F] of the regular expression in [normalizeName]:
    the block Combining Diacritical Marks. *)
Definition is_combining_diacritical (c : N) : bool := (0x0300 <=? c)%N && (c <=? 0x036F)%N.

Definition is_high_surrogate (c : N) : bool := (0xD800 <=? c)%N && (c <=? 0xDBFF)%N.
Definition is_low_surrogate (c : N) : bool := (0xDC00 <=? c)%N && (c <=? 0xDFFF)%N.

(** The code points of a sequence of code units: a high surrogate directly
    followed by a low one is one supplementary character. *)
Fixpoint code_points (units : jsstring) : jsstring :=
  match units with
  | [] => []
  | h :: rest =>
      match rest with
      | l :: rest' =>
          if is_high_surrogate h && is_low_surrogate l
          then (0x10000 + (h - 0xD800) * 0x400 + (l - 0xDC00))%N :: code_points rest'
          else h :: code_points rest
      | [] => [h]
      end
  end.

(** [s.replace(/[\u0300-\u036f]/g, "")]: the regular expression has no [u]
    flag and works on code units.  The marks are removed; an unpaired high
    surrogate that comes to stand directly before an unpaired low one forms
    a supplementary character with it. *)
Definition strip_diacriticals (s : jsstring) : jsstring :=
  code_points (filter (λ c, is_combining_diacritical c = false) s).

(** ** The Unicode Character Database

    [normalize("NFKD")] and [toLowerCase] are table driven.  The tables are
    the fields of [Unicode]; the algorithms over them are written out below. *)

Class Unicode := {
  (** Canonical_Combining_Class *)
  ccc : N → N;
  (** full compatibility decomposition of one code point (Hangul syllables
      included), the code point itself when it has none *)
  decomp : N → jsstring;
  (** unconditional lower-case mapping of one code point *)
  lower_char : N → jsstring;
  (** unconditional upper-case mapping of one code point; the script does
      not use it, the claims about letter case do *)
  upper_char : N → jsstring;
  (** the Final_Sigma condition of SpecialCasing, from the text before the
      sigma (nearest code point first) and the text after it *)
  final_sigma : jsstring → jsstring → bool;
}.

Definition capital_sigma : N := 0x03A3.
Definition small_sigma : N := 0x03C3.
Definition small_final_sigma : N := 0x03C2.
Definition combining_grapheme_joiner : N := 0x034F.

(** Canonical Ordering Algorithm: every maximal run of code points with a
    non-zero combining class is sorted by class, keeping the order of equal
    classes; a starter (class zero) is never passed.  [reorder_insert c r]
    puts [c], which stood in front of the already ordered [r], in its place:
    behind the run's code points of a strictly smaller class. *)
Definition passes `{Unicode} (c d : N) : bool :=
  bool_decide (ccc c ≠ 0%N) && bool_decide (ccc d ≠ 0%N) && (ccc d <? ccc c)%N.

Fixpoint reorder_insert `{Unicode} (c : N) (r : jsstring) : jsstring :=
  match r with
  | d :: r' => if passes c d then d :: reorder_insert c r' else c :: r
  | [] => [c]
  end.

Definition canonical_order `{Unicode} (s : jsstring) : jsstring :=
  foldr reorder_insert [] s.

(** [s.normalize("NFKD")] *)
Definition normalize_NFKD `{Unicode} (s : jsstring) : jsstring :=
  canonical_order (s ≫= decomp).

(** [s.toLowerCase()]: code point by code point, the capital sigma by its
    context. *)
Fixpoint lower_from `{Unicode} (before : jsstring) (s : jsstring) : jsstring :=
  match s with
  | [] => []
  | c :: rest =>
      (if (c =? capital_sigma)%N
       then (if final_sigma before rest then [small_final_sigma] else [small_sigma])
       else lower_char c)
      ++ lower_from (c :: before) rest
  end.

Definition toLowerCase `{Unicode} (s : jsstring) : jsstring := lower_from [] s.

(** ** Exceptions

    A computation either returns or throws. *)

Inductive exn :=
  | URIError                                 (* malformed URI sequence *)
  | TypeError                                (* property access on null or undefined,
                                                an object without a primitive value *)
  | SyntaxError                              (* a response body that is not JSON *)
  | NetworkError                             (* a rejected fetch *)
  | LoadFailure (what : string) (status : N). (* [new Error(`Failed to load ...`)] *)

Inductive result (A : Type) :=
  | Ok (a : A)
  | Throw (e : exn).
Arguments Ok {A} a.
Arguments Throw {A} e.

Definition bind {A B} (r : result A) (k : A → result B) : result B :=
  match r with
  | Ok a => k a
  | Throw e => Throw e
  end.

Notation "x ←! r ;; k" := (bind r (λ x, k))
  (at level 100, r at next level, right associativity, only parsing).

(** [try { body } catch (error) { handler(error) }] *)
Definition try_catch {A} (body : result A) (handler : exn → result A) : result A :=
  match body with
  | Ok a => Ok a
  | Throw e => handler e
  end.

(** ** UTF-8 and percent-encoding *)

Definition percent : N := 0x25.

(** The octets of the UTF-8 encoding of a scalar value. *)
Definition utf8_encode (c : N) : list N :=
  if (c <? 0x80)%N then [c]
  else if (c <? 0x800)%N then
    [N.lor 0xC0 (N.shiftr c 6); N.lor 0x80 (N.land c 0x3F)]
  else if (c <? 0x10000)%N then
    [N.lor 0xE0 (N.shiftr c 12); N.lor 0x80 (N.land (N.shiftr c 6) 0x3F);
     N.lor 0x80 (N.land c 0x3F)]
  else
    [N.lor 0xF0 (N.shiftr c 18); N.lor 0x80 (N.land (N.shiftr c 12) 0x3F);
     N.lor 0x80 (N.land (N.shiftr c 6) 0x3F); N.lor 0x80 (N.land c 0x3F)].

Definition hex_digit (n : N) : N :=
  if (n <? 10)%N then (0x30 + n)%N else (0x41 + (n - 10))%N.

Definition percent_encode_octet (b : N) : jsstring :=
  [percent; hex_digit (N.shiftr b 4); hex_digit (N.land b 0xF)].

Definition hex_value (c : N) : option N :=
  if (0x30 <=? c)%N && (c <=? 0x39)%N then Some (c - 0x30)%N
  else if (0x41 <=? c)%N && (c <=? 0x46)%N then Some (c - 0x41 + 10)%N
  else if (0x61 <=? c)%N && (c <=? 0x66)%N then Some (c - 0x61 + 10)%N
  else None.

Definition parse_hex_octet (h l : N) : option N :=
  hi ← hex_value h; lo ← hex_value l; Some (16 * hi + lo)%N.

(** uriUnreserved: letters, digits and [- _ . ! ~ * ' ( )]. *)
Definition is_uri_unreserved (c : N) : bool :=
  ((0x41 <=? c)%N && (c <=? 0x5A)%N) || ((0x61 <=? c)%N && (c <=? 0x7A)%N)
  || ((0x30 <=? c)%N && (c <=? 0x39)%N)
  || bool_decide (c ∈ [0x2D; 0x5F; 0x2E; 0x21; 0x7E; 0x2A; 0x27; 0x28; 0x29]%N).

(** [encodeURIComponent(s)]: throws URIError on an unpaired surrogate. *)
Fixpoint encodeURIComponent (s : jsstring) : result jsstring :=
  match s with
  | [] => Ok []
  | c :: rest =>
      if is_uri_unreserved c then
        r ←! encodeURIComponent rest ;; Ok (c :: r)
      else if is_surrogate c then Throw URIError
      else
        r ←! encodeURIComponent rest ;;
        Ok ((utf8_encode c ≫= percent_encode_octet) ++ r)
  end.

(** How many octets the UTF-8 sequence led by [b] has: the number of leading
    one bits of [b], when that is 2, 3 or 4. *)
Definition utf8_sequence_length (b : N) : option nat :=
  if (b <? 0xC0)%N then None
  else if (b <? 0xE0)%N then Some 2
  else if (b <? 0xF0)%N then Some 3
  else if (b <? 0xF8)%N then Some 4
  else None.

Definition is_continuation (b : N) : bool := (0x80 <=? b)%N && (b <=? 0xBF)%N.

(** The scalar value of a multi-octet sequence, when the sequence is valid
    UTF-8: continuation octets, shortest form, no surrogate, at most
    U+10FFFF. *)
Definition utf8_decode_sequence (octets : list N) : option N :=
  match octets with
  | [b0; b1] =>
      let cp := N.lor (N.shiftl (N.land b0 0x1F) 6) (N.land b1 0x3F) in
      if is_continuation b1 && (0x80 <=? cp)%N then Some cp else None
  | [b0; b1; b2] =>
      let cp := N.lor (N.shiftl (N.land b0 0x0F) 12)
                  (N.lor (N.shiftl (N.land b1 0x3F) 6) (N.land b2 0x3F)) in
      if is_continuation b1 && is_continuation b2 && (0x800 <=? cp)%N
         && negb (is_surrogate cp)
      then Some cp else None
  | [b0; b1; b2; b3] =>
      let cp := N.lor (N.shiftl (N.land b0 0x07) 18)
                  (N.lor (N.shiftl (N.land b1 0x3F) 12)
                     (N.lor (N.shiftl (N.land b2 0x3F) 6) (N.land b3 0x3F))) in
      if is_continuation b1 && is_continuation b2 && is_continuation b3
         && (0x10000 <=? cp)%N && (cp <=? 0x10FFFF)%N
      then Some cp else None
  | _ => None
  end.

(** The Decode operation of [decodeURIComponent] (empty set of preserved
    escapes).  [pending] holds the octets of a started multi-octet sequence
    and [missing] counts the escapes the sequence still needs. *)
Fixpoint decode_from (pending : list N) (missing : nat) (s : jsstring) : result jsstring :=
  match missing with
  | O =>
      match s with
      | [] => Ok []
      | c :: rest =>
          if (c =? percent)%N then
            match rest with
            | h :: l :: rest' =>
                match parse_hex_octet h l with
                | None => Throw URIError
                | Some b =>
                    if (b <? 0x80)%N then
                      r ←! decode_from [] 0 rest' ;; Ok (b :: r)
                    else
                      match utf8_sequence_length b with
                      | Some n => decode_from [b] (n - 1) rest'
                      | None => Throw URIError
                      end
                end
            | _ => Throw URIError
            end
          else r ←! decode_from [] 0 rest ;; Ok (c :: r)
      end
  | S m =>
      match s with
      | c :: h :: l :: rest' =>
          if (c =? percent)%N then
            match parse_hex_octet h l with
            | None => Throw URIError
            | Some b =>
                match m with
                | O =>
                    match utf8_decode_sequence (pending ++ [b]) with
                    | Some cp => r ←! decode_from [] 0 rest' ;; Ok (cp :: r)
                    | None => Throw URIError
                    end
                | S _ => decode_from (pending ++ [b]) m rest'
                end
            end
          else Throw URIError
      | _ => Throw URIError
      end
  end.

(** [decodeURIComponent(s)]: throws URIError on a malformed escape. *)
Definition decodeURIComponent (s : jsstring) : result jsstring := decode_from [] 0 s.

(** ** URLSearchParams

    [new URLSearchParams(search)] runs the application/x-www-form-urlencoded
    parser on the UTF-8 octets of [search] without a leading question mark. *)

(** Conversion to a USVString: an unpaired surrogate becomes U+FFFD. *)
Definition to_usv (s : jsstring) : jsstring :=
  (λ c, if is_surrogate c then 0xFFFD%N else c) <$> s.

(** Split at every occurrence of [sep]. *)
Fixpoint split_on (sep : N) (s : list N) : list (list N) :=
  match s with
  | [] => [[]]
  | c :: rest =>
      if (c =? sep)%N then [] :: split_on sep rest
      else match split_on sep rest with
           | piece :: pieces => (c :: piece) :: pieces
           | [] => [[c]]
           end
  end.

(** The part before the first [sep] and the part after it, if there is one. *)
Fixpoint split_first (sep : N) (s : list N) : list N * option (list N) :=
  match s with
  | [] => ([], None)
  | c :: rest =>
      if (c =? sep)%N then ([], Some rest)
      else let '(name, value) := split_first sep rest in (c :: name, value)
  end.

(** percent-decode of the URL standard: an escape that is not followed by two
    hexadecimal digits stays as it is. *)
Fixpoint percent_decode (bytes : list N) : list N :=
  match bytes with
  | [] => []
  | c :: rest =>
      if (c =? percent)%N then
        match rest with
        | h :: l :: rest' =>
            match parse_hex_octet h l with
            | Some b => b :: percent_decode rest'
            | None => c :: percent_decode rest
            end
        | _ => c :: percent_decode rest
        end
      else c :: percent_decode rest
  end.

(** The state of the UTF-8 decoder of the Encoding standard inside a
    multi-octet sequence. *)
Record utf8_pending := {
  u_code_point : N;
  u_remaining : nat;
  u_lower : N;
  u_upper : N;
}.

Definition utf8_lead (b : N) : jsstring * option utf8_pending :=
  if (b <=? 0x7F)%N then ([b], None)
  else if (0xC2 <=? b)%N && (b <=? 0xDF)%N then
    ([], Some {| u_code_point := N.land b 0x1F; u_remaining := 1;
                 u_lower := 0x80; u_upper := 0xBF |})
  else if (0xE0 <=? b)%N && (b <=? 0xEF)%N then
    ([], Some {| u_code_point := N.land b 0x0F; u_remaining := 2;
                 u_lower := if (b =? 0xE0)%N then 0xA0 else 0x80;
                 u_upper := if (b =? 0xED)%N then 0x9F else 0xBF |})
  else if (0xF0 <=? b)%N && (b <=? 0xF4)%N then
    ([], Some {| u_code_point := N.land b 0x07; u_remaining := 3;
                 u_lower := if (b =? 0xF0)%N then 0x90 else 0x80;
                 u_upper := if (b =? 0xF4)%N then 0x8F else 0xBF |})
  else ([0xFFFD%N], None).

(** UTF-8 decode without BOM: a malformed sequence decodes to U+FFFD. *)
Fixpoint utf8_decode_from (st : option utf8_pending) (bytes : list N) : jsstring :=
  match bytes with
  | [] => match st with Some _ => [0xFFFD%N] | None => [] end
  | b :: rest =>
      match st with
      | None => let '(out, st') := utf8_lead b in out ++ utf8_decode_from st' rest
      | Some p =>
          if (u_lower p <=? b)%N && (b <=? u_upper p)%N then
            let cp := N.lor (N.shiftl (u_code_point p) 6) (N.land b 0x3F) in
            match u_remaining p with
            | S (S m) =>
                utf8_decode_from
                  (Some {| u_code_point := cp; u_remaining := S m;
                           u_lower := 0x80; u_upper := 0xBF |}) rest
            | _ => cp :: utf8_decode_from None rest
            end
          else
            let '(out, st') := utf8_lead b in
            0xFFFD%N :: out ++ utf8_decode_from st' rest
      end
  end.

Definition utf8_decode (bytes : list N) : jsstring := utf8_decode_from None bytes.

Definition form_decode (bytes : list N) : jsstring :=
  utf8_decode (percent_decode ((λ b, if (b =? 0x2B)%N then 0x20%N else b) <$> bytes)).

Definition parse_pair (bytes : list N) : jsstring * jsstring :=
  let '(name, value) := split_first 0x3D bytes in
  (form_decode name, form_decode (default [] value)).

(** The list of name-value pairs of [new URLSearchParams(search)]. *)
Definition URLSearchParams (search : jsstring) : list (jsstring * jsstring) :=
  let input := match search with
               | c :: rest => if (c =? 0x3F)%N then rest else search
               | [] => []
               end in
  parse_pair <$> filter (λ piece, piece ≠ []) (split_on 0x26 (to_usv input ≫= utf8_encode)).

(** [params.get(name)]: the value of the first pair named [name], or null. *)
Fixpoint params_get (params : list (jsstring * jsstring)) (name : jsstring) : option jsstring :=
  match params with
  | [] => None
  | (n, v) :: rest => if bool_decide (n = name) then Some v else params_get rest name
  end.

(** ** Host facilities

    What the script takes from the browser and the claims leave open: the
    Number type of JSON documents, the source text of a built-in function and
    the localisation of dates. *)

Class Host := {
  number : Type;
  (** ToBoolean of a Number *)
  number_truthy : number → bool;
  (** ToString of a Number *)
  number_to_string : number → jsstring;
  (** [Function.prototype.toString] of the built-in function of that name *)
  native_source : jsstring → jsstring;
  (** [new Date(value).toLocaleDateString(undefined, {year, month, day})],
      [None] when the date is invalid *)
  toLocaleDateString : jsstring → option jsstring;
}.

(** ** Values

    [JSON] is what [response.json()] resolves to. *)

Inductive JSON `{Host} :=
  | JNull
  | JBool (b : bool)
  | JNum (n : number)
  | JStr (s : jsstring)
  | JArr (items : list JSON)
  | JObj (members : list (jsstring * JSON)).

(** The values that are greeted and highlighted: what a property read on
    the registry yields (a string, or what a plain object inherits from
    [Object.prototype]), [null] and [undefined]. *)
Inductive value `{Host} :=
  | VUndefined
  | VNull
  | VString (s : jsstring)
  | VFunction (name : jsstring)      (* a built-in function object *)
  | VObjectPrototype.                 (* the object [Object.prototype] *)

(** ToBoolean *)
Definition json_truthy `{Host} (j : JSON) : bool :=
  match j with
  | JNull => false
  | JBool b => b
  | JNum n => number_truthy n
  | JStr s => bool_decide (s ≠ [])
  | JArr _ | JObj _ => true
  end.

Definition truthy `{Host} (v : value) : bool :=
  match v with
  | VUndefined | VNull => false
  | VString s => bool_decide (s ≠ [])
  | VFunction _ | VObjectPrototype => true
  end.

(** [parts.join(",")] *)
Fixpoint join_comma (parts : list jsstring) : jsstring :=
  match parts with
  | [] => []
  | [p] => p
  | p :: rest => p ++ 0x2C%N :: join_comma rest
  end.

(** The own enumerable property [key] of a JSON value.  [JSON.parse] keeps the
    last of several members with one name; an array has its indices. *)
Fixpoint last_member `{Host} (members : list (jsstring * JSON)) (key : jsstring) : option JSON :=
  match members with
  | [] => None
  | (k, v) :: rest =>
      match last_member rest key with
      | Some v' => Some v'
      | None => if bool_decide (k = key) then Some v else None
      end
  end.

(** [String(j)] for a value of a JSON document.  An array joins the strings
    of its elements ([element_strings]) with commas, null elements as the
    empty string.  An
    object has no callable property of its own: when it has a member
    [toString], OrdinaryToPrimitive finds that member, which is not
    callable, then the inherited [valueOf], which returns the object, and
    throws a TypeError; otherwise the inherited [toString] yields
    "[object Object]". *)
Fixpoint element_strings `{Host} (to_string : JSON → result jsstring) (items : list JSON)
    : result (list jsstring) :=
  match items with
  | [] => Ok []
  | e :: rest =>
      part ←! match e with JNull => Ok [] | _ => to_string e end ;;
      parts ←! element_strings to_string rest ;;
      Ok (part :: parts)
  end.

Fixpoint json_to_string `{Host} (j : JSON) : result jsstring :=
  match j with
  | JNull => Ok (str "null")
  | JBool true => Ok (str "true")
  | JBool false => Ok (str "false")
  | JNum n => Ok (number_to_string n)
  | JStr s => Ok s
  | JArr items =>
      parts ←! element_strings json_to_string items ;;
      Ok (join_comma parts)
  | JObj members =>
      match last_member members (str "toString") with
      | Some _ => Throw TypeError
      | None => Ok (str "[object Object]")
      end
  end.

(** [String(v)], and [v] in a template literal *)
Definition ToString `{Host} (v : value) : jsstring :=
  match v with
  | VUndefined => str "undefined"
  | VNull => str "null"
  | VString s => s
  | VFunction name => native_source name
  | VObjectPrototype => str "[object Object]"
  end.

(** The decimal numeral of a natural number. *)
Fixpoint decimal_digits (fuel : nat) (n : N) (acc : jsstring) : jsstring :=
  match fuel with
  | O => acc
  | S fuel' =>
      let acc' := (0x30 + n mod 10)%N :: acc in
      if (n <? 10)%N then acc' else decimal_digits fuel' (n / 10) acc'
  end.

Definition decimal (n : N) : jsstring := decimal_digits (S (N.to_nat (N.log2 n))) n [].

(** The property name of the array index [i]. *)
Definition index_key (i : nat) : jsstring := decimal (N.of_nat i).

Definition own_property `{Host} (j : JSON) (key : jsstring) : option JSON :=
  match j with
  | JObj members => last_member members key
  | JArr items =>
      '(_, i) ← list_find (λ i, index_key i = key) (seq 0 (length items)); items !! i
  | _ => None
  end.

(** [Object.keys(source)]: every own enumerable property name once. *)
Definition Object_keys `{Host} (source : JSON) : list jsstring :=
  match source with
  | JObj members => remove_dups (fst <$> members)
  | JArr items => index_key <$> seq 0 (length items)
  | _ => []
  end.

(** ** Plain objects used as dictionaries

    The object built by [normalizeGuestTokens] starts as [{}] and only ever
    receives string values: its own properties are a finite map from names
    to strings, and its prototype is [Object.prototype]. *)

Definition proto_key : jsstring := str "__proto__".

(** The function-valued properties of [Object.prototype], each with the name
    of the function it holds. *)
Definition object_prototype_methods : list (jsstring * jsstring) :=
  [(str "constructor", str "Object");
   (str "hasOwnProperty", str "hasOwnProperty");
   (str "isPrototypeOf", str "isPrototypeOf");
   (str "propertyIsEnumerable", str "propertyIsEnumerable");
   (str "toLocaleString", str "toLocaleString");
   (str "toString", str "toString");
   (str "valueOf", str "valueOf");
   (str "__defineGetter__", str "__defineGetter__");
   (str "__defineSetter__", str "__defineSetter__");
   (str "__lookupGetter__", str "__lookupGetter__");
   (str "__lookupSetter__", str "__lookupSetter__")].

(** What a read of [key] finds on [Object.prototype]; the accessor
    [__proto__] yields the prototype of the object read, [Object.prototype]
    itself. *)
Definition object_prototype_get `{Host} (key : jsstring) : value :=
  match list_find (λ '(k, _), k = key) object_prototype_methods with
  | Some (_, (_, name)) => VFunction name
  | None => if bool_decide (key = proto_key) then VObjectPrototype else VUndefined
  end.

(** [map[key]] *)
Definition property_get `{Host} (map : gmap jsstring jsstring) (key : jsstring) : value :=
  match map !! key with
  | Some s => VString s
  | None => object_prototype_get key
  end.

(** [map[key] = s] for a string [s]: an own property is created or
    overwritten, except that the name [__proto__] reaches the setter on
    [Object.prototype], which ignores a value that is neither an object nor
    null. *)
Definition property_set (map : gmap jsstring jsstring) (key s : jsstring) : gmap jsstring jsstring :=
  if bool_decide (key = proto_key) then map else <[key := s]> map.

(** ** app.js: pure helpers *)

(** [entry.token], [entry.name], [raw.tokens]: no object on the prototype
    chain of an object or an array has a property of these names, so the read
    yields the own property or [undefined] ([None]). *)
Definition member `{Host} (j : JSON) (key : jsstring) : option JSON := own_property j key.

(** [typeof j === "object"] together with [j] being truthy *)
Definition is_object `{Host} (j : JSON) : bool :=
  match j with
  | JArr _ | JObj _ => true
  | _ => false
  end.

(** [items.reduce(f, initial)] for a callback that can throw *)
Fixpoint reduce {A B} (f : B → A → result B) (items : list A) (initial : B) : result B :=
  match items with
  | [] => Ok initial
  | x :: rest => next ←! f initial x ;; reduce f rest next
  end.

(** The callback of [raw.reduce]: [String(token)] is evaluated before
    [String(name)]. *)
Definition add_pair `{Host} (map : gmap jsstring jsstring) (entry : JSON)
    : result (gmap jsstring jsstring) :=
  if is_object entry then
    match member entry (str "token"), member entry (str "name") with
    | Some token, Some name =>
        if json_truthy token && json_truthy name then
          key ←! json_to_string token ;;
          s ←! json_to_string name ;;
          Ok (property_set map key s)
        else Ok map
    | _, _ => Ok map
    end
  else Ok map.

Definition add_key `{Host} (source : JSON) (map : gmap jsstring jsstring) (key : jsstring)
    : gmap jsstring jsstring :=
  match own_property source key with
  | Some (JStr value) =>
      if bool_decide (trim value ≠ []) then property_set map key (trim value) else map
  | _ => map
  end.

Definition normalizeGuestTokens `{Host} (raw : JSON) : result (gmap jsstring jsstring) :=
  if negb (json_truthy raw) then Ok ∅
  else
    match raw with
    | JArr items => reduce add_pair items ∅
    | JObj _ =>
        let source :=
          match member raw (str "tokens") with
          | Some tokens => if is_object tokens then tokens else raw
          | None => raw
          end in
        Ok (foldl (add_key source) ∅ (Object_keys source))
    | _ => Ok ∅
    end.

Definition normalizeName `{Unicode} `{Host} (value : value) : jsstring :=
  match value with
  | VUndefined | VNull => []
  | _ => trim (toLowerCase (strip_diacriticals (normalize_NFKD (ToString value))))
  end.

(** [a ?? b] on the results of [params.get] *)
Definition nullish {A} (a b : option A) : option A :=
  match a with
  | Some x => Some x
  | None => b
  end.

Definition getGuestTokenFromUrl (search : jsstring) : result (option jsstring) :=
  let params := URLSearchParams search in
  let raw :=
    nullish (params_get params (str "guest"))
      (nullish (params_get params (str "token"))
         (nullish (params_get params (str "code"))
            (params_get params (str "ticket")))) in
  match raw with
  | None => Ok None
  | Some raw =>
      if bool_decide (raw = []) then Ok None
      else
        decoded ←! decodeURIComponent (replace_plus raw) ;;
        let decoded := trim decoded in
        if bool_decide (decoded = []) then Ok None else Ok (Some decoded)
  end.

(** The body of [bases.forEach] in [getAvatarBases], on the array [unique]
    and the set [seen]. *)
Definition add_base `{Unicode} (state : list jsstring * gset jsstring) (base : jsstring)
    : list jsstring * gset jsstring :=
  let '(unique, seen) := state in
  if bool_decide (base = []) then (unique, seen)
  else
    let key := toLowerCase base in
    if bool_decide (key ∈ seen) then (unique, seen)
    else (unique ++ [base], {[key]} ∪ seen).

Definition getAvatarBases `{Unicode} `{Host} (playerName : option jsstring)
    : result (list jsstring) :=
  match playerName with
  | None => Ok []
  | Some playerName =>
      if bool_decide (playerName = []) then Ok []
      else
        let trimmed := trim playerName in
        encoded ←! encodeURIComponent trimmed ;;
        let underscored := replace_whitespace_runs trimmed in
        let ascii := replace_whitespace_runs (normalizeName (VString trimmed)) in
        let bases := [trimmed; encoded; underscored; ascii] in
        Ok (foldl add_base ([], ∅) bases).1
  end.

(** ** The feed

    The published feed, as section 6 of the specification gives its shape.
    An absent member is [None]; ranks, points and counts are integers. *)

Record Player := {
  player_rank : Z;
  player_name : jsstring;   (* the member [player] of a leaderboard row *)
  player_points : Z;
}.
Record Rule := { rule_label : jsstring; rule_points : Z }.
Record Award := { award_player : jsstring; award_reason : jsstring; award_points : Z }.
Record Event := {
  event_name : jsstring;
  event_date : option jsstring;
  event_awards : option (list Award);
}.
Record PlayResult := {
  result_player : jsstring;
  result_placement : option Z;
  result_points : option Z;
}.
Record Play := {
  play_game : jsstring;
  play_date : option jsstring;
  play_event : option jsstring;
  play_scored : bool;
  play_results : option (list PlayResult);
  play_notes : option jsstring;
}.
Record GameCount := { game_name : jsstring; game_count : Z }.
Record Podiums := { podium_1 : option Z; podium_2 : option Z; podium_3 : option Z }.
Record Activity := {
  activity_player : jsstring;
  totalPlays : Z;
  games : option (list GameCount);
  podiums : option Podiums;
}.
Record Feed := {
  title : option jsstring;
  tagline : option jsstring;
  seasonLabel : option jsstring;
  lastUpdated : option jsstring;
  pointsLabelSingular : option jsstring;
  pointsLabelPlural : option jsstring;
  mode : option jsstring;
  scoringRules : option (list Rule);
  leaderboard : option (list Player);
  recentEvents : option (list Event);
  allEvents : option (list Event);
  recentPlays : option (list Play);
  allPlays : option (list Play);
  playerActivity : option (list Activity);
}.

(** ** The page *)

(** The closure [onError] of [applyAvatar]: the candidate sources and the
    index of the next one to try. *)
Record Probe := { probe_sources : list jsstring; probe_index : nat }.

Record Img := {
  img_hidden : bool;
  img_src : option jsstring;
  img_alt : jsstring;
  img_avatarErrorHandler : option Probe;   (* the property [_avatarErrorHandler] *)
  img_listening : bool;                     (* is the closure an [error] listener *)
}.

(** The image of a leaderboard row and the [hidden] flag of its wrapper, each
    when the template has it. *)
Record AvatarElements := { avatar_img : option Img; avatar_wrapper_hidden : option bool }.

Record ExpandButton := {
  expand_hidden : bool;
  expand_text : jsstring;
  expand_expanded : option bool;     (* [dataset.expanded] *)
  expand_collapsed : nat;            (* items the click listener toggles *)
}.

(** A line of an event's or a play's list: a cloned award template or a
    created placeholder. *)
Inductive Line :=
  | AwardLine (player reason points : jsstring) (highlighted collapsed : bool)
  | PlainLine (className text : jsstring).

Inductive Node :=
  | Created (tag className text : jsstring)
  | LeaderboardItem (rank : Z) (rank_text name points : jsstring)
      (avatar : AvatarElements) (highlight : bool)
  | ScoringRule (label points : jsstring)
  | TimelineEvent (title date : jsstring) (awards : list Line) (expand : option ExpandButton)
  | TimelinePlay (title date meta : jsstring) (results : list Line) (notes : option jsstring)
  | ActivityCard (player total : jsstring) (stats : list (jsstring * jsstring))
      (highlight : bool).

Record Greeting := { greeting_hidden : bool; greeting_text : jsstring }.
Record Link := { link_href : option jsstring; link_display : option jsstring }.
Record Label := { label_text : jsstring; label_display : option jsstring }.

Inductive LogEntry := LogWarn (e : exn) | LogError (e : exn).

(** The part of the document and the window the script touches.  [lists]
    maps the selector of a list container to the container's children,
    [texts] the selector of a text element to its text and display style,
    [links] the selector of a navigation link to its target and display
    style; a selector that matches nothing is not in the map. *)
Record Document := {
  location_search : jsstring;
  console : list LogEntry;
  document_title : jsstring;
  guest_greeting : option Greeting;
  lists : gmap jsstring (list Node);
  texts : gmap jsstring Label;
  links : gmap jsstring Link;
  player_template : option AvatarElements;
  scoring_rule_template : bool;
  event_template : option (option ExpandButton);
  timeline_award_template : bool;
  play_template : bool;
  activity_card_template : bool;
}.

Definition set_console (f : list LogEntry → list LogEntry) (d : Document) : Document :=
  {| location_search := location_search d;
     console := f (console d);
     document_title := document_title d;
     guest_greeting := guest_greeting d;
     lists := lists d;
     texts := texts d;
     links := links d;
     player_template := player_template d;
     scoring_rule_template := scoring_rule_template d;
     event_template := event_template d;
     timeline_award_template := timeline_award_template d;
     play_template := play_template d;
     activity_card_template := activity_card_template d |}.

Definition set_title (t : jsstring) (d : Document) : Document :=
  {| location_search := location_search d;
     console := console d;
     document_title := t;
     guest_greeting := guest_greeting d;
     lists := lists d;
     texts := texts d;
     links := links d;
     player_template := player_template d;
     scoring_rule_template := scoring_rule_template d;
     event_template := event_template d;
     timeline_award_template := timeline_award_template d;
     play_template := play_template d;
     activity_card_template := activity_card_template d |}.

Definition set_greeting (g : Greeting) (d : Document) : Document :=
  {| location_search := location_search d;
     console := console d;
     document_title := document_title d;
     guest_greeting := Some g;
     lists := lists d;
     texts := texts d;
     links := links d;
     player_template := player_template d;
     scoring_rule_template := scoring_rule_template d;
     event_template := event_template d;
     timeline_award_template := timeline_award_template d;
     play_template := play_template d;
     activity_card_template := activity_card_template d |}.

Definition set_lists (f : gmap jsstring (list Node) → gmap jsstring (list Node)) (d : Document) : Document :=
  {| location_search := location_search d;
     console := console d;
     document_title := document_title d;
     guest_greeting := guest_greeting d;
     lists := f (lists d);
     texts := texts d;
     links := links d;
     player_template := player_template d;
     scoring_rule_template := scoring_rule_template d;
     event_template := event_template d;
     timeline_award_template := timeline_award_template d;
     play_template := play_template d;
     activity_card_template := activity_card_template d |}.

Definition set_texts (f : gmap jsstring Label → gmap jsstring Label) (d : Document) : Document :=
  {| location_search := location_search d;
     console := console d;
     document_title := document_title d;
     guest_greeting := guest_greeting d;
     lists := lists d;
     texts := f (texts d);
     links := links d;
     player_template := player_template d;
     scoring_rule_template := scoring_rule_template d;
     event_template := event_template d;
     timeline_award_template := timeline_award_template d;
     play_template := play_template d;
     activity_card_template := activity_card_template d |}.

Definition set_links (f : gmap jsstring Link → gmap jsstring Link) (d : Document) : Document :=
  {| location_search := location_search d;
     console := console d;
     document_title := document_title d;
     guest_greeting := guest_greeting d;
     lists := lists d;
     texts := texts d;
     links := f (links d);
     player_template := player_template d;
     scoring_rule_template := scoring_rule_template d;
     event_template := event_template d;
     timeline_award_template := timeline_award_template d;
     play_template := play_template d;
     activity_card_template := activity_card_template d |}.

(** ** Computations on the page

    A function of the script takes the page to a new page and returns or
    throws; what it wrote before throwing stays written. *)

Definition M (A : Type) : Type := Document → Document * result A.

Definition ret {A} (a : A) : M A := λ d, (d, Ok a).
Definition throw {A} (e : exn) : M A := λ d, (d, Throw e).
Definition lift {A} (r : result A) : M A := λ d, (d, r).
Definition modify (f : Document → Document) : M () := λ d, (f d, Ok ()).
Definition read {A} (f : Document → A) : M A := λ d, (d, Ok (f d)).

Definition mbind {A B} (m : M A) (k : A → M B) : M B :=
  λ d, match m d with
       | (d', Ok a) => k a d'
       | (d', Throw e) => (d', Throw e)
       end.

Notation "x ⇐ m ;; k" := (mbind m (λ x, k))
  (at level 100, m at next level, right associativity, only parsing).
Notation "m ;;; k" := (mbind m (λ _, k))
  (at level 100, right associativity, only parsing).

(** [try { body } catch (error) { handler(error) }] on the page *)
Definition mtry {A} (body : M A) (handler : exn → M A) : M A :=
  λ d, match body d with
       | (d', Ok a) => (d', Ok a)
       | (d', Throw e) => handler e d'
       end.

(** [items.forEach(f)] *)
Fixpoint forEach {A} (f : A → M ()) (items : list A) : M () :=
  match items with
  | [] => ret ()
  | x :: rest => f x ;;; forEach f rest
  end.

(** [document.querySelector(selector)] for a list container *)
Definition query_list (selector : jsstring) : M (option (list Node)) :=
  read (λ d, lists d !! selector).

(** [list.innerHTML = ""] *)
Definition clear_list (selector : jsstring) : M () :=
  modify (set_lists (<[selector := []]>)).

(** [list.appendChild(node)] *)
Definition appendChild (selector : jsstring) (node : Node) : M () :=
  modify (set_lists (λ m, <[selector := default [] (m !! selector) ++ [node]]> m)).

(** ** The network

    What [fetch] resolves to: a response with its status and the outcome of
    [response.json()]; a rejected fetch is a [Throw]. *)

Record Response (A : Type) := {
  response_ok : bool;
  response_status : N;
  response_json : result A;
}.
Arguments response_ok {A} _.
Arguments response_status {A} _.
Arguments response_json {A} _.

Definition fetchLeaderboard (fetched : result (Response Feed)) : result Feed :=
  response ←! fetched ;;
  if negb (response_ok response)
  then Throw (LoadFailure "leaderboard" (response_status response))
  else response_json response.

Definition fetchGuestTokens `{Host} (fetched : result (Response JSON)) : result JSON :=
  response ←! fetched ;;
  if negb (response_ok response)
  then Throw (LoadFailure "guest tokens" (response_status response))
  else response_json response.

(** ** app.js: rendering *)

(** ToString of an integer *)
Definition Z_to_string (z : Z) : jsstring :=
  match z with
  | Z0 => str "0"
  | Zpos p => decimal (Npos p)
  | Zneg p => str "-" ++ decimal (Npos p)
  end.

Definition asLocaleDate `{Host} (value : option jsstring) : jsstring :=
  match value with
  | None => []
  | Some v => if bool_decide (v = []) then [] else default v (toLocaleDateString v)
  end.

(** [highlightedName && normalizeName(name) === normalizeName(highlightedName)] *)
Definition is_highlighted `{Unicode} `{Host} (highlightedName : value) (name : jsstring) : bool :=
  truthy highlightedName
  && bool_decide (normalizeName (VString name) = normalizeName highlightedName).

Definition extensions : list jsstring := [str "png"; str "jpg"; str "jpeg"; str "webp"].

(** The array [sources] of [applyAvatar]. *)
Definition avatar_sources (bases : list jsstring) : list jsstring :=
  bases ≫= λ base, (λ ext, str "./avatars/" ++ base ++ str "." ++ ext) <$> extensions.

(** The four statements that give up on the avatar. *)
Definition hide_avatar (img : Img) (wrapper : option bool) : AvatarElements :=
  {| avatar_img :=
       Some {| img_hidden := true; img_src := None; img_alt := [];
               img_avatarErrorHandler := img_avatarErrorHandler img;
               img_listening := img_listening img |};
     avatar_wrapper_hidden := (λ _, true) <$> wrapper |}.

Definition applyAvatar `{Unicode} `{Host} (els : AvatarElements) (playerName : option jsstring)
    : result AvatarElements :=
  match avatar_img els with
  | None => Ok els
  | Some img =>
      let img :=
        match img_avatarErrorHandler img with
        | Some _ =>
            {| img_hidden := img_hidden img; img_src := img_src img; img_alt := img_alt img;
               img_avatarErrorHandler := None; img_listening := false |}
        | None => img
        end in
      bases ←! getAvatarBases playerName ;;
      let sources := avatar_sources bases in
      match sources with
      | [] => Ok (hide_avatar img (avatar_wrapper_hidden els))
      | first :: _ =>
          Ok {| avatar_img :=
                  Some {| img_hidden := false;
                          img_src := Some first;
                          img_alt := match playerName with
                                     | Some (c :: n) => (c :: n) ++ str "'s avatar"
                                     | _ => []
                                     end;
                          img_avatarErrorHandler :=
                            Some {| probe_sources := sources; probe_index := 1 |};
                          img_listening := true |};
                avatar_wrapper_hidden := (λ _, false) <$> avatar_wrapper_hidden els |}
      end
  end.

(** The closure [onError], run on the image and wrapper it captured. *)
Definition onError (probe : Probe) (img : Img) (wrapper : option bool) : AvatarElements :=
  match probe_sources probe !! probe_index probe with
  | None =>
      hide_avatar
        {| img_hidden := img_hidden img; img_src := img_src img; img_alt := img_alt img;
           img_avatarErrorHandler := img_avatarErrorHandler img; img_listening := false |}
        wrapper
  | Some source =>
      {| avatar_img :=
           Some {| img_hidden := img_hidden img; img_src := Some source;
                   img_alt := img_alt img;
                   img_avatarErrorHandler :=
                     Some {| probe_sources := probe_sources probe;
                             probe_index := S (probe_index probe) |};
                   img_listening := img_listening img |};
         avatar_wrapper_hidden := wrapper |}
  end.

(** The browser reports that the image at [img.src] failed to load: the
    [error] listeners of the image run. *)
Definition dispatch_error (els : AvatarElements) : AvatarElements :=
  match avatar_img els with
  | Some img =>
      match img_avatarErrorHandler img with
      | Some probe =>
          if img_listening img then onError probe img (avatar_wrapper_hidden els) else els
      | None => els
      end
  | None => els
  end.

Definition hide_greeting `{Host} : M value :=
  modify (set_greeting {| greeting_hidden := true; greeting_text := [] |}) ;;; ret VNull.

Definition renderGreeting `{Host} (tokens : gmap jsstring jsstring) : M value :=
  greetingEl ⇐ read guest_greeting ;;
  match greetingEl with
  | None => ret VNull
  | Some _ =>
      search ⇐ read location_search ;;
      token ⇐ lift (getGuestTokenFromUrl search) ;;
      match token with
      | None => hide_greeting
      | Some token =>
          let guestName := property_get tokens token in
          if negb (truthy guestName) then hide_greeting
          else
            modify (set_greeting
                      {| greeting_hidden := false;
                         greeting_text :=
                           str "Welcome to the party, " ++ ToString guestName ++ str "!" |}) ;;;
            ret guestName
      end
  end.

Record Labels := { singular : jsstring; plural : jsstring }.

Definition leaderboard_selector : jsstring := str "#leaderboard-list".

Definition renderLeaderboard `{Unicode} `{Host} (players : option (list Player))
    (highlightedName : value) (labels : Labels) : M () :=
  let players := default [] players in
  container ⇐ query_list leaderboard_selector ;;
  template ⇐ read player_template ;;
  match container, template with
  | Some _, Some template =>
      clear_list leaderboard_selector ;;;
      match players with
      | [] =>
          appendChild leaderboard_selector
            (Created (str "li") (str "leaderboard-item empty")
               (str "No scores yet. Check back after the next game night!"))
      | _ =>
          forEach (λ player,
              let unit := if bool_decide (player_points player = 1%Z)
                          then singular labels else plural labels in
              avatar ⇐ lift (applyAvatar template (Some (player_name player))) ;;
              appendChild leaderboard_selector
                (LeaderboardItem (player_rank player)
                   (str "#" ++ Z_to_string (player_rank player))
                   (player_name player)
                   (Z_to_string (player_points player) ++ str " " ++ unit)
                   avatar
                   (is_highlighted highlightedName (player_name player))))
            players
      end
  | _, _ => ret ()
  end.

Definition scoring_rules_selector : jsstring := str "#scoring-rules".

Definition renderScoringRules (rules : option (list Rule)) : M () :=
  let rules := default [] rules in
  list ⇐ query_list scoring_rules_selector ;;
  template ⇐ read scoring_rule_template ;;
  match list, template with
  | Some _, true =>
      clear_list scoring_rules_selector ;;;
      match rules with
      | [] =>
          appendChild scoring_rules_selector
            (Created (str "li") (str "scoring-rule")
               (str "No scoring rules set. Add some in config.json."))
      | _ =>
          forEach (λ rule,
              appendChild scoring_rules_selector
                (ScoringRule (rule_label rule) (Z_to_string (rule_points rule) ++ str " pts")))
            rules
      end
  | _, _ => ret ()
  end.

(** The [options] argument of [renderEvents] and [renderPlays]; a member the
    caller leaves out is [None] and takes the default of the destructuring. *)
Record Options := {
  containerSelector : option jsstring;
  limit : option Z;
  emptyMessage : option jsstring;
  awardPreviewLimit : option Z;
  allowExpand : option bool;
}.

Definition no_options : Options :=
  {| containerSelector := None; limit := None; emptyMessage := None;
     awardPreviewLimit := None; allowExpand := None |}.

(** [items.slice(0, final)] for an integer [final]: a negative [final] counts
    from the end. *)
Definition slice_to {A} (items : list A) (final : Z) : list A :=
  let len := Z.of_nat (length items) in
  take (Z.to_nat (if (final <? 0)%Z then Z.max (len + final) 0 else Z.min final len)) items.

(** [typeof limit === "number" ? items.slice(0, limit) : items] *)
Definition limited {A} (items : list A) (limit : option Z) : list A :=
  match limit with
  | Some n => slice_to items n
  | None => items
  end.

Definition is_collapsed (line : Line) : bool :=
  match line with
  | AwardLine _ _ _ _ collapsed => collapsed
  | PlainLine _ _ => false
  end.

(** The body of [items.forEach] in [renderEvents]: the node built from one
    event. *)
Definition event_node `{Unicode} `{Host} (highlightedName : value)
    (awardPreviewLimit : option Z) (allowExpand : bool)
    (expandButton : option ExpandButton) (event : Event) : Node :=
  let title := event_name event in
  let date := asLocaleDate (event_date event) in
  match event_awards event with
  | None | Some [] =>
      TimelineEvent title date
        [PlainLine (str "timeline-award") (str "Awards logged, details pending.")]
        ((λ b, {| expand_hidden := true; expand_text := expand_text b;
                  expand_expanded := expand_expanded b;
                  expand_collapsed := expand_collapsed b |}) <$> expandButton)
  | Some awards =>
      let previewCount :=
        match awardPreviewLimit with
        | Some n => if allowExpand then Z.max 0 n else Z.of_nat (length awards)
        | None => Z.of_nat (length awards)
        end in
      let lines :=
        imap (λ idx award,
            AwardLine (award_player award) (award_reason award)
              (str "+" ++ Z_to_string (award_points award))
              (is_highlighted highlightedName (award_player award))
              (allowExpand && (previewCount <=? Z.of_nat idx)%Z))
          awards in
      let hiddenCount := length (filter (λ l, is_collapsed l = true) lines) in
      TimelineEvent title date lines
        ((λ b,
            if allowExpand && bool_decide (hiddenCount ≠ 0) then
              {| expand_hidden := false;
                 expand_text :=
                   if bool_decide (hiddenCount = 1) then str "Show 1 more"
                   else str "Show " ++ Z_to_string (Z.of_nat hiddenCount) ++ str " more";
                 expand_expanded := Some false;
                 expand_collapsed := hiddenCount |}
            else
              {| expand_hidden := true; expand_text := [];
                 expand_expanded := expand_expanded b;
                 expand_collapsed := expand_collapsed b |}) <$> expandButton)
  end.

Definition renderEvents `{Unicode} `{Host} (events : list Event) (highlightedName : value)
    (options : Options) : M () :=
  let containerSelector := default (str "#events-timeline") (containerSelector options) in
  let emptyMessage :=
    default (str "No points logged yet. Awards will show here automatically.")
      (emptyMessage options) in
  let allowExpand := default false (allowExpand options) in
  list ⇐ query_list containerSelector ;;
  template ⇐ read event_template ;;
  awardTemplate ⇐ read timeline_award_template ;;
  match list, template, awardTemplate with
  | Some _, Some expandButton, true =>
      clear_list containerSelector ;;;
      let items := limited events (limit options) in
      match items with
      | [] => appendChild containerSelector (Created (str "li") (str "timeline-item") emptyMessage)
      | _ =>
          forEach (λ event,
              appendChild containerSelector
                (event_node highlightedName (awardPreviewLimit options) allowExpand
                   expandButton event))
            items
      end
  | _, _, _ => ret ()
  end.

Definition formatPlacementLabel (placement : option Z) : jsstring :=
  match placement with
  | Some 1%Z => str "1st place"
  | Some 2%Z => str "2nd place"
  | Some 3%Z => str "3rd place"
  | _ => str "Participated"
  end.

(** [parts.join(" • ")] with a bullet U+2022 *)
Definition join_bullet (parts : list jsstring) : jsstring :=
  match parts with
  | [] => []
  | p :: rest => p ++ (rest ≫= λ q, [0x20; 0x2022; 0x20]%N ++ q)
  end.

(** A string that is present and not empty. *)
Definition truthy_string (s : option jsstring) : option jsstring :=
  match s with
  | Some (c :: rest) => Some (c :: rest)
  | _ => None
  end.

(** The body of [items.forEach] in [renderPlays]. *)
Definition play_node `{Unicode} `{Host} (highlightedName : value) (play : Play) : Node :=
  let parts :=
    [if play_scored play then str "Ranked" else str "Unranked"]
    ++ match truthy_string (play_event play) with
       | Some event => [str "@ " ++ event]
       | None => []
       end in
  let results := default [] (play_results play) in
  TimelinePlay (play_game play) (asLocaleDate (play_date play)) (join_bullet parts)
    match results with
    | [] => [PlainLine (str "timeline-award") (str "Players pending")]
    | _ =>
        (λ result,
           AwardLine (result_player result)
             (formatPlacementLabel (result_placement result))
             match result_points result with
             | Some p => if bool_decide (p = 0%Z) then [0x2014%N]
                         else str "+" ++ Z_to_string p
             | None => [0x2014%N]
             end
             (is_highlighted highlightedName (result_player result))
             false) <$> results
    end
    (truthy_string (play_notes play)).

Definition renderPlays `{Unicode} `{Host} (plays : list Play) (highlightedName : value)
    (options : Options) : M () :=
  let containerSelector := default (str "#recent-plays") (containerSelector options) in
  let emptyMessage :=
    default (str "No plays logged yet. Add one with the plays command.")
      (emptyMessage options) in
  list ⇐ query_list containerSelector ;;
  template ⇐ read play_template ;;
  awardTemplate ⇐ read timeline_award_template ;;
  match list, template, awardTemplate with
  | Some _, true, true =>
      clear_list containerSelector ;;;
      let items := limited plays (limit options) in
      match items with
      | [] => appendChild containerSelector (Created (str "li") (str "timeline-item") emptyMessage)
      | _ => forEach (λ play, appendChild containerSelector (play_node highlightedName play)) items
      end
  | _, _, _ => ret ()
  end.

(** [entry.totalPlays > 0 || entry.games?.length] *)
Definition is_meaningful (entry : Activity) : bool :=
  (0 <? totalPlays entry)%Z
  || match games entry with
     | Some (_ :: _) => true
     | _ => false
     end.

(** The body of [meaningful.forEach] in [renderPlayerActivity]. *)
Definition activity_card `{Unicode} `{Host} (highlightedName : value) (entry : Activity) : Node :=
  let total :=
    Z_to_string (totalPlays entry) ++ str " play"
    ++ (if bool_decide (totalPlays entry = 1%Z) then [] else str "s") in
  let game_stats :=
    match default [] (games entry) with
    | [] => [(str "Games", str "None yet")]
    | games => (λ game, (game_name game, Z_to_string (game_count game) ++ [0xD7%N])) <$> take 3 games
    end in
  let podium n := default 0%Z (podiums entry ≫= n) in
  let podiumTotal := (podium podium_1 + podium podium_2 + podium podium_3)%Z in
  let podium_stats :=
    if (0 <? podiumTotal)%Z then
      [(str "Podiums",
        Z_to_string (podium podium_1) ++ str "/" ++ Z_to_string (podium podium_2)
        ++ str "/" ++ Z_to_string (podium podium_3))]
    else [] in
  ActivityCard (activity_player entry) total (game_stats ++ podium_stats)
    (is_highlighted highlightedName (activity_player entry)).

Definition activity_selector : jsstring := str "#player-activity".

Definition renderPlayerActivity `{Unicode} `{Host} (activity : option (list Activity))
    (highlightedName : value) : M () :=
  let activity := default [] activity in
  container ⇐ query_list activity_selector ;;
  template ⇐ read activity_card_template ;;
  match container, template with
  | Some _, true =>
      clear_list activity_selector ;;;
      let meaningful := filter (λ entry, is_meaningful entry = true) activity in
      match meaningful with
      | [] =>
          appendChild activity_selector
            (Created (str "p") (str "timeline-notes")
               (str "Log plays to build up player activity stats."))
      | _ =>
          forEach (λ entry, appendChild activity_selector (activity_card highlightedName entry))
            meaningful
      end
  | _, _ => ret ()
  end.

(** [el.textContent = text] on the text element [selector]; a TypeError when
    the selector matches nothing. *)
Definition set_text (selector : jsstring) (text : jsstring) : M () :=
  el ⇐ read (λ d, texts d !! selector) ;;
  match el with
  | Some l =>
      modify (set_texts (<[selector := {| label_text := text; label_display := label_display l |}]>))
  | None => throw TypeError
  end.

(** [el.style.display = display] *)
Definition set_display (selector : jsstring) (display : jsstring) : M () :=
  el ⇐ read (λ d, texts d !! selector) ;;
  match el with
  | Some l =>
      modify (set_texts (<[selector := {| label_text := label_text l;
                                          label_display := Some display |}]>))
  | None => throw TypeError
  end.

Definition hydrateMeta `{Host} (data : Feed) : M () :=
  match truthy_string (title data) with
  | Some title => modify (set_title title) ;;; set_text (str "#page-title") title
  | None => ret ()
  end ;;;
  match truthy_string (tagline data) with
  | Some tagline => set_text (str "#page-tagline") tagline
  | None => ret ()
  end ;;;
  match truthy_string (seasonLabel data) with
  | Some seasonLabel =>
      set_text (str "#season-label") seasonLabel ;;;
      set_display (str "#season-label") (str "inline-flex")
  | None => set_display (str "#season-label") (str "none")
  end ;;;
  match truthy_string (lastUpdated data) with
  | Some lastUpdated =>
      set_text (str "#last-updated") (str "Updated " ++ asLocaleDate (Some lastUpdated))
  | None => set_text (str "#last-updated") (str "Updated automatically")
  end.

(** One block of [handleError]: when the section is on the page, its content
    becomes the one created element. *)
Definition replace_section (selector : jsstring) (placeholder : Node) : M () :=
  section ⇐ query_list selector ;;
  match section with
  | Some _ => clear_list selector ;;; appendChild selector placeholder
  | None => ret ()
  end.

Definition leaderboard_error : Node :=
  Created (str "li") (str "leaderboard-item error")
    (str "We could not load the leaderboard right now. Refresh to try again or contact Lorenzo.").
Definition plays_error : Node :=
  Created (str "li") (str "timeline-item") (str "Could not load plays.").
Definition events_error : Node :=
  Created (str "li") (str "timeline-item") (str "Could not load point log.").
Definition activity_error : Node :=
  Created (str "p") (str "timeline-notes") (str "Player activity unavailable.").

Definition handleError (error : exn) : M () :=
  modify (set_console (λ log, log ++ [LogError error])) ;;;
  replace_section leaderboard_selector leaderboard_error ;;;
  replace_section (str "#recent-plays") plays_error ;;;
  replace_section (str "#events-timeline") events_error ;;;
  replace_section (str "#all-events-list") events_error ;;;
  replace_section (str "#all-plays-list") plays_error ;;;
  replace_section activity_selector activity_error.

(** [link.href = base + suffix] and, when given, [link.style.display]; nothing
    when the selector matches no link.  [base] may read the link's own
    [href] attribute. *)
Definition update_link (selector : jsstring) (base : Link → jsstring) (suffix : jsstring)
    (display : option jsstring) : M () :=
  modify (set_links (λ m,
    match m !! selector with
    | Some link =>
        <[selector := {| link_href := Some (base link ++ suffix);
                         link_display := match display with
                                         | Some v => Some v
                                         | None => link_display link
                                         end |}]> m
    | None => m
    end)).

(** [link.getAttribute("href") || "./index.html"] *)
Definition href_or_index (link : Link) : jsstring :=
  default (str "./index.html") (truthy_string (link_href link)).

Definition shown_if (b : bool) : option jsstring :=
  Some (if b then str "inline-flex" else str "none").

(** [a || b] on arrays that may be absent: an array is truthy, empty or not. *)
Definition or_else {A} (a b : option A) : option A :=
  match a with
  | Some x => Some x
  | None => b
  end.

(** The body of the second [try] block of [init]. *)
Definition render_feed `{Unicode} `{Host} (fetched : result (Response Feed))
    (highlightedName : value) : M () :=
  data ⇐ lift (fetchLeaderboard fetched) ;;
  hydrateMeta data ;;;
  let allPlays := default [] (or_else (allPlays data) (recentPlays data)) in
  let allEvents := default [] (or_else (allEvents data) (recentEvents data)) in
  let recentEvents := default [] (recentEvents data) in
  searchSuffix ⇐ read location_search ;;
  let pointsLabels :=
    {| singular := default (str "pt") (truthy_string (pointsLabelSingular data));
       plural := default (str "pts") (truthy_string (pointsLabelPlural data)) |} in
  renderLeaderboard (leaderboard data) highlightedName pointsLabels ;;;
  renderPlays allPlays highlightedName
    {| containerSelector := None; limit := Some 3%Z; emptyMessage := None;
       awardPreviewLimit := None; allowExpand := None |} ;;;
  renderScoringRules (scoringRules data) ;;;
  renderEvents recentEvents highlightedName
    {| containerSelector := None; limit := Some 5%Z; emptyMessage := None;
       awardPreviewLimit := Some 5%Z; allowExpand := Some true |} ;;;
  renderPlayerActivity (playerActivity data) highlightedName ;;;
  let unranked := bool_decide (mode data = Some (str "unranked")) in
  let basePlaysPage := if unranked then str "./plays-unranked.html" else str "./plays.html" in
  let baseEventsPage := if unranked then str "./points-unranked.html" else str "./points.html" in
  update_link (str "#view-all-plays") (λ _, basePlaysPage) searchSuffix
    (shown_if (bool_decide (3 < length allPlays))) ;;;
  update_link (str "#view-all-events") (λ _, baseEventsPage) searchSuffix
    (shown_if (bool_decide (length recentEvents < length allEvents))) ;;;
  update_link (str "#switch-view") href_or_index searchSuffix None ;;;
  allPlaysList ⇐ query_list (str "#all-plays-list") ;;
  match allPlaysList with
  | Some _ =>
      renderPlays allPlays highlightedName
        {| containerSelector := Some (str "#all-plays-list"); limit := None;
           emptyMessage := Some (str "No plays logged yet. Add one with the plays command.");
           awardPreviewLimit := None; allowExpand := None |} ;;;
      update_link (str "#back-to-leaderboard") href_or_index searchSuffix None
  | None => ret ()
  end ;;;
  allEventsList ⇐ query_list (str "#all-events-list") ;;
  match allEventsList with
  | Some _ =>
      renderEvents allEvents highlightedName
        {| containerSelector := Some (str "#all-events-list"); limit := None;
           emptyMessage :=
             Some (str "No points logged yet. Awards will show here automatically.");
           awardPreviewLimit := None; allowExpand := Some false |} ;;;
      update_link (str "#back-to-leaderboard") href_or_index searchSuffix None
  | None => ret ()
  end.

(** What the two fetches of one page load resolve to. *)
Record Network `{Host} := {
  tokens_fetch : result (Response JSON);
  leaderboard_fetch : result (Response Feed);
}.

(** The first [try] statement of [init]: the value of [guestTokens] after
    it. *)
Definition load_tokens `{Host} (net : Network) : M (gmap jsstring jsstring) :=
  mtry (tokensData ⇐ lift (fetchGuestTokens (tokens_fetch net)) ;;
        lift (normalizeGuestTokens tokensData))
       (λ error, modify (set_console (λ log, log ++ [LogWarn error])) ;;; ret ∅).

Definition init `{Unicode} `{Host} (net : Network) : M () :=
  guestTokens ⇐ load_tokens net ;;
  highlightedName ⇐ renderGreeting guestTokens ;;
  mtry (render_feed (leaderboard_fetch net) highlightedName) handleError.

(** The sections [handleError] writes to, each with the message it gets. *)
Definition error_sections : list (jsstring * Node) :=
  [(leaderboard_selector, leaderboard_error);
   (str "#recent-plays", plays_error);
   (str "#events-timeline", events_error);
   (str "#all-events-list", events_error);
   (str "#all-plays-list", plays_error);
   (activity_selector, activity_error)].

(** ** The earlier revision (public/app.js, lines 1 to 238)

    It reads the containers and the templates without checking that they are
    there, knows neither avatars nor highlights, shows at most eight events
    and reports a failed load in the leaderboard only.  [fetchLeaderboard],
    [fetchGuestTokens], [asLocaleDate], [normalizeGuestTokens],
    [getGuestTokenFromUrl] and [hydrateMeta] are those of the current
    revision. *)

Definition renderLeaderboard_v2 (players : option (list Player)) : M () :=
  let players := default [] players in
  container ⇐ query_list leaderboard_selector ;;
  template ⇐ read player_template ;;
  match container with
  | None => throw TypeError
  | Some _ =>
      clear_list leaderboard_selector ;;;
      match players with
      | [] =>
          appendChild leaderboard_selector
            (Created (str "li") (str "leaderboard-item empty")
               (str "No scores yet. Check back after the next game night!"))
      | _ =>
          forEach (λ player,
              match template with
              | None => throw TypeError
              | Some template =>
                  appendChild leaderboard_selector
                    (LeaderboardItem (player_rank player)
                       (str "#" ++ Z_to_string (player_rank player))
                       (player_name player)
                       (Z_to_string (player_points player) ++ str " pt"
                        ++ (if bool_decide (player_points player = 1%Z) then [] else str "s"))
                       template false)
              end)
            players
      end
  end.

Definition renderGreeting_v2 `{Host} (tokens : gmap jsstring jsstring) : M () :=
  greetingEl ⇐ read guest_greeting ;;
  match greetingEl with
  | None => ret ()
  | Some _ =>
      search ⇐ read location_search ;;
      token ⇐ lift (getGuestTokenFromUrl search) ;;
      match token with
      | None => modify (set_greeting {| greeting_hidden := true; greeting_text := [] |})
      | Some token =>
          let guestName := property_get tokens token in
          if negb (truthy guestName)
          then modify (set_greeting {| greeting_hidden := true; greeting_text := [] |})
          else
            modify (set_greeting
                      {| greeting_hidden := false;
                         greeting_text :=
                           str "Welcome to the party, " ++ ToString guestName ++ str "!" |})
      end
  end.

Definition renderScoringRules_v2 (rules : option (list Rule)) : M () :=
  let rules := default [] rules in
  list ⇐ query_list scoring_rules_selector ;;
  template ⇐ read scoring_rule_template ;;
  match list with
  | None => throw TypeError
  | Some _ =>
      clear_list scoring_rules_selector ;;;
      match rules with
      | [] =>
          appendChild scoring_rules_selector
            (Created (str "li") (str "scoring-rule")
               (str "No scoring rules set. Add some in config.json."))
      | _ =>
          forEach (λ rule,
              if template then
                appendChild scoring_rules_selector
                  (ScoringRule (rule_label rule) (Z_to_string (rule_points rule) ++ str " pts"))
              else throw TypeError)
            rules
      end
  end.

(** It takes the events only.  The award template is read when an event
    has awards. *)
Definition renderEvents_v2 `{Host} (events : list Event) : M () :=
  let selector := str "#events-timeline" in
  list ⇐ query_list selector ;;
  template ⇐ read event_template ;;
  awardTemplate ⇐ read timeline_award_template ;;
  match list with
  | None => throw TypeError
  | Some _ =>
      clear_list selector ;;;
      match events with
      | [] =>
          appendChild selector
            (Created (str "li") (str "timeline-item")
               (str "No events logged yet. Awards will show here automatically."))
      | _ =>
          forEach (λ event,
              match template with
              | None => throw TypeError
              | Some expandButton =>
                  let name := event_name event in
                  let date := asLocaleDate (event_date event) in
                  match event_awards event with
                  | None | Some [] =>
                      appendChild selector
                        (TimelineEvent name date
                           [PlainLine (str "timeline-award")
                              (str "Awards logged, details pending.")]
                           expandButton)
                  | Some awards =>
                      if awardTemplate then
                        appendChild selector
                          (TimelineEvent name date
                             ((λ award,
                                 AwardLine (award_player award) (award_reason award)
                                   (str "+" ++ Z_to_string (award_points award)) false false)
                                <$> awards)
                             expandButton)
                      else throw TypeError
                  end
              end)
            (slice_to events 8)
      end
  end.

Definition handleError_v2 (error : exn) : M () :=
  modify (set_console (λ log, log ++ [LogError error])) ;;;
  leaderboard ⇐ query_list leaderboard_selector ;;
  match leaderboard with
  | None => throw TypeError
  | Some _ =>
      clear_list leaderboard_selector ;;; appendChild leaderboard_selector leaderboard_error
  end.

Definition init_v2 `{Host} (net : Network) : M () :=
  guestTokens ⇐ load_tokens net ;;
  renderGreeting_v2 guestTokens ;;;
  mtry (data ⇐ lift (fetchLeaderboard (leaderboard_fetch net)) ;;
        hydrateMeta data ;;;
        renderLeaderboard_v2 (leaderboard data) ;;;
        renderScoringRules_v2 (scoringRules data) ;;;
        renderEvents_v2 (default [] (recentEvents data)))
       handleError_v2.

(** ** Properties of the Unicode Character Database

    The facts about the tables that the proofs of Part II rest on.  Each is a
    property of the published data files (UnicodeData, SpecialCasing). *)

Class UnicodeLaws `{Unicode} : Prop := {
  (** a decomposition is full: its code points decompose no further *)
  decomp_full : ∀ c d, d ∈ decomp c → decomp d = [d];
  (** and it brings in no surrogate *)
  decomp_well_formed : ∀ c d, d ∈ decomp c → is_surrogate c = false → is_surrogate d = false;
  (** a code point without decomposition lower-cases to one code point, of
      the same combining class, that has no decomposition either, is its own
      lower case, and is a combining diacritical mark or a surrogate only if
      the original is *)
  lower_of_stable : ∀ c, decomp c = [c] →
    ∃ d, lower_char c = [d] ∧ decomp d = [d] ∧ ccc d = ccc c ∧ lower_char d = [d]
         ∧ d ≠ capital_sigma
         ∧ (is_combining_diacritical c = false → is_combining_diacritical d = false)
         ∧ (is_surrogate c = false → is_surrogate d = false);
  (** the lower case of the capital sigma, context apart, is the small
      sigma *)
  capital_sigma_lower : lower_char capital_sigma = [small_sigma];
  (** the two small sigmas are starters like the capital one, without
      decomposition, and lower case *)
  sigma_forms : ∀ x, x = small_sigma ∨ x = small_final_sigma →
    decomp x = [x] ∧ ccc x = ccc capital_sigma ∧ lower_char x = [x];
  (** the combining grapheme joiner is the one starter among the combining
      diacritical marks *)
  zero_class_mark : ∀ c, is_combining_diacritical c = true → ccc c = 0%N →
    c = combining_grapheme_joiner;
  (** and it comes out of no other code point's decomposition *)
  joiner_decomp : ∀ c, combining_grapheme_joiner ∈ decomp c →
    c = combining_grapheme_joiner;
}.

(** ** Names that differ only in letter case and diacritical marks

    The letters of a name are the code points of its compatibility
    decomposition without the combining diacritical marks: a precomposed
    letter counts as its base letter. *)
Definition base_letters `{Unicode} (s : jsstring) : jsstring :=
  filter (λ c, is_combining_diacritical c = false) (s ≫= decomp).

(** A small letter and its capital: the capital is the upper case of the
    small letter, which is the lower case of the capital and its own lower
    case.  The dotless i is not the small letter of I, which lowers to i; the
    sharp s has no capital of one letter; the final sigma is not the small
    letter of the capital sigma, which lowers to the small sigma. *)
Definition case_pair `{Unicode} (small capital : N) : Prop :=
  upper_char small = [capital] ∧ lower_char capital = [small] ∧ lower_char small = [small].

Definition same_letter `{Unicode} (c c' : N) : Prop :=
  c = c' ∨ case_pair c c' ∨ case_pair c' c.

(** Two names differ only in letter case and in combining diacritical
    marks: they have as many letters, and at each position the same letter or
    a small letter and its capital. *)
Definition same_letters `{Unicode} (s t : jsstring) : Prop :=
  Forall2 same_letter (base_letters s) (base_letters t).

#[export] Instance case_pair_dec `{Unicode} (c c' : N) : Decision (case_pair c c').
Proof. unfold case_pair. apply _. Defined.

#[export] Instance same_letter_dec `{Unicode} (c c' : N) : Decision (same_letter c c').
Proof. unfold same_letter. apply _. Defined.

#[export] Instance same_letters_dec `{Unicode} (s t : jsstring) : Decision (same_letters s t).
Proof. unfold same_letters. apply _. Defined.

(** No capital sigma of [s] stands in final position (the condition
    Final_Sigma); [before] is the text in front of [s], nearest code point
    first. *)
Fixpoint sigmas_not_final `{Unicode} (before s : jsstring) : bool :=
  match s with
  | [] => true
  | c :: rest =>
      (if (c =? capital_sigma)%N then negb (final_sigma before rest) else true)
      && sigmas_not_final (c :: before) rest
  end.

(** A name without unpaired surrogate and without combining grapheme joiner,
    among whose letters, in canonical order, no capital sigma stands in final
    position. *)
Definition plain_name `{Unicode} (s : jsstring) : Prop :=
  well_formed s = true ∧ (combining_grapheme_joiner ∉ s)
  ∧ sigmas_not_final [] (canonical_order (base_letters s)) = true.

(** ** An excerpt of the Unicode Character Database

    The entries of UnicodeData and SpecialCasing for the Basic Latin letters,
    some Latin-1 letters, the block Combining Diacritical Marks, the Greek
    letters and a few more code points; a code point outside the excerpt is
    treated as unassigned: a starter without mappings. *)

Record UcdEntry := {
  entry_ccc : N;
  entry_decomp : option jsstring;
  entry_lower : option jsstring;
  entry_upper : option jsstring;
}.

Definition range (lo count : N) : list N :=
  (λ i, (lo + N.of_nat i)%N) <$> seq 0 (N.to_nat count).

(** Runs of combining classes in U+0300..U+036F: first code point, length,
    class. *)
Definition mark_classes : list (N * N * N) :=
  [(0x300, 21, 230); (0x315, 1, 232); (0x316, 4, 220); (0x31A, 1, 232);
   (0x31B, 1, 216); (0x31C, 5, 220); (0x321, 2, 202); (0x323, 4, 220);
   (0x327, 2, 202); (0x329, 11, 220); (0x334, 5, 1); (0x339, 4, 220);
   (0x33D, 8, 230); (0x345, 1, 240); (0x346, 1, 230); (0x347, 3, 220);
   (0x34A, 3, 230); (0x34D, 2, 220); (0x34F, 1, 0); (0x350, 3, 230);
   (0x353, 4, 220); (0x357, 1, 230); (0x358, 1, 232); (0x359, 2, 220);
   (0x35B, 1, 230); (0x35C, 1, 233); (0x35D, 2, 234); (0x35F, 1, 233);
   (0x360, 2, 234); (0x362, 1, 233); (0x363, 13, 230);
   (0x1DC0, 1, 230); (0x1DC2, 1, 220)]%N.

(** The case mappings of the marks are left out: the only one, of U+0345, is
    of no use here. *)
Definition mark_entries : list (N * UcdEntry) :=
  mark_classes ≫= λ '(lo, count, class),
    (λ c, (c, {| entry_ccc := class; entry_decomp := None; entry_lower := None;
                 entry_upper := None |}))
      <$> range lo count.

(** Capitals whose lower case lies 32 code points on, and their small
    letters: A..Z and the Greek capitals. *)
Definition capital_entries : list (N * UcdEntry) :=
  (λ c, (c, {| entry_ccc := 0; entry_decomp := None; entry_lower := Some [(c + 32)%N];
               entry_upper := None |}))
    <$> (range 0x41 26 ++ range 0x391 17 ++ range 0x3A3 7).

Definition small_entries : list (N * UcdEntry) :=
  (λ c, (c, {| entry_ccc := 0; entry_decomp := None; entry_lower := None;
               entry_upper := Some [(c - 32)%N] |}))
    <$> (range 0x61 26 ++ range 0x3B1 17 ++ range 0x3C3 7).

(** Code point, class, decomposition, lower case, upper case. *)
Definition other_entries : list (N * UcdEntry) :=
  (λ '(c, class, d, l, u),
     (c, {| entry_ccc := class; entry_decomp := d; entry_lower := l; entry_upper := u |}))
    <$> [(0xA0, 0, Some [0x20], None, None);
         (0xC5, 0, Some [0x41; 0x30A], Some [0xE5], None);
         (0xC7, 0, Some [0x43; 0x327], Some [0xE7], None);
         (0xC9, 0, Some [0x45; 0x301], Some [0xE9], None);
         (0xD1, 0, Some [0x4E; 0x303], Some [0xF1], None);
         (0xD8, 0, None, Some [0xF8], None);
         (0xDC, 0, Some [0x55; 0x308], Some [0xFC], None);
         (0xDF, 0, None, None, Some [0x53; 0x53]);
         (0xE5, 0, Some [0x61; 0x30A], None, Some [0xC5]);
         (0xE7, 0, Some [0x63; 0x327], None, Some [0xC7]);
         (0xE9, 0, Some [0x65; 0x301], None, Some [0xC9]);
         (0xF1, 0, Some [0x6E; 0x303], None, Some [0xD1]);
         (0xF8, 0, None, None, Some [0xD8]);
         (0xFC, 0, Some [0x75; 0x308], None, Some [0xDC]);
         (0x130, 0, Some [0x49; 0x307], Some [0x69; 0x307], None);
         (0x131, 0, None, None, Some [0x49]);
         (0x340, 230, Some [0x300], None, None);
         (0x341, 230, Some [0x301], None, None);
         (0x343, 230, Some [0x313], None, None);
         (0x344, 230, Some [0x308; 0x301], None, None);
         (0x3C2, 0, None, None, Some [0x3A3]);
         (0x3F2, 0, Some [0x3C2], None, Some [0x3F9]);
         (0x3F9, 0, Some [0x3A3], Some [0x3F2], None);
         (0x1E9E, 0, None, Some [0xDF], None);
         (0x212A, 0, Some [0x4B], Some [0x6B], None);
         (0x1D400, 0, Some [0x41], None, None)]%N.

Definition excerpt : gmap N UcdEntry :=
  Eval vm_compute in
    list_to_map (other_entries ++ capital_entries ++ small_entries ++ mark_entries).

Definition excerpt_cased (c : N) : bool :=
  ((0x41 <=? c)%N && (c <=? 0x5A)%N) || ((0x61 <=? c)%N && (c <=? 0x7A)%N)
  || ((0xC0 <=? c)%N && (c <=? 0xFF)%N && negb (c =? 0xD7)%N && negb (c =? 0xF7)%N)
  || ((0x391 <=? c)%N && (c <=? 0x3C9)%N && negb (c =? 0x3A2)%N)
  || (c =? 0x345)%N.

Definition excerpt_case_ignorable (c : N) : bool :=
  is_combining_diacritical c
  || bool_decide (c ∈ [0x27; 0x2E; 0x3A; 0x5E; 0x60; 0xA8; 0xAD; 0xAF; 0xB4; 0xB7; 0xB8;
                       0x1DC0; 0x1DC2]%N).

(** Does a cased letter come first, case-ignorable code points skipped? *)
Fixpoint cased_letter_next (s : jsstring) : bool :=
  match s with
  | [] => false
  | c :: rest => if excerpt_case_ignorable c then cased_letter_next rest else excerpt_cased c
  end.

#[export] Instance excerpt_unicode : Unicode := {|
  ccc c := from_option entry_ccc 0%N (excerpt !! c);
  decomp c := default [c] (excerpt !! c ≫= entry_decomp);
  lower_char c := default [c] (excerpt !! c ≫= entry_lower);
  upper_char c := default [c] (excerpt !! c ≫= entry_upper);
  final_sigma before after := cased_letter_next before && negb (cased_letter_next after);
|}.

(** A host for evaluating the script: integers for the numbers of a JSON
    document, the usual rendering of a built-in function, no dates. *)
#[export] Instance plain_host : Host := {|
  number := Z;
  number_truthy n := bool_decide (n ≠ 0%Z);
  number_to_string := Z_to_string;
  native_source name := str "function " ++ name ++ str "() { [native code] }";
  toLocaleDateString _ := None;
|}.

(** ** The specification's reading of the query parameters

    The token is the value of the first parameter present among [guest],
    [token], [code] and [ticket]. *)

Definition token_parameters : list jsstring :=
  [str "guest"; str "token"; str "code"; str "ticket"].

Fixpoint first_present (params : list (jsstring * jsstring)) (names : list jsstring)
    : option jsstring :=
  match names with
  | [] => None
  | name :: rest =>
      match params_get params name with
      | Some v => Some v
      | None => first_present params rest
      end
  end.

(** A parameter value of which nothing is left after decoding and trimming. *)
Definition blank (raw : jsstring) : Prop :=
  ∃ decoded, decodeURIComponent (replace_plus raw) = Ok decoded ∧ trim decoded = [].

(** ** The specification's reading of the activity display

    An entry is shown when it has plays or a non-empty list of games. *)

Definition has_activity (entry : Activity) : Prop :=
  (0 < totalPlays entry)%Z ∨ ∃ g gs, games entry = Some (g :: gs).

Definition activity_placeholder : Node :=
  Created (str "p") (str "timeline-notes")
    (str "Log plays to build up player activity stats.").

(** ** A page for evaluating the script

    Every section and template of the site is there, the lists are empty, and
    the greeting banner is hidden. *)

Definition page_sections : list jsstring :=
  [leaderboard_selector; scoring_rules_selector; str "#recent-plays";
   str "#events-timeline"; str "#all-events-list"; str "#all-plays-list";
   activity_selector].

Definition page_at (search : jsstring) : Document :=
  {| location_search := search;
     console := [];
     document_title := str "Game Night";
     guest_greeting := Some {| greeting_hidden := true; greeting_text := [] |};
     lists := list_to_map ((λ s, (s, [])) <$> page_sections);
     texts := list_to_map
                ((λ s, (s, {| label_text := []; label_display := None |}))
                   <$> [str "#page-title"; str "#page-tagline"; str "#season-label";
                        str "#last-updated"]);
     links := ∅;
     player_template :=
       Some {| avatar_img :=
                 Some {| img_hidden := false; img_src := None; img_alt := [];
                         img_avatarErrorHandler := None; img_listening := false |};
               avatar_wrapper_hidden := Some false |};
     scoring_rule_template := true;
     event_template :=
       Some (Some {| expand_hidden := true; expand_text := [];
                     expand_expanded := None; expand_collapsed := 0 |});
     timeline_award_template := true;
     play_template := true;
     activity_card_template := true |}.


(** ** Sample data *)

Definition sample_activity : list Activity :=
  [{| activity_player := str "Lorenzo"; totalPlays := 2;
      games := Some [{| game_name := str "Heat"; game_count := 2 |}]; podiums := None |};
   {| activity_player := str "Andrea"; totalPlays := 0; games := Some []; podiums := None |};
   {| activity_player := str "Aurora"; totalPlays := 0;
      games := Some [{| game_name := str "Carcassonne"; game_count := 1 |}];
      podiums := None |}].

Definition sample_events : list Event :=
  (λ name, {| event_name := name; event_date := None; event_awards := None |})
    <$> [str "Game Night #3"; str "Game Night #2"; str "Game Night #1"].


(** ** The specification's reading of the token file

    In the mapping form a key contributes its value when the value is a
    string that is not empty once trimmed; in the array form an element
    contributes when it is an object with truthy [token] and [name], it
    contributes their strings ([String(token)], which can throw), and the
    last element wins among those with one token. *)

Definition token_value `{Host} (source : JSON) (key : jsstring) : option jsstring :=
  match own_property source key with
  | Some (JStr value) => if bool_decide (trim value ≠ []) then Some (trim value) else None
  | _ => None
  end.

Definition pair_of `{Host} (entry : JSON) : option (result (jsstring * jsstring)) :=
  match entry with
  | JObj _ =>
      match member entry (str "token"), member entry (str "name") with
      | Some token, Some name =>
          if json_truthy token && json_truthy name
          then Some (key ←! json_to_string token ;;
                     name ←! json_to_string name ;;
                     Ok (key, name))
          else None
      | _, _ => None
      end
  | _ => None
  end.

(** The pairs the elements contribute, in the order of the elements. *)
Definition pairs_of `{Host} (items : list JSON) : list (jsstring * jsstring) :=
  omap (λ entry, match pair_of entry with Some (Ok p) => Some p | _ => None end) items.

Definition last_pair `{Host} (items : list JSON) (key : jsstring) : option jsstring :=
  snd <$> last (filter (λ p, p.1 = key) (pairs_of items)).

(** The object the keys are read from: the nested [tokens] object when there
    is one. *)
Definition token_source `{Host} (raw : JSON) : JSON :=
  match own_property raw (str "tokens") with
  | Some (JObj ms) => JObj ms
  | Some (JArr items) => JArr items
  | _ => raw
  end.


(** ** The specification's reading of the avatar probes

    The bases are the candidates that are not empty, each kept when no
    earlier one is equal to it up to case; the browser reports one failed
    load after the other. *)

Fixpoint first_occurrences {A K} `{EqDecision K} (key : A → K) (l : list A) : list A :=
  match l with
  | [] => []
  | x :: rest => x :: filter (λ y, key y ≠ key x) (first_occurrences key rest)
  end.

(** The pieces of a string between its runs of white space, as
    [s.split(/\s+/)] gives them: the first or the last piece is empty when
    the string starts or ends with white space.  [skip] is set inside a
    run. *)
Fixpoint pieces (skip : bool) (s : jsstring) : list jsstring :=
  match s with
  | [] => [[]]
  | c :: rest =>
      if is_white_space c then
        (if skip then pieces true rest else [] :: pieces true rest)
      else
        match pieces false rest with
        | piece :: others => (c :: piece) :: others
        | [] => [[c]]
        end
  end.

(** [parts.join("_")] *)
Fixpoint join_underscore (parts : list jsstring) : jsstring :=
  match parts with
  | [] => []
  | [p] => p
  | p :: rest => p ++ 0x5F%N :: join_underscore rest
  end.

(** A string with every run of white space written as one underscore. *)
Definition underscored (s : jsstring) : jsstring := join_underscore (pieces false s).

Fixpoint failed_loads (n : nat) (els : AvatarElements) : AvatarElements :=
  match n with
  | O => els
  | S n' => failed_loads n' (dispatch_error els)
  end.

(** Both fetches are rejected. *)
Definition offline `{Host} : Network :=
  {| tokens_fetch := Throw NetworkError; leaderboard_fetch := Throw NetworkError |}.


Definition sample_name : jsstring := [0x4A; 0x6F; 0x73; 0xE9; 0x20; 0x4C]%N.

Definition sample_img : Img :=
  {| img_hidden := false; img_src := None; img_alt := [];
     img_avatarErrorHandler := None; img_listening := false |}.

Definition sample_avatar : AvatarElements :=
  {| avatar_img := Some sample_img; avatar_wrapper_hidden := Some false |}.


(** ** Canonically ordered strings

    A string is in canonical order when no code point with a non-zero
    combining class directly follows one of a greater class. *)

Definition may_follow `{Unicode} (a : N) (rest : jsstring) : Prop :=
  match rest with
  | b :: _ => ccc b = 0%N ∨ (ccc a ≤ ccc b)%N
  | [] => True
  end.

Fixpoint is_ordered `{Unicode} (s : jsstring) : Prop :=
  match s with
  | a :: rest => may_follow a rest ∧ is_ordered rest
  | [] => True
  end.

(** A string that starts with something else than white space. *)
Definition starts_clean (s : jsstring) : Prop :=
  match s with
  | c :: _ => is_white_space c = false
  | [] => True
  end.

(** How a code point without decomposition and its lower case correspond. *)
Definition lowered `{Unicode} (c d : N) : Prop :=
  ccc c = ccc d ∧ decomp d = [d] ∧ lower_char d = [d] ∧ d ≠ capital_sigma
  ∧ (is_combining_diacritical c = false → is_combining_diacritical d = false)
  ∧ (is_surrogate c = false → is_surrogate d = false).

(** A string without marks: the marks of [s] removed, before the code units
    are read as code points again. *)
Definition without_marks (s : jsstring) : jsstring :=
  filter (λ c, is_combining_diacritical c = false) s.

(** A string [normalizeName] leaves as it is: lower-case code points without
    decomposition, no combining diacritical mark, no surrogate, in canonical
    order, trimmed. *)
Definition normal_form `{Unicode} (s : jsstring) : Prop :=
  Forall (λ c, decomp c = [c] ∧ lower_char c = [c] ∧ c ≠ capital_sigma
               ∧ is_combining_diacritical c = false ∧ is_surrogate c = false) s
  ∧ is_ordered s ∧ trim s = s.

(** How the letters of two names that differ in case correspond: the lower
    case, with the capital sigma taken for a small one, and the combining
    class are the same. *)
Definition lower_plain `{Unicode} (c : N) : jsstring :=
  if (c =? capital_sigma)%N then [small_sigma] else lower_char c.

Definition same_lower `{Unicode} (d d' : N) : Prop :=
  lower_plain d = lower_plain d' ∧ ccc d = ccc d'.


(** The code points of the excerpt. *)
Definition excerpt_keys : list N :=
  Eval vm_compute in (other_entries ++ capital_entries ++ small_entries ++ mark_entries).*1.

(** The law [lower_of_stable] for a given code point, as a test. *)
Definition lower_ok `{Unicode} (c : N) : bool :=
  implb (bool_decide (decomp c = [c]))
    match lower_char c with
    | [d] =>
        bool_decide (decomp d = [d]) && bool_decide (ccc d = ccc c)
        && bool_decide (lower_char d = [d]) && bool_decide (d ≠ capital_sigma)
        && implb (negb (is_combining_diacritical c)) (negb (is_combining_diacritical d))
        && implb (negb (is_surrogate c)) (negb (is_surrogate d))
    | _ => false
    end.


(** ** Sample names *)

(** "José", with a precomposed e-acute, and "jose". *)
Definition Jose : jsstring := [0x4A; 0x6F; 0x73; 0xE9]%N.
Definition jose : jsstring := str "jose".

(** The Greek words written with capitals and with small non-final
    sigmas. *)
Definition SAS_capitals : jsstring := [0x3A3; 0x391; 0x3A3]%N.
Definition sas_small : jsstring := [0x3C3; 0x3B1; 0x3C3]%N.

(** The letter a with a dotted grave accent (U+1DC0, class 230), a combining
    grapheme joiner, and a snake below (U+1DC2, class 220). *)
Definition joined : jsstring := [0x61; 0x1DC0; 0x34F; 0x1DC2]%N.

(** The Turkish word with a dotless i, and in capitals. *)
Definition kir_small : jsstring := [0x6B; 0x131; 0x72]%N.
Definition KIR_capitals : jsstring := str "KIR".

(** The German word with a sharp s, and in capitals. *)
Definition strasse_small : jsstring := [0x73; 0x74; 0x72; 0x61; 0xDF; 0x65]%N.
Definition STRASSE_capitals : jsstring := str "STRASSE".

(** An unpaired high surrogate, an acute accent and an unpaired low
    surrogate: without the accent the two surrogates are the code units of
    U+1D400, the mathematical bold capital A. *)
Definition split_pair : jsstring := [0xD835; 0x301; 0xDC00]%N.


(** ** Array indices and page states the theorems refer to *)

(** The code points a decimal numeral is written with. *)
Definition is_decimal_digit (c : N) : bool := (0x30 <=? c)%N && (c <=? 0x39)%N.

Definition hidden_greeting : Greeting := {| greeting_hidden := true; greeting_text := [] |}.

Definition welcome `{Host} (guestName : value) : Greeting :=
  {| greeting_hidden := false;
     greeting_text := str "Welcome to the party, " ++ ToString guestName ++ str "!" |}.

(** The content of one section after [handleError], from its content
    before. *)
Definition with_error (node : Node) (d : Document) (selector : jsstring) : Document :=
  match lists d !! selector with
  | Some _ => set_lists (<[selector := [node]]>) d
  | None => d
  end.

(** The elements while the source of index [k] is being loaded. *)
Definition probing (sources : list jsstring) (alt : jsstring) (wrapper : option bool)
    (k : nat) (source : jsstring) : AvatarElements :=
  {| avatar_img :=
       Some {| img_hidden := false; img_src := Some source; img_alt := alt;
               img_avatarErrorHandler :=
                 Some {| probe_sources := sources; probe_index := S k |};
               img_listening := true |};
     avatar_wrapper_hidden := (λ _, false) <$> wrapper |}.

(** The elements once every source has failed. *)
Definition given_up (sources : list jsstring) (wrapper : option bool) : AvatarElements :=
  {| avatar_img :=
       Some {| img_hidden := true; img_src := None; img_alt := [];
               img_avatarErrorHandler :=
                 Some {| probe_sources := sources; probe_index := length sources |};
               img_listening := false |};
     avatar_wrapper_hidden := (λ _, true) <$> wrapper |}.

(** ** Tokens and encoded texts *)

(** A code unit of the ASCII range. *)
Definition is_ascii (c : N) : bool := (c <? 0x80)%N.

(** A token as the script issues them and a link carries them unescaped:
    not empty, no white space at either end, only ASCII characters, none of
    which is a percent sign, a plus sign or an ampersand. *)
Definition plain_token (t : jsstring) : Prop :=
  t ≠ [] ∧ trim t = t
  ∧ Forall (λ c, is_ascii c = true ∧ c ≠ 0x25%N ∧ c ≠ 0x2B%N ∧ c ≠ 0x26%N) t.

(** A Unicode scalar value: a code point up to U+10FFFF that is no
    surrogate. *)
Definition is_scalar_value (c : N) : bool := (c <=? 0x10FFFF)%N && negb (is_surrogate c).

(** What [encodeURIComponent] writes: unreserved characters, percent signs
    and upper-case hexadecimal digits. *)
Definition is_escape_char (c : N) : bool :=
  is_uri_unreserved c || (c =? percent)%N
  || ((0x30 <=? c)%N && (c <=? 0x39)%N) || ((0x41 <=? c)%N && (c <=? 0x46)%N).

(** ** What a computation leaves alone

    [keeps R m]: running [m] takes every page to one related to it by [R],
    whether [m] returns or throws. *)
Definition keeps {A} (R : relation Document) (m : M A) : Prop := ∀ d, R d (m d).1.

(** The page [d'] differs from [d] at most in the children of the container
    [selector]. *)
Definition only_list (selector : jsstring) : relation Document :=
  λ d d', d' = set_lists (λ _, lists d') d
          ∧ ∀ other, other ≠ selector → lists d' !! other = lists d !! other.

(** The page [d'] differs from [d] at most in the document title and in the
    text and display style of the text elements that are on the page. *)
Definition only_texts : relation Document :=
  λ d d', d' = set_title (document_title d') (set_texts (λ _, texts d') d)
          ∧ ∀ selector, is_Some (texts d' !! selector) ↔ is_Some (texts d !! selector).

(** The page [d'] has the links and the query string of [d]. *)
Definition same_links (d d' : Document) : Prop :=
  links d' = links d ∧ location_search d' = location_search d.

(** ** What the renderers write *)

(** The text elements [hydrateMeta] writes to, for a given feed: the title
    and the tagline when the feed has them, the season label and the date of
    the last update always. *)
Definition needed_texts (data : Feed) : list jsstring :=
  match truthy_string (title data) with Some _ => [str "#page-title"] | None => [] end
  ++ match truthy_string (tagline data) with Some _ => [str "#page-tagline"] | None => [] end
  ++ [str "#season-label"; str "#last-updated"].

(** [m] writes text elements only, returns when the elements [needed] are all
    on the page and throws a TypeError when one of them is missing. *)
Definition needs (needed : list jsstring) (m : M ()) : Prop :=
  ∀ d, only_texts d (m d).1
       ∧ (m d).2 = if bool_decide (Forall (λ s, is_Some (texts d !! s)) needed)
                   then Ok () else Throw TypeError.

(** What [update_link] makes of a link. *)
Definition updated (base : Link → jsstring) (suffix : jsstring) (display : option jsstring)
    (link : Link) : Link :=
  {| link_href := Some (base link ++ suffix);
     link_display := match display with Some v => Some v | None => link_display link end |}.

(** The row of a player, given the avatar elements. *)
Definition leaderboard_row `{Unicode} `{Host} (highlightedName : value) (labels : Labels)
    (player : Player) (avatar : AvatarElements) : Node :=
  LeaderboardItem (player_rank player)
    (str "#" ++ Z_to_string (player_rank player))
    (player_name player)
    (Z_to_string (player_points player) ++ str " "
     ++ (if bool_decide (player_points player = 1%Z) then singular labels else plural labels))
    avatar
    (is_highlighted highlightedName (player_name player)).

(** The lines of a timeline entry. *)
Definition node_lines (node : Node) : list Line :=
  match node with
  | TimelineEvent _ _ awards _ => awards
  | TimelinePlay _ _ _ results _ => results
  | _ => []
  end.

(** The expand button of an event's entry. *)
Definition node_expand (node : Node) : option ExpandButton :=
  match node with
  | TimelineEvent _ _ _ expand => expand
  | _ => None
  end.

(** ** More sample data *)

Definition sample_players : list Player :=
  [{| player_rank := 1; player_name := sample_name; player_points := 12 |};
   {| player_rank := 2; player_name := str "Lorenzo"; player_points := 1 |}].

Definition sample_rules : list Rule :=
  [{| rule_label := str "Win a game"; rule_points := 5 |};
   {| rule_label := str "Host the night"; rule_points := 1 |}].

Definition sample_plays : list Play :=
  (λ game, {| play_game := game; play_date := None; play_event := Some (str "Game Night #3");
              play_scored := true;
              play_results :=
                Some [{| result_player := str "Lorenzo"; result_placement := Some 1%Z;
                         result_points := Some 5%Z |}];
              play_notes := None |})
    <$> [str "Heat"; str "Carcassonne"; str "Azul"; str "Cascadia"].

Definition sample_awards : list Award :=
  (λ reason, {| award_player := str "Lorenzo"; award_reason := reason; award_points := 1 |})
    <$> [str "Won Heat"; str "Won Azul"; str "Hosted"; str "Brought snacks"].

Definition sample_event : Event :=
  {| event_name := str "Game Night #3"; event_date := None;
     event_awards := Some sample_awards |}.

Definition sample_feed : Feed :=
  {| title := Some (str "Game Night"); tagline := None; seasonLabel := Some (str "Season 2");
     lastUpdated := None; pointsLabelSingular := None; pointsLabelPlural := None;
     mode := Some (str "unranked");
     scoringRules := Some sample_rules; leaderboard := Some sample_players;
     recentEvents := Some [sample_event]; allEvents := None;
     recentPlays := None; allPlays := Some sample_plays;
     playerActivity := Some sample_activity |}.

(** The token file and the feed load. *)
Definition online : Network :=
  {| tokens_fetch :=
       Ok {| response_ok := true; response_status := 200;
             response_json := Ok (JObj [(str "Q7xG8O", JStr (str " Sasha "))]) |};
     leaderboard_fetch :=
       Ok {| response_ok := true; response_status := 200; response_json := Ok sample_feed |} |}.

(** The page with its navigation links. *)
Definition linked_page (search : jsstring) : Document :=
  set_links
    (λ _, list_to_map
            ((λ s, (s, {| link_href := Some (str "./unranked.html"); link_display := None |}))
               <$> [str "#view-all-plays"; str "#view-all-events"; str "#switch-view"]))
    (page_at search).

(** The page without the date of the last update, and the page without the
    leaderboard list. *)
Definition undated_page : Document :=
  set_texts (delete (str "#last-updated")) (page_at []).

Definition page_without_leaderboard : Document :=
  set_lists (delete leaderboard_selector) (page_at []).

(** A row template without avatar elements. *)
Definition plain_template : AvatarElements :=
  {| avatar_img := None; avatar_wrapper_hidden := None |}.

Definition page_without_avatars : Document :=
  {| location_search := []; console := []; document_title := str "Game Night";
     guest_greeting := None; lists := lists (page_at []); texts := texts (page_at []);
     links := ∅; player_template := Some plain_template;
     scoring_rule_template := true; event_template := Some None;
     timeline_award_template := true; play_template := true;
     activity_card_template := true |}.

(** A name with an accented letter, a currency sign and an emoji. *)
Definition sample_token : jsstring := [0x4A; 0xE9; 0x20; 0x20AC; 0x1F600]%N.

(* ===================================================================== *)
(** * Part II.  Lemmas and theorems                                       *)
(* ===================================================================== *)

(** ** The guest token of the URL *)

Lemma getGuestTokenFromUrl_first_present search :
  getGuestTokenFromUrl search =
    match first_present (URLSearchParams search) token_parameters with
    | None => Ok None
    | Some raw =>
        if bool_decide (raw = []) then Ok None
        else
          decoded ←! decodeURIComponent (replace_plus raw) ;;
          if bool_decide (trim decoded = []) then Ok None else Ok (Some (trim decoded))
    end.
Proof.
  unfold getGuestTokenFromUrl, token_parameters, first_present, nullish.
  repeat (destruct (params_get _ _); [done|]). done.
Qed.

(** C9.  When the first parameter present in priority order has a value of
    which nothing is left (empty, or blank once decoded and trimmed), the
    result is null whatever the parameters of lower priority carry. *)
Theorem blank_parameter_wins search before name after raw :
  token_parameters = before ++ name :: after →
  Forall (λ n, params_get (URLSearchParams search) n = None) before →
  params_get (URLSearchParams search) name = Some raw →
  blank raw →
  getGuestTokenFromUrl search = Ok None.
Proof.
  intros Hsplit Hbefore Hname (decoded & Hdec & Htrim).
  rewrite getGuestTokenFromUrl_first_present, Hsplit.
  assert (first_present (URLSearchParams search) (before ++ name :: after) = Some raw) as ->.
  { clear Hsplit. induction Hbefore as [|n before Hn _ IH]; simpl.
    - by rewrite Hname.
    - by rewrite Hn. }
  case_bool_decide; [done|].
  rewrite Hdec. simpl. by rewrite bool_decide_eq_true_2.
Qed.

Lemma blank_parameter_wins_witness :
  getGuestTokenFromUrl (str "?guest=%20&token=abc") = Ok None.
Proof.
  apply (blank_parameter_wins _ [] (str "guest") [str "token"; str "code"; str "ticket"]
           (str " ")).
  - reflexivity.
  - constructor.
  - vm_compute. reflexivity.
  - exists (str " "). split; vm_compute; reflexivity.
Defined.

(** ** Writing to a list container *)

Lemma appendChild_run selector node d :
  appendChild selector node d =
    (set_lists (λ m, <[selector := default [] (m !! selector) ++ [node]]> m) d, Ok ()).
Proof. reflexivity. Qed.

Lemma lists_set_lists f d : lists (set_lists f d) = f (lists d).
Proof. reflexivity. Qed.

(** Appending the nodes of [items] one by one never throws and leaves the
    container with its old children followed by the new nodes. *)
Lemma forEach_appendChild {A} selector (node : A → Node) items d old :
  lists d !! selector = Some old →
  ∃ d', forEach (λ x, appendChild selector (node x)) items d = (d', Ok ())
        ∧ lists d' !! selector = Some (old ++ (node <$> items))
        ∧ (∀ other, other ≠ selector → lists d' !! other = lists d !! other)
        ∧ guest_greeting d' = guest_greeting d.
Proof.
  revert d old. induction items as [|x items IH]; intros d old Hold.
  - exists d. rewrite app_nil_r. done.
  - simpl. unfold mbind at 1. rewrite appendChild_run.
    set (d1 := set_lists _ d).
    destruct (IH d1 (old ++ [node x])) as (d' & Hrun & Hsel & Hother & Hgreet).
    { subst d1. rewrite lists_set_lists, lookup_insert_eq, Hold. done. }
    exists d'. split; [done|]. split; [|split].
    + rewrite Hsel, <- app_assoc. done.
    + intros other Hne. rewrite Hother by done. subst d1.
      rewrite lists_set_lists. by rewrite lookup_insert_ne.
    + rewrite Hgreet. done.
Qed.

Lemma clear_list_run selector d :
  clear_list selector d = (set_lists (<[selector := []]>) d, Ok ()).
Proof. reflexivity. Qed.

(** ** Player activity *)

Lemma is_meaningful_has_activity entry :
  is_meaningful entry = true ↔ has_activity entry.
Proof.
  unfold is_meaningful, has_activity. rewrite orb_true_iff, Z.ltb_lt.
  split; intros [H|H]; auto.
  - right. destruct (games entry) as [[|g gs]|]; try done. eauto.
  - right. destruct H as (g & gs & ->). done.
Qed.

(** C7.  With the activity container and the card template on the page,
    [renderPlayerActivity] leaves in the container one card for each entry
    that has plays or a non-empty list of games, in the order of the list,
    and nothing for any other entry; when no entry qualifies the container
    holds the placeholder message instead.  The card of an entry carries the
    player, the number of plays, up to three games with their counts (or
    "None yet"), the podiums when there is one, and the highlight. *)
Theorem activity_cards_iff_has_activity `{Unicode} `{Host}
    (activity : list Activity) (highlightedName : value) (d : Document) old :
  lists d !! activity_selector = Some old →
  activity_card_template d = true →
  ∃ d' (keep : Activity → bool),
    renderPlayerActivity (Some activity) highlightedName d = (d', Ok ())
    ∧ (∀ entry, keep entry = true ↔ has_activity entry)
    ∧ lists d' !! activity_selector =
        Some (match filter (λ entry, keep entry = true) activity with
              | [] =>
                  [Created (str "p") (str "timeline-notes")
                     (str "Log plays to build up player activity stats.")]
              | shown =>
                  (λ entry,
                     let podium place := default 0%Z (podiums entry ≫= place) in
                     ActivityCard (activity_player entry)
                       (Z_to_string (totalPlays entry) ++ str " play"
                        ++ (if bool_decide (totalPlays entry = 1%Z) then [] else str "s"))
                       (match default [] (games entry) with
                        | [] => [(str "Games", str "None yet")]
                        | played =>
                            (λ game, (game_name game,
                                      Z_to_string (game_count game) ++ [0xD7%N]))
                              <$> take 3 played
                        end
                        ++ (if (0 <? podium podium_1 + podium podium_2 + podium podium_3)%Z
                            then [(str "Podiums",
                                   Z_to_string (podium podium_1) ++ str "/"
                                   ++ Z_to_string (podium podium_2) ++ str "/"
                                   ++ Z_to_string (podium podium_3))]
                            else []))
                       (is_highlighted highlightedName (activity_player entry)))
                    <$> shown
              end).
Proof.
  intros Hold Htemplate.
  set (shown := filter (λ entry, is_meaningful entry = true) activity).
  assert (∃ d', renderPlayerActivity (Some activity) highlightedName d = (d', Ok ())
                ∧ lists d' !! activity_selector =
                    Some (match shown with
                          | [] => [activity_placeholder]
                          | _ => activity_card highlightedName <$> shown
                          end)) as (d' & Hrun & Hlist).
  { unfold renderPlayerActivity, mbind, query_list, read. simpl.
    rewrite Hold, Htemplate. fold shown.
    set (d1 := set_lists _ d).
    assert (lists d1 !! activity_selector = Some []) as Hd1.
    { subst d1. rewrite lists_set_lists. apply lookup_insert_eq. }
    destruct shown as [|entry shown'].
    - eexists. split; [reflexivity|].
      rewrite lists_set_lists, lookup_insert_eq, Hd1. done.
    - destruct (forEach_appendChild activity_selector (activity_card highlightedName)
                  (entry :: shown') d1 [] Hd1) as (d' & Hrun & Hsel & _).
      exists d'. split; [exact Hrun|]. rewrite Hsel. done. }
  exists d', is_meaningful. split; [done|].
  split; [apply is_meaningful_has_activity|]. rewrite Hlist. subst shown.
  destruct (filter _ activity); reflexivity.
Qed.

Lemma activity_cards_iff_has_activity_witness :
  ∃ d', renderPlayerActivity (Some sample_activity) VNull (page_at []) = (d', Ok ()).
Proof.
  destruct (activity_cards_iff_has_activity sample_activity VNull (page_at []) [])
    as (d' & keep & Hrun & _).
  - vm_compute. reflexivity.
  - reflexivity.
  - exists d'. exact Hrun.
Defined.

(** ** The event timeline *)

Lemma slice_to_nonneg {A} (items : list A) (n : Z) :
  (0 ≤ n)%Z → slice_to items n = take (Z.to_nat n `min` length items) items.
Proof.
  intros Hn. unfold slice_to.
  destruct (Z.ltb_spec n 0) as [?|_]; [lia|].
  f_equal. lia.
Qed.

(** A negative limit counts from the end of the list. *)
Lemma slice_to_negative {A} (items : list A) (n : Z) :
  (n < 0)%Z → slice_to items n = take (length items - Z.to_nat (- n)) items.
Proof.
  intros Hn. unfold slice_to.
  destruct (Z.ltb_spec n 0) as [_|?]; [|lia].
  f_equal.
  destruct (Z.max_spec (Z.of_nat (length items) + n) 0) as [[? ->]|[? ->]]; lia.
Qed.

Lemma Forall2_imap {A B} (P : A → B → Prop) (f : nat → A → B) l :
  (∀ i x, P x (f i x)) → Forall2 P l (imap f l).
Proof.
  revert f. induction l as [|x l IH]; intros f Hf; [constructor|].
  simpl. constructor; [apply Hf|]. apply IH. intros i y. apply Hf.
Qed.

Lemma Forall2_fmap_intro {A B} (P : A → B → Prop) (f : A → B) l :
  (∀ x, P x (f x)) → Forall2 P l (f <$> l).
Proof. intros Hf. induction l; simpl; constructor; auto. Qed.

(** C8.  With the container and the templates on the page, [renderEvents]
    with an integer limit [n] leaves in the container one timeline node for
    each of the first [min n (length events)] events when [n] is not
    negative, for each event but the last [-n] when it is, and for each
    event when there is no limit, in list order; an empty selection shows
    the empty message.  The node of an event carries its name, its date and
    one line for each of its awards (player, reason, points), or the line
    that says the details are pending.  The limit is an argument of the
    call. *)
Theorem events_preview_is_capped `{Unicode} `{Host}
    (events : list Event) (highlightedName : value) (options : Options)
    (d : Document) old button :
  let selector := default (str "#events-timeline") (containerSelector options) in
  lists d !! selector = Some old →
  event_template d = Some button →
  timeline_award_template d = true →
  let shown := match limit options with
               | Some n =>
                   if (n <? 0)%Z then take (length events - Z.to_nat (- n)) events
                   else take (Z.to_nat n `min` length events) events
               | None => events
               end in
  ∃ d' nodes,
    renderEvents events highlightedName options d = (d', Ok ())
    ∧ lists d' !! selector = Some nodes
    ∧ match shown with
      | [] =>
          nodes =
            [Created (str "li") (str "timeline-item")
               (default (str "No points logged yet. Awards will show here automatically.")
                  (emptyMessage options))]
      | _ =>
          nodes =
            event_node highlightedName (awardPreviewLimit options)
              (default false (allowExpand options)) button <$> shown
          ∧ Forall2 (λ event node,
                ∃ lines expand,
                  node = TimelineEvent (event_name event) (asLocaleDate (event_date event))
                           lines expand
                  ∧ match event_awards event with
                    | None | Some [] =>
                        lines = [PlainLine (str "timeline-award")
                                   (str "Awards logged, details pending.")]
                    | Some awards =>
                        Forall2 (λ award line,
                            ∃ collapsed,
                              line = AwardLine (award_player award) (award_reason award)
                                       (str "+" ++ Z_to_string (award_points award))
                                       (is_highlighted highlightedName (award_player award))
                                       collapsed)
                          awards lines
                    end)
              shown nodes
      end.
Proof.
  intros selector Hold Htemplate Haward shown.
  assert (limited events (limit options) = shown) as Hshown.
  { subst shown. unfold limited. destruct (limit options) as [n|]; [|done].
    destruct (Z.ltb_spec n 0).
    - by apply slice_to_negative.
    - by apply slice_to_nonneg. }
  unfold renderEvents, mbind, query_list, read. simpl.
  fold selector. rewrite Hold, Htemplate, Haward, Hshown.
  set (d1 := set_lists _ d).
  assert (lists d1 !! selector = Some []) as Hd1.
  { subst d1. rewrite lists_set_lists. apply lookup_insert_eq. }
  destruct shown as [|event shown'].
  - eexists _, _. split; [reflexivity|]. split; [|reflexivity].
    rewrite lists_set_lists, lookup_insert_eq, Hd1. done.
  - destruct (forEach_appendChild selector
                (event_node highlightedName (awardPreviewLimit options)
                   (default false (allowExpand options)) button)
                (event :: shown') d1 [] Hd1) as (d' & Hrun & Hsel & _).
    eexists d', _. split; [exact Hrun|]. split; [exact Hsel|].
    split; [reflexivity|]. rewrite app_nil_l.
    apply Forall2_fmap_intro. intros shown_event. unfold event_node.
    destruct (event_awards shown_event) as [[|award awards]|].
    + eexists _, _. split; reflexivity.
    + eexists _, _. split; [reflexivity|].
      apply Forall2_imap. intros idx a. by eexists.
    + eexists _, _. split; reflexivity.
Qed.

Lemma events_preview_is_capped_witness :
  ∃ d' nodes,
    renderEvents sample_events VNull
      {| containerSelector := None; limit := Some 2%Z; emptyMessage := None;
         awardPreviewLimit := Some 5%Z; allowExpand := Some true |}
      (page_at []) = (d', Ok ())
    ∧ lists d' !! str "#events-timeline" = Some nodes
    ∧ length nodes = 2.
Proof.
  destruct (events_preview_is_capped sample_events VNull
              {| containerSelector := None; limit := Some 2%Z; emptyMessage := None;
                 awardPreviewLimit := Some 5%Z; allowExpand := Some true |}
              (page_at []) []
              (Some {| expand_hidden := true; expand_text := [];
                       expand_expanded := None; expand_collapsed := 0 |}))
    as (d' & nodes & Hrun & Hlist & Hnodes).
  - vm_compute. reflexivity.
  - reflexivity.
  - reflexivity.
  - exists d', nodes. split; [exact Hrun|]. split; [exact Hlist|].
    simpl in Hnodes. destruct Hnodes as [-> _]. reflexivity.
Defined.

(** With the limit -1 the current revision shows all events but the last,
    and the earlier revision, which takes no limit, shows eight of nine
    events. *)
Lemma negative_limit_and_fixed_cap :
  (∃ d', renderEvents sample_events VNull
           {| containerSelector := None; limit := Some (-1)%Z; emptyMessage := None;
              awardPreviewLimit := None; allowExpand := None |}
           (page_at []) = (d', Ok ())
         ∧ length <$> lists d' !! str "#events-timeline" = Some 2
         ∧ length sample_events = 3)
  ∧ ∃ d', renderEvents_v2 (replicate 9 sample_event) (page_at []) = (d', Ok ())
          ∧ length <$> lists d' !! str "#events-timeline" = Some 8.
Proof.
  split; eexists; (split; [vm_compute; reflexivity|]); vm_compute; repeat split; reflexivity.
Qed.

Lemma forEach_ext {A} (f g : A → M ()) items d :
  (∀ x d, f x d = g x d) → forEach f items d = forEach g items d.
Proof.
  intros Hfg. revert d. induction items as [|x items IH]; intros d; [done|].
  simpl. unfold mbind. rewrite Hfg. destruct (g x d) as [d1 [[]|e]]; [apply IH|done].
Qed.

(** X29.  With the list and both templates on the page, the earlier revision
    returns and shows the first eight events, or all of them when there are
    fewer, whatever the caller wishes. *)
Theorem renderEvents_v2_shows_eight `{Host} (events : list Event) (d : Document) old button :
  lists d !! str "#events-timeline" = Some old →
  event_template d = Some button →
  timeline_award_template d = true →
  events ≠ [] →
  ∃ d' nodes, renderEvents_v2 events d = (d', Ok ())
              ∧ lists d' !! str "#events-timeline" = Some nodes
              ∧ length nodes = 8 `min` length events.
Proof.
  intros Hold Htemplate Haward Hevents.
  remember (8 `min` length events) as m eqn:Hm.
  unfold renderEvents_v2, mbind, query_list, read. simpl.
  rewrite Hold, Htemplate, Haward.
  destruct events as [|event events']; [done|].
  set (d1 := set_lists _ d).
  assert (lists d1 !! str "#events-timeline" = Some []) as Hd1.
  { subst d1. rewrite lists_set_lists. apply lookup_insert_eq. }
  set (node := λ event : Event,
         TimelineEvent (event_name event) (asLocaleDate (event_date event))
           match event_awards event with
           | None | Some [] =>
               [PlainLine (str "timeline-award") (str "Awards logged, details pending.")]
           | Some awards =>
               (λ award,
                  AwardLine (award_player award) (award_reason award)
                    (str "+" ++ Z_to_string (award_points award)) false false)
                 <$> awards
           end
           button).
  match goal with
  | |- context [forEach ?f ?items] =>
      rewrite (forEach_ext f (λ event, appendChild (str "#events-timeline") (node event)))
        by (intros x ?; subst node; simpl; by destruct (event_awards x) as [[|??]|]);
      destruct (forEach_appendChild (str "#events-timeline") node items d1 [] Hd1)
        as (d' & Hrun & Hsel & _)
  end.
  eexists d', _. split; [exact Hrun|]. split; [exact Hsel|].
  rewrite app_nil_l, length_fmap, slice_to_nonneg by lia.
  rewrite length_take. change (Z.to_nat 8) with 8. lia.
Qed.

(** ** The guest-token registry *)

Lemma property_set_lookup (map : gmap jsstring jsstring) key s k :
  property_set map key s !! k =
    if bool_decide (k = key ∧ key ≠ proto_key) then Some s else map !! k.
Proof.
  unfold property_set. case_bool_decide as Hproto.
  - rewrite bool_decide_eq_false_2; [done|]. intros [_ ?]. done.
  - destruct (decide (k = key)) as [->|Hne].
    + rewrite lookup_insert_eq, bool_decide_eq_true_2; done.
    + rewrite lookup_insert_ne by done. rewrite bool_decide_eq_false_2; [done|].
      intros [? _]. done.
Qed.

Lemma add_key_token_value `{Host} (source : JSON) (map : gmap jsstring jsstring) (key : jsstring) :
  add_key source map key =
    match token_value source key with
    | Some name => property_set map key name
    | None => map
    end.
Proof.
  unfold add_key, token_value.
  destruct (own_property source key) as [[]|]; try done.
  by case_bool_decide.
Qed.

Lemma add_key_lookup_other `{Host} (source : JSON) (map : gmap jsstring jsstring)
    (key k : jsstring) :
  k ≠ key ∨ k = proto_key ∨ token_value source key = None →
  add_key source map key !! k = map !! k.
Proof.
  intros Hcase. rewrite add_key_token_value.
  destruct (token_value source key) as [name|]; [|done].
  rewrite property_set_lookup, bool_decide_eq_false_2; [done|].
  intros [-> Hp]. destruct Hcase as [?|[?|?]]; done.
Qed.

Lemma add_key_lookup_same `{Host} (source : JSON) (map : gmap jsstring jsstring)
    (key : jsstring) name :
  key ≠ proto_key → token_value source key = Some name →
  add_key source map key !! key = Some name.
Proof.
  intros Hp Hname. rewrite add_key_token_value, Hname, property_set_lookup.
  by rewrite bool_decide_eq_true_2.
Qed.

Lemma add_keys_lookup `{Host} (source : JSON) (keys : list jsstring)
    (map : gmap jsstring jsstring) (k : jsstring) :
  foldl (add_key source) map keys !! k =
    match (if bool_decide (k ∈ keys ∧ k ≠ proto_key) then token_value source k else None) with
    | Some name => Some name
    | None => map !! k
    end.
Proof.
  revert map. induction keys as [|key keys IH]; intros map.
  - rewrite bool_decide_eq_false_2; [done|]. intros [Hin _]. by apply elem_of_nil in Hin.
  - cbn [foldl]. rewrite IH. clear IH.
    destruct (decide (k = proto_key)) as [Hp|Hp].
    { rewrite !bool_decide_eq_false_2 by tauto. apply add_key_lookup_other. auto. }
    destruct (decide (k ∈ keys)) as [Hin|Hin].
    { rewrite !bool_decide_eq_true_2 by (split; [by (try right)|done]).
      destruct (token_value source k) as [name|] eqn:Hk; [done|].
      apply add_key_lookup_other.
      destruct (decide (k = key)) as [->|]; auto. }
    rewrite (bool_decide_eq_false_2 (k ∈ keys ∧ _)) by tauto.
    destruct (decide (k = key)) as [->|Hne].
    + rewrite bool_decide_eq_true_2 by (split; [left|done]).
      destruct (token_value source key) as [name|] eqn:Hk.
      * by apply add_key_lookup_same.
      * apply add_key_lookup_other. auto.
    + rewrite bool_decide_eq_false_2.
      2:{ intros [Hin' _]. apply elem_of_cons in Hin' as [?|?]; done. }
      apply add_key_lookup_other. auto.
Qed.

Lemma last_member_elem `{Host} (members : list (jsstring * JSON)) (key : jsstring) :
  is_Some (last_member members key) → key ∈ members.*1.
Proof.
  induction members as [|[k w] members IH]; simpl; [by intros [? ?]|].
  destruct (last_member members key).
  - intros _. right. apply IH. eauto.
  - case_bool_decide; [|by intros [? ?]]. subst. intros _. left.
Qed.

Lemma own_property_key `{Host} (source : JSON) (key : jsstring) v :
  own_property source key = Some v → key ∈ Object_keys source.
Proof.
  destruct source as [| | | |items|members]; simpl; try done.
  - destruct (list_find _ _) as [[j i]|] eqn:Hfind; [|done]. simpl. intros _.
    apply list_find_Some in Hfind as (Hi & Hkey & _).
    apply list_elem_of_fmap. exists i. split; [done|].
    by apply list_elem_of_lookup_2 in Hi.
  - intros Hlast. apply elem_of_remove_dups. apply last_member_elem. eauto.
Qed.

(** The mapping form never throws. *)
Lemma normalizeGuestTokens_object `{Host} (members : list (jsstring * JSON)) :
  normalizeGuestTokens (JObj members)
  = Ok (foldl (add_key (token_source (JObj members))) ∅
          (Object_keys (token_source (JObj members)))).
Proof.
  unfold normalizeGuestTokens. simpl json_truthy. cbn [negb].
  assert (match member (JObj members) (str "tokens") with
          | Some tokens => if is_object tokens then tokens else JObj members
          | None => JObj members
          end = token_source (JObj members)) as ->; [|done].
  unfold member, token_source.
  destruct (own_property (JObj members) (str "tokens")) as [[]|]; done.
Qed.

(** The mapping form: a key other than [__proto__] maps to its trimmed
    value when that is a non-blank string, and to nothing otherwise. *)
Lemma normalizeGuestTokens_mapping `{Host} (members : list (jsstring * JSON)) :
  ∃ registry, normalizeGuestTokens (JObj members) = Ok registry
    ∧ ∀ k, registry !! k =
             if bool_decide (k = proto_key) then None
             else token_value (token_source (JObj members)) k.
Proof.
  eexists. split; [apply normalizeGuestTokens_object|]. intros k.
  rewrite add_keys_lookup, lookup_empty.
  destruct (decide (k = proto_key)) as [Hp|Hp].
  - rewrite (bool_decide_eq_true_2 _ Hp), bool_decide_eq_false_2 by tauto. reflexivity.
  - rewrite (bool_decide_eq_false_2 _ Hp).
    destruct (token_value _ k) as [name|] eqn:Hk.
    + rewrite bool_decide_eq_true_2; [done|]. split; [|done].
      unfold token_value in Hk.
      destruct (own_property _ k) eqn:Hown; [|done]. by eapply own_property_key.
    + by case_bool_decide.
Qed.

Lemma decimal_digits_all fuel n acc :
  Forall (λ c, is_decimal_digit c = true) acc →
  Forall (λ c, is_decimal_digit c = true) (decimal_digits fuel n acc).
Proof.
  revert n acc. induction fuel as [|fuel IH]; intros n acc Hacc; simpl; [done|].
  assert (is_decimal_digit (48 + n mod 10) = true) as Hd.
  { unfold is_decimal_digit. pose proof (N.mod_upper_bound n 10 ltac:(lia)) as Hlt.
    revert Hlt. generalize (n mod 10)%N. intros digit Hlt.
    apply andb_true_iff. split; apply N.leb_le; lia. }
  destruct (n <? 10)%N; [|apply IH]; by constructor.
Qed.

Lemma index_key_digits i : Forall (λ c, is_decimal_digit c = true) (index_key i).
Proof. apply decimal_digits_all. constructor. Qed.

(** An array has no own property named [token] or [name]: its property names
    are numerals. *)
Lemma array_member_undefined `{Host} (items : list JSON) (key : jsstring) c rest :
  key = c :: rest → is_decimal_digit c = false →
  member (JArr items) key = None.
Proof.
  intros -> Hc. unfold member, own_property.
  destruct (list_find _ _) as [[j i]|] eqn:Hfind; [|done].
  apply list_find_Some in Hfind as (_ & Hkey & _). exfalso.
  pose proof (index_key_digits i) as Hdigits. rewrite Hkey in Hdigits.
  apply Forall_cons in Hdigits as [Hd _]. congruence.
Qed.

(** Induction on a JSON value that reaches into arrays. *)
Lemma JSON_array_ind `{Host} (P : JSON → Prop) :
  (∀ j, (∀ items, j ≠ JArr items) → P j) →
  (∀ items, Forall P items → P (JArr items)) →
  ∀ j, P j.
Proof.
  intros Hother Harr. fix IH 1. intros j.
  destruct j as [| | | |items|members]; try (apply Hother; discriminate).
  apply Harr. revert items. fix IHitems 1. intros [|x items]; constructor.
  - apply IH.
  - apply IHitems.
Qed.

(** [String(j)] throws nothing but a TypeError. *)
Lemma json_to_string_throws `{Host} (j : JSON) (e : exn) :
  json_to_string j = Throw e → e = TypeError.
Proof.
  revert e. induction j as [j Hj|items IH] using JSON_array_ind; intros e.
  - destruct j as [|[]| | |items|members]; simpl; try discriminate.
    + by destruct (Hj items).
    + destruct (last_member members _); [by intros [= <-]|discriminate].
  - simpl. destruct (element_strings json_to_string items) as [parts|e'] eqn:Hitems;
      simpl; [discriminate|].
    intros [= ->]. revert Hitems.
    induction IH as [|x items Hx _ IHitems]; simpl; [discriminate|].
    destruct (match x with JNull => Ok [] | _ => json_to_string x end) as [part|e'] eqn:Hpart;
      simpl.
    + destruct (element_strings json_to_string items); simpl; [discriminate|].
      intros [= ->]. by apply IHitems.
    + intros [= ->]. destruct x; try discriminate; by apply Hx.
Qed.

Lemma add_pair_pair_of `{Host} (map : gmap jsstring jsstring) (entry : JSON) :
  add_pair map entry =
    match pair_of entry with
    | Some converted => p ←! converted ;; Ok (property_set map p.1 p.2)
    | None => Ok map
    end.
Proof.
  unfold add_pair, pair_of.
  destruct entry as [| | | |items|members]; try done.
  - simpl is_object. cbv iota.
    by rewrite (array_member_undefined items (str "token") 0x74%N (str "oken")).
  - simpl is_object. cbv iota.
    destruct (member _ (str "token")) as [token|]; [|done].
    destruct (member _ (str "name")) as [name|]; [|done].
    destruct (json_truthy token && json_truthy name); [|done].
    destruct (json_to_string token); [|done]. simpl.
    by destruct (json_to_string name).
Qed.

(** An element whose token or name cannot be converted to a string. *)
Lemma pair_of_throws `{Host} (entry : JSON) (e : exn) :
  pair_of entry = Some (Throw e) → e = TypeError.
Proof.
  unfold pair_of. destruct entry; try done.
  destruct (member _ (str "token")) as [token|]; [|done].
  destruct (member _ (str "name")) as [name|]; [|done].
  destruct (json_truthy token && json_truthy name); [|done].
  destruct (json_to_string token) as [key|e1] eqn:Htoken; simpl.
  - destruct (json_to_string name) as [s|e2] eqn:Hname; simpl; [done|].
    intros [= <-]. by eapply json_to_string_throws.
  - intros [= <-]. by eapply json_to_string_throws.
Qed.

(** The loop over an array: it throws at the first element that cannot be
    converted, and otherwise sets the pairs one after the other. *)
Lemma reduce_add_pair `{Host} (items : list JSON) (map : gmap jsstring jsstring) :
  (Forall (λ entry, pair_of entry ≠ Some (Throw TypeError)) items
   ∧ reduce add_pair items map
     = Ok (foldl (λ m p, property_set m p.1 p.2) map (pairs_of items)))
  ∨ (Exists (λ entry, pair_of entry = Some (Throw TypeError)) items
     ∧ reduce add_pair items map = Throw TypeError).
Proof.
  revert map. induction items as [|entry items IH]; intros map; [by left|].
  simpl. rewrite add_pair_pair_of. unfold pairs_of. simpl.
  destruct (pair_of entry) as [[p|e]|] eqn:Hpair; simpl.
  - destruct (IH (property_set map p.1 p.2)) as [[Hall Hrun]|[Hsome Hrun]].
    + left. split; [constructor; [congruence|done]|done].
    + right. split; [by apply Exists_cons_tl|done].
  - right. assert (e = TypeError) as -> by (by eapply pair_of_throws).
    split; [by left|done].
  - destruct (IH map) as [[Hall Hrun]|[Hsome Hrun]].
    + left. split; [constructor; [congruence|done]|done].
    + right. split; [by apply Exists_cons_tl|done].
Qed.

Lemma set_pairs_lookup (pairs : list (jsstring * jsstring)) (map : gmap jsstring jsstring)
    (k : jsstring) :
  foldl (λ m p, property_set m p.1 p.2) map pairs !! k =
    match (if bool_decide (k = proto_key) then None
           else snd <$> last (filter (λ p, p.1 = k) pairs)) with
    | Some name => Some name
    | None => map !! k
    end.
Proof.
  revert map. induction pairs as [|[token name] pairs IH] using rev_ind; intros map.
  - simpl. by case_bool_decide.
  - rewrite foldl_app. simpl. rewrite filter_app. simpl.
    rewrite property_set_lookup.
    destruct (decide (k = token)) as [->|Hne].
    + rewrite filter_cons_True by done. rewrite filter_nil, last_snoc. simpl.
      destruct (decide (token = proto_key)) as [Hp|Hp].
      * rewrite (bool_decide_eq_true_2 _ Hp), bool_decide_eq_false_2 by tauto.
        rewrite IH. by rewrite bool_decide_eq_true_2.
      * rewrite (bool_decide_eq_false_2 _ Hp). by rewrite bool_decide_eq_true_2.
    + rewrite filter_cons_False by (simpl; congruence).
      rewrite filter_nil, app_nil_r, bool_decide_eq_false_2 by tauto. apply IH.
Qed.

(** The array form, when every token and name can be converted: a token
    other than [__proto__] maps to the name of the last element that carries
    it. *)
Lemma normalizeGuestTokens_array `{Host} (items : list JSON) :
  Forall (λ entry, pair_of entry ≠ Some (Throw TypeError)) items →
  ∃ registry, normalizeGuestTokens (JArr items) = Ok registry
    ∧ ∀ k, registry !! k =
             if bool_decide (k = proto_key) then None else last_pair items k.
Proof.
  intros Hitems. unfold normalizeGuestTokens. simpl json_truthy. cbn [negb].
  destruct (reduce_add_pair items ∅) as [[_ ->]|[Hsome _]].
  - eexists. split; [done|]. intros k. rewrite set_pairs_lookup, lookup_empty.
    unfold last_pair. by destruct (if bool_decide _ then _ else _).
  - apply Exists_exists in Hsome as (entry & Hin & Hthrow).
    rewrite Forall_forall in Hitems. by destruct (Hitems entry Hin).
Qed.

(** Anything that is neither an array nor an object yields the empty map. *)
Lemma normalizeGuestTokens_other `{Host} (raw : JSON) :
  (∀ items, raw ≠ JArr items) → (∀ members, raw ≠ JObj members) →
  normalizeGuestTokens raw = Ok ∅.
Proof.
  intros Harr Hobj. unfold normalizeGuestTokens.
  destruct raw; try by destruct (negb _).
  - by destruct (Harr items).
  - by destruct (Hobj members).
Qed.

(** C4 (the registry drops a key).  On the token file [{"__proto__": "Eve"}]
    the one key has a non-blank string value, yet [normalizeGuestTokens]
    returns the empty map: the assignment [map["__proto__"] = "Eve"] reaches
    the inherited setter, which ignores a string. *)
Theorem proto_key_is_dropped `{Host} :
  normalizeGuestTokens (JObj [(str "__proto__", JStr (str "Eve"))]) = Ok ∅.
Proof. reflexivity. Qed.

(** The same file in the array form. *)
Lemma proto_token_is_dropped `{Host} :
  normalizeGuestTokens
    (JArr [JObj [(str "token", JStr (str "__proto__")); (str "name", JStr (str "Eve"))]])
  = Ok ∅.
Proof. reflexivity. Qed.

(** An element whose token is an object with a member [toString] cannot be
    converted: the whole file is refused. *)
Lemma unconvertible_token_throws `{Host} (n : number) :
  normalizeGuestTokens
    (JArr [JObj [(str "token", JStr (str "abc")); (str "name", JStr (str "Ann"))];
           JObj [(str "token", JObj [(str "toString", JNum n)]);
                 (str "name", JStr (str "Eve"))]])
  = Throw TypeError.
Proof. reflexivity. Qed.

(** ** The greeting *)

(** What [renderGreeting] does on a page with the banner, once the token of
    the URL is known. *)
Lemma renderGreeting_run `{Host} (tokens : gmap jsstring jsstring) (d : Document) g token :
  guest_greeting d = Some g →
  getGuestTokenFromUrl (location_search d) = Ok token →
  renderGreeting tokens d =
    match token with
    | None => (set_greeting hidden_greeting d, Ok VNull)
    | Some token =>
        if truthy (property_get tokens token)
        then (set_greeting (welcome (property_get tokens token)) d,
              Ok (property_get tokens token))
        else (set_greeting hidden_greeting d, Ok VNull)
    end.
Proof.
  intros Hg Htoken. unfold renderGreeting, mbind, read, lift. rewrite Hg, Htoken.
  destruct token as [token|]; [|done].
  by destruct (truthy (property_get tokens token)).
Qed.

(** A token of the registry with a non-empty name is greeted by that name. *)
Lemma registered_token_is_greeted `{Host} (tokens : gmap jsstring jsstring) (d : Document)
    g token name :
  guest_greeting d = Some g →
  getGuestTokenFromUrl (location_search d) = Ok (Some token) →
  tokens !! token = Some name → name ≠ [] →
  renderGreeting tokens d =
    (set_greeting {| greeting_hidden := false;
                     greeting_text := str "Welcome to the party, " ++ name ++ str "!" |} d,
     Ok (VString name)).
Proof.
  intros Hg Htoken Hname Hne. rewrite (renderGreeting_run tokens d g (Some token)) by done.
  unfold property_get. rewrite Hname. simpl. by rewrite bool_decide_eq_true_2.
Qed.

(** A token that neither the registry nor [Object.prototype] knows hides the
    banner. *)
Lemma unknown_token_is_not_greeted `{Host} (tokens : gmap jsstring jsstring) (d : Document)
    g token :
  guest_greeting d = Some g →
  getGuestTokenFromUrl (location_search d) = Ok (Some token) →
  tokens !! token = None → object_prototype_get token = VUndefined →
  renderGreeting tokens d = (set_greeting hidden_greeting d, Ok VNull).
Proof.
  intros Hg Htoken Hname Hproto. rewrite (renderGreeting_run tokens d g (Some token)) by done.
  unfold property_get. by rewrite Hname, Hproto.
Qed.

(** No token in the URL hides the banner. *)
Lemma absent_token_is_not_greeted `{Host} (tokens : gmap jsstring jsstring) (d : Document) g :
  guest_greeting d = Some g →
  getGuestTokenFromUrl (location_search d) = Ok None →
  renderGreeting tokens d = (set_greeting hidden_greeting d, Ok VNull).
Proof. intros Hg Htoken. by rewrite (renderGreeting_run tokens d g None). Qed.

(** The example of the specification: the token file [{"Q7xG8O": "Sasha"}]. *)
Example greeting_for_Sasha `{Host} :
  ∃ registry,
    normalizeGuestTokens (JObj [(str "Q7xG8O", JStr (str "Sasha"))]) = Ok registry
    ∧ renderGreeting registry (page_at (str "?guest=Q7xG8O"))
      = (set_greeting {| greeting_hidden := false;
                         greeting_text := str "Welcome to the party, Sasha!" |}
           (page_at (str "?guest=Q7xG8O")),
         Ok (VString (str "Sasha"))).
Proof. eexists. split; reflexivity. Qed.

Example no_greeting_for_bogus `{Host} :
  ∃ registry,
    normalizeGuestTokens (JObj [(str "Q7xG8O", JStr (str "Sasha"))]) = Ok registry
    ∧ renderGreeting registry (page_at (str "?guest=bogus"))
      = (set_greeting hidden_greeting (page_at (str "?guest=bogus")), Ok VNull).
Proof. eexists. split; reflexivity. Qed.

(** C1 (a name the registry does not hold is greeted).  When the URL carries
    [?guest=constructor] and the registry has no such key, the lookup
    [tokens[token]] finds the function [Object] on [Object.prototype]: the
    banner is shown with the source text of that function as the name, and
    the function is returned as the name to highlight. *)
Theorem inherited_property_is_greeted `{Host} (tokens : gmap jsstring jsstring)
    (d : Document) g :
  guest_greeting d = Some g →
  location_search d = str "?guest=constructor" →
  tokens !! str "constructor" = None →
  renderGreeting tokens d =
    (set_greeting
       {| greeting_hidden := false;
          greeting_text :=
            str "Welcome to the party, " ++ native_source (str "Object") ++ str "!" |} d,
     Ok (VFunction (str "Object"))).
Proof.
  intros Hg Hsearch Hnone.
  rewrite (renderGreeting_run tokens d g (Some (str "constructor"))); [|done|by rewrite Hsearch].
  unfold property_get. rewrite Hnone. reflexivity.
Qed.

Lemma inherited_property_is_greeted_witness :
  renderGreeting ∅ (page_at (str "?guest=constructor")) =
    (set_greeting
       {| greeting_hidden := false;
          greeting_text :=
            str "Welcome to the party, " ++ native_source (str "Object") ++ str "!" |}
       (page_at (str "?guest=constructor")),
     Ok (VFunction (str "Object"))).
Proof.
  apply (inherited_property_is_greeted ∅ (page_at (str "?guest=constructor"))
           {| greeting_hidden := true; greeting_text := [] |}); reflexivity.
Defined.

(** The banner then reads as follows. *)
Example greeting_for_constructor :
  (guest_greeting (renderGreeting ∅ (page_at (str "?guest=constructor"))).1)
  = Some {| greeting_hidden := false;
            greeting_text :=
              str "Welcome to the party, function Object() { [native code] }!" |}.
Proof. reflexivity. Qed.

(** A token value with a malformed escape makes [renderGreeting] throw. *)
Lemma malformed_token_throws `{Host} (tokens : gmap jsstring jsstring) :
  renderGreeting tokens (page_at (str "?guest=%25"))
  = (page_at (str "?guest=%25"), Throw URIError).
Proof. reflexivity. Qed.

(** ** Failed fetches *)

Lemma replace_section_run selector node d :
  replace_section selector node d = (with_error node d selector, Ok ()).
Proof.
  unfold replace_section, with_error, mbind, query_list, read.
  destruct (lists d !! selector) as [old|]; [|done].
  rewrite clear_list_run, appendChild_run. f_equal.
  destruct d. unfold set_lists. simpl. f_equal.
  by rewrite lookup_insert_eq, insert_insert_eq.
Qed.

Lemma handleError_run e d :
  handleError e d =
    (foldl (λ d '(selector, node), with_error node d selector)
       (set_console (λ log, log ++ [LogError e]) d) error_sections,
     Ok ()).
Proof.
  unfold handleError, modify.
  repeat (unfold mbind at 1; rewrite ?replace_section_run).
  reflexivity.
Qed.

Lemma with_error_lookup node d selector other :
  lists (with_error node d selector) !! other =
    if bool_decide (other = selector) then (λ _, [node]) <$> lists d !! other
    else lists d !! other.
Proof.
  unfold with_error. case_bool_decide as Heq.
  - subst. destruct (lists d !! selector) eqn:Hsel.
    + by rewrite lists_set_lists, lookup_insert_eq.
    + by rewrite Hsel.
  - destruct (lists d !! selector); [|done].
    by rewrite lists_set_lists, lookup_insert_ne.
Qed.

Lemma with_errors_other sections d other :
  other ∉ sections.*1 →
  lists (foldl (λ d '(selector, node), with_error node d selector) d sections) !! other
  = lists d !! other.
Proof.
  revert d. induction sections as [|[selector node] sections IH]; intros d Hnot; [done|].
  simpl in *. rewrite IH by (intros ?; apply Hnot; by right).
  rewrite with_error_lookup, bool_decide_eq_false_2; [done|].
  intros ->. apply Hnot. left.
Qed.

Lemma with_errors_lookup sections d selector node :
  NoDup sections.*1 → (selector, node) ∈ sections →
  lists (foldl (λ d '(selector, node), with_error node d selector) d sections) !! selector
  = (λ _, [node]) <$> lists d !! selector.
Proof.
  revert d. induction sections as [|[s n] sections IH]; intros d Hnodup Hin.
  - by apply elem_of_nil in Hin.
  - simpl in *. apply NoDup_cons in Hnodup as [Hfresh Hnodup].
    apply elem_of_cons in Hin as [[= -> ->]|Hin].
    + rewrite with_errors_other by done.
      by rewrite with_error_lookup, bool_decide_eq_true_2.
    + rewrite IH by done. rewrite with_error_lookup, bool_decide_eq_false_2; [done|].
      intros ->. apply Hfresh. apply list_elem_of_fmap. by exists (s, node).
Qed.

Lemma with_errors_greeting sections d :
  guest_greeting (foldl (λ d '(selector, node), with_error node d selector) d sections)
  = guest_greeting d.
Proof.
  revert d. induction sections as [|[s n] sections IH]; intros d; [done|].
  simpl. rewrite IH. unfold with_error. by destruct (lists d !! s).
Qed.

Lemma error_sections_NoDup : NoDup error_sections.*1.
Proof. apply (bool_decide_unpack _). vm_compute. exact I. Qed.

(** [handleError] never throws; it leaves the greeting alone and puts the
    error message in every section that is on the page. *)
Lemma handleError_sections e d :
  ∃ d', handleError e d = (d', Ok ())
        ∧ guest_greeting d' = guest_greeting d
        ∧ ∀ selector node, (selector, node) ∈ error_sections →
            lists d' !! selector = (λ _, [node]) <$> lists d !! selector.
Proof.
  eexists. split; [apply handleError_run|]. split.
  - by rewrite with_errors_greeting.
  - intros selector node Hin.
    by rewrite (with_errors_lookup _ _ _ node error_sections_NoDup Hin).
Qed.



(** ** Avatars *)

Lemma first_occurrences_filter {A K} `{EqDecision K} (key : A → K)
    (Q : K → Prop) `{!∀ k, Decision (Q k)} (l : list A) :
  filter (λ y, Q (key y)) (first_occurrences key l)
  = first_occurrences key (filter (λ y, Q (key y)) l).
Proof.
  induction l as [|x l IH]; [done|]. simpl.
  rewrite !filter_cons. destruct (decide (Q (key x))) as [HQ|HQ]; simpl.
  - f_equal. rewrite <- IH, !list_filter_filter. apply list_filter_iff. tauto.
  - rewrite <- IH. apply list_filter_filter_l. intros y Hy Heq. by rewrite Heq in Hy.
Qed.

(** The loop over the candidates keeps what [first_occurrences] keeps. *)
Lemma add_base_fold `{Unicode} (bases unique : list jsstring) (seen : gset jsstring) :
  (foldl add_base (unique, seen) bases).1
  = unique ++ first_occurrences toLowerCase
                (filter (λ b, b ≠ [] ∧ toLowerCase b ∉ seen) bases).
Proof.
  revert unique seen. induction bases as [|b bases IH]; intros unique seen.
  - simpl. by rewrite app_nil_r.
  - cbn [foldl]. unfold add_base at 2.
    case_bool_decide as Hempty.
    { rewrite filter_cons_False by tauto. apply IH. }
    case_bool_decide as Hseen.
    { rewrite filter_cons_False by tauto. apply IH. }
    rewrite filter_cons_True by done. rewrite IH, <- app_assoc. simpl. do 2 f_equal.
    pose proof (first_occurrences_filter toLowerCase (λ k, k ≠ toLowerCase b)) as Hfilter.
    cbv beta in Hfilter. rewrite Hfilter.
    f_equal. rewrite list_filter_filter. apply list_filter_iff.
    intros y. rewrite elem_of_union, elem_of_singleton. tauto.
Qed.

(** [getAvatarBases] computes the specification's list of bases. *)
Lemma getAvatarBases_first_occurrences `{Unicode} `{Host} (name encoded : jsstring) :
  encodeURIComponent (trim name) = Ok encoded →
  getAvatarBases (Some name) =
    Ok (first_occurrences toLowerCase
          (filter (λ b, b ≠ [])
             [trim name; encoded; replace_whitespace_runs (trim name);
              replace_whitespace_runs (normalizeName (VString (trim name)))])).
Proof.
  intros Hencoded. unfold getAvatarBases. case_bool_decide as Hname.
  - subst name. injection Hencoded as <-. reflexivity.
  - rewrite Hencoded. cbn [bind]. rewrite add_base_fold. simpl app. do 2 f_equal.
    apply list_filter_iff. intros b. split; [tauto|].
    intros Hb. split; [done|]. apply not_elem_of_empty.
Qed.

Lemma trimStart_Forall (P : N → Prop) s : Forall P s → Forall P (trimStart s).
Proof.
  induction 1 as [|c s Hc Hs IH]; simpl; [done|].
  destruct (is_white_space c); [done|]. by constructor.
Qed.

Lemma trim_Forall (P : N → Prop) s : Forall P s → Forall P (trim s).
Proof.
  intros Hs. unfold trim, trimEnd.
  apply Forall_reverse, trimStart_Forall, Forall_reverse, trimStart_Forall, Hs.
Qed.

(** [encodeURIComponent] returns on a string without unpaired surrogates. *)
Lemma encodeURIComponent_well_formed s :
  Forall (λ c, is_surrogate c = false) s → ∃ encoded, encodeURIComponent s = Ok encoded.
Proof.
  induction 1 as [|c s Hc Hs [encoded IH]]; simpl; [eauto|].
  rewrite IH, Hc. destruct (is_uri_unreserved c); simpl; eauto.
Qed.

Lemma well_formed_Forall s :
  well_formed s = true → Forall (λ c, is_surrogate c = false) s.
Proof.
  unfold well_formed. induction s as [|c s IH]; simpl; [done|].
  intros [Hc Hs]%andb_true_iff. constructor; [|by apply IH].
  by destruct (is_surrogate c).
Qed.

Lemma failed_loads_S n els : failed_loads (S n) els = dispatch_error (failed_loads n els).
Proof. revert els. induction n as [|n IH]; intros els; [done|]. simpl in *. by rewrite IH. Qed.

Lemma failed_loads_probing sources alt wrapper first k source :
  sources !! 0 = Some first → sources !! k = Some source →
  failed_loads k (probing sources alt wrapper 0 first) = probing sources alt wrapper k source.
Proof.
  intros Hfirst. revert source. induction k as [|k IH]; intros source Hk.
  - simpl. congruence.
  - destruct (lookup_lt_is_Some_2 sources k) as [previous Hprevious].
    { apply lookup_lt_Some in Hk. lia. }
    rewrite failed_loads_S, (IH previous Hprevious).
    unfold probing, dispatch_error, onError. simpl. by rewrite Hk.
Qed.

Lemma failed_loads_given_up sources alt wrapper first :
  sources !! 0 = Some first →
  failed_loads (length sources) (probing sources alt wrapper 0 first)
  = given_up sources wrapper.
Proof.
  intros Hfirst. destruct (length sources) as [|k] eqn:Hlen.
  { destruct sources; done. }
  destruct (lookup_lt_is_Some_2 sources k) as [last Hlast]; [lia|].
  rewrite failed_loads_S, (failed_loads_probing _ _ _ _ _ last Hfirst Hlast).
  unfold probing, dispatch_error, onError, given_up, hide_avatar. simpl.
  rewrite (lookup_ge_None_2 sources (S k)) by lia. rewrite Hlen.
  by destruct wrapper.
Qed.

Lemma failed_loads_stay k els : dispatch_error els = els → failed_loads k els = els.
Proof. intros Hels. induction k as [|k IH]; [done|]. simpl. by rewrite Hels. Qed.

Lemma failed_loads_add n m els : failed_loads (n + m) els = failed_loads m (failed_loads n els).
Proof. revert els. induction n as [|n IH]; intros els; [done|]. simpl. apply IH. Qed.

Lemma pieces_nonempty skip s : pieces skip s ≠ [].
Proof.
  revert skip. induction s as [|c s IH]; intros skip; [done|]. simpl.
  destruct (is_white_space c).
  - destruct skip; [apply IH|done].
  - by destruct (pieces false s).
Qed.

(** Replacing the runs of white space is splitting at them and joining the
    pieces with underscores. *)
Lemma underscore_runs_pieces skip s :
  underscore_runs skip s
  = if skip then join_underscore (pieces true s) else join_underscore (pieces false s).
Proof.
  revert skip. induction s as [|c s IH]; intros skip; [by destruct skip|].
  cbn [underscore_runs pieces]. destruct (is_white_space c).
  - rewrite (IH true). destruct skip; [by rewrite app_nil_l|].
    pose proof (pieces_nonempty true s). by destruct (pieces true s).
  - rewrite (IH false). pose proof (pieces_nonempty false s).
    assert (join_underscore (match pieces false s with
                             | piece :: others => (c :: piece) :: others
                             | [] => [[c]]
                             end) = c :: join_underscore (pieces false s)) as Hjoin.
    { destruct (pieces false s) as [|piece [|other others]]; done. }
    rewrite Hjoin. by destruct skip.
Qed.

Lemma replace_whitespace_runs_underscored s : replace_whitespace_runs s = underscored s.
Proof. apply (underscore_runs_pieces false). Qed.

(** C5.  For every player name without unpaired surrogates and a row that
    has an image: the bases are the non-empty ones among the trimmed name,
    its URL encoding, the name with white space underscored and the
    normalized name with white space underscored, each kept when no earlier
    one equals it up to case; the sources are the bases crossed with png,
    jpg, jpeg, webp, all extensions of a base before the next base.
    [applyAvatar] returns without throwing; while every load fails the image
    requests the sources one by one in that order; after the last failure
    (or at once, when there is no base) the image and its wrapper are hidden
    and the image has no [src], and further failures change nothing. *)
Theorem avatar_probes_in_order `{Unicode} `{Host} (els : AvatarElements) (img : Img)
    (name : jsstring) :
  avatar_img els = Some img →
  well_formed name = true →
  ∃ encoded els0,
    encodeURIComponent (trim name) = Ok encoded
    ∧ let bases :=
        first_occurrences toLowerCase
          (filter (λ b, b ≠ [])
             [trim name; encoded; underscored (trim name);
              underscored (normalizeName (VString (trim name)))]) in
      let sources :=
        bases ≫= λ base,
          (λ ext, str "./avatars/" ++ base ++ str "." ++ ext)
            <$> [str "png"; str "jpg"; str "jpeg"; str "webp"] in
      getAvatarBases (Some name) = Ok bases
      ∧ applyAvatar els (Some name) = Ok els0
      ∧ (∀ k source, sources !! k = Some source →
           ∃ img_k, avatar_img (failed_loads k els0) = Some img_k
                    ∧ img_src img_k = Some source ∧ img_hidden img_k = false)
      ∧ (∃ img_end, avatar_img (failed_loads (length sources) els0) = Some img_end
                    ∧ img_hidden img_end = true ∧ img_src img_end = None)
      ∧ avatar_wrapper_hidden (failed_loads (length sources) els0)
          = (λ _, true) <$> avatar_wrapper_hidden els
      ∧ ∀ k, length sources ≤ k →
          failed_loads k els0 = failed_loads (length sources) els0.
Proof.
  intros Himg Hname.
  destruct (encodeURIComponent_well_formed (trim name)) as [encoded Hencoded].
  { by apply trim_Forall, well_formed_Forall. }
  pose proof (getAvatarBases_first_occurrences name encoded Hencoded) as Hbases.
  rewrite !replace_whitespace_runs_underscored in Hbases.
  exists encoded. cbv zeta.
  set (bases := first_occurrences _ _) in *.
  change (bases ≫= _) with (avatar_sources bases).
  unfold applyAvatar. rewrite Himg, Hbases. cbn [bind].
  set (img0 := match img_avatarErrorHandler img with Some _ => _ | None => img end).
  assert (img_avatarErrorHandler img0 = None) as Hhandler.
  { subst img0. by destruct (img_avatarErrorHandler img) eqn:Hh. }
  destruct (avatar_sources bases) as [|first sources] eqn:Hsources.
  - (* no base: hidden at once *)
    eexists. split; [done|]. split; [done|]. split; [done|].
    assert (dispatch_error (hide_avatar img0 (avatar_wrapper_hidden els))
            = hide_avatar img0 (avatar_wrapper_hidden els)) as Hstay.
    { unfold dispatch_error, hide_avatar. simpl. by rewrite Hhandler. }
    split; [intros k source Hk; by rewrite lookup_nil in Hk|].
    split; [by eexists|]. split; [done|].
    intros k _. simpl. by apply failed_loads_stay.
  - set (alt := match name with [] => [] | c :: n => (c :: n) ++ str "'s avatar" end).
    exists (probing (first :: sources) alt (avatar_wrapper_hidden els) 0 first).
    split; [done|]. split; [done|]. split; [reflexivity|].
    split; [|split; [|split]].
    + intros k source Hk.
      rewrite (failed_loads_probing _ _ _ first k source) by done. by eexists.
    + rewrite (failed_loads_given_up _ _ _ first) by done. by eexists.
    + by rewrite (failed_loads_given_up _ _ _ first).
    + intros k Hk. replace k with (length (first :: sources) + (k - length (first :: sources)))
        at 1 by lia.
      rewrite failed_loads_add, (failed_loads_given_up _ _ _ first) by done.
      by apply failed_loads_stay.
Qed.

Lemma avatar_probes_in_order_witness :
  ∃ encoded els0,
    encodeURIComponent (trim sample_name) = Ok encoded
    ∧ applyAvatar sample_avatar (Some sample_name) = Ok els0
    ∧ avatar_wrapper_hidden (failed_loads 16 els0) = Some true.
Proof.
  destruct (avatar_probes_in_order sample_avatar sample_img sample_name)
    as (encoded & els0 & Hencoded & _ & Happly & _ & _ & Hwrapper & _).
  - reflexivity.
  - reflexivity.
  - exists encoded, els0. split; [done|]. split; [done|].
    vm_compute in Hencoded. injection Hencoded as <-. exact Hwrapper.
Defined.

(** On a name that holds an unpaired surrogate [encodeURIComponent] throws,
    and [applyAvatar] with it. *)
Lemma unpaired_surrogate_name_throws :
  well_formed [0xD83D%N] = false
  ∧ applyAvatar sample_avatar (Some [0xD83D%N]) = Throw URIError.
Proof. split; vm_compute; reflexivity. Qed.

(** ** Canonical ordering *)

Section canonical_ordering.
Context `{Unicode}.

Lemma passes_true c d :
  passes c d = true ↔ ccc c ≠ 0%N ∧ ccc d ≠ 0%N ∧ (ccc d < ccc c)%N.
Proof.
  unfold passes. rewrite !andb_true_iff, !bool_decide_eq_true, N.ltb_lt. tauto.
Qed.

Lemma passes_false c d :
  passes c d = false ↔ ccc c = 0%N ∨ ccc d = 0%N ∨ (ccc c ≤ ccc d)%N.
Proof.
  rewrite <- not_true_iff_false, passes_true.
  destruct (decide (ccc c = 0%N)), (decide (ccc d = 0%N)); try tauto.
  split; [intros Hno; right; right; lia|intros [?|[?|?]]; try done; lia].
Qed.

Lemma may_follow_stop c d r : passes c d = false → may_follow c (d :: r).
Proof.
  intros [Hc|[Hd|Hle]]%passes_false; simpl; [right; lia|by left|by right].
Qed.

Lemma may_follow_insert c d r :
  passes c d = true → may_follow d r → may_follow d (reorder_insert c r).
Proof.
  intros (Hc & Hd & Hlt)%passes_true Hr.
  destruct r as [|e r]; simpl; [right; lia|].
  destruct (passes c e); simpl; [done|right; lia].
Qed.

Lemma reorder_insert_ordered c r : is_ordered r → is_ordered (reorder_insert c r).
Proof.
  induction r as [|d r IH]; intros Hr; [done|].
  destruct Hr as [Hd Hr]. simpl. destruct (passes c d) eqn:Hpass.
  - split; [by apply may_follow_insert|by apply IH].
  - split; [by apply may_follow_stop|done].
Qed.

Lemma canonical_order_ordered s : is_ordered (canonical_order s).
Proof.
  induction s as [|c s IH]; [done|]. by apply reorder_insert_ordered.
Qed.

Lemma reorder_insert_stays c r : may_follow c r → reorder_insert c r = c :: r.
Proof.
  destruct r as [|d r]; [done|]. simpl. intros Hcd.
  assert (passes c d = false) as ->; [|done].
  apply passes_false. destruct Hcd; auto.
Qed.

(** A string in canonical order is left as it is. *)
Lemma canonical_order_fixed s : is_ordered s → canonical_order s = s.
Proof.
  induction s as [|c s IH]; intros Hs; [done|]. destruct Hs as [Hc Hs].
  simpl. rewrite IH by done. by apply reorder_insert_stays.
Qed.

Lemma reorder_insert_Permutation c r : reorder_insert c r ≡ₚ c :: r.
Proof.
  induction r as [|d r IH]; [done|].
  simpl. destruct (passes c d); [|done].
  rewrite IH. apply Permutation_swap.
Qed.

Lemma canonical_order_Permutation s : canonical_order s ≡ₚ s.
Proof.
  induction s as [|c s IH]; [done|].
  simpl. by rewrite reorder_insert_Permutation, IH.
Qed.

Lemma canonical_order_Forall (P : N → Prop) s : Forall P s → Forall P (canonical_order s).
Proof. intros Hs. by rewrite canonical_order_Permutation. Qed.

Lemma canonical_order_elem c s : c ∈ canonical_order s ↔ c ∈ s.
Proof. by rewrite canonical_order_Permutation. Qed.

(** Code points that correspond with equal combining classes are reordered
    alike. *)
Lemma reorder_insert_Forall2 (R : N → N → Prop) c c' r r' :
  (∀ a b, R a b → ccc a = ccc b) →
  R c c' → Forall2 R r r' → Forall2 R (reorder_insert c r) (reorder_insert c' r').
Proof.
  intros Hccc Hc Hr. induction Hr as [|d d' r r' Hd Hr IH]; [by repeat constructor|].
  simpl.
  assert (passes c d = passes c' d') as <-.
  { unfold passes. by rewrite (Hccc _ _ Hc), (Hccc _ _ Hd). }
  destruct (passes c d); by repeat constructor.
Qed.

Lemma canonical_order_Forall2 (R : N → N → Prop) s s' :
  (∀ a b, R a b → ccc a = ccc b) →
  Forall2 R s s' → Forall2 R (canonical_order s) (canonical_order s').
Proof.
  intros Hccc Hs. induction Hs as [|c c' s s' Hc Hs IH]; [constructor|].
  simpl. by apply reorder_insert_Forall2.
Qed.

Lemma may_follow_Forall2 a a' s s' :
  ccc a = ccc a' → Forall2 (λ a b, ccc a = ccc b) s s' → may_follow a s → may_follow a' s'.
Proof. intros Ha [|b b' ? ? Hb _]; [done|]. simpl. by rewrite Ha, Hb. Qed.

Lemma is_ordered_Forall2 s s' :
  Forall2 (λ a b, ccc a = ccc b) s s' → is_ordered s → is_ordered s'.
Proof.
  induction 1 as [|a a' s s' Ha Hs IH]; [done|].
  intros [Hfollow Hord]. split; [by eapply may_follow_Forall2|by apply IH].
Qed.

Lemma is_ordered_app s1 s2 : is_ordered (s1 ++ s2) → is_ordered s1 ∧ is_ordered s2.
Proof.
  induction s1 as [|a s1 IH]; [done|]. intros [Hfollow Hs].
  destruct (IH Hs) as [H1 H2]. split; [|done]. split; [|done].
  by destruct s1.
Qed.

(** *** Removing marks commutes with ordering

    as long as every mark removed has a non-zero combining class. *)

Lemma strip_cons c s :
  without_marks (c :: s) =
    if is_combining_diacritical c then without_marks s
    else c :: without_marks s.
Proof.
  unfold without_marks. rewrite filter_cons.
  by destruct (is_combining_diacritical c).
Qed.

Lemma strip_reorder_insert_removed c r :
  is_combining_diacritical c = true →
  without_marks (reorder_insert c r) = without_marks r.
Proof.
  intros Hc. induction r as [|d r IH]; simpl.
  - by rewrite strip_cons, Hc.
  - destruct (passes c d).
    + by rewrite !(strip_cons d), IH.
    + by rewrite (strip_cons c), Hc.
Qed.

(** [c] stays in front of what is left of an ordered run it could not
    enter. *)
Lemma reorder_insert_strip_stays c d r :
  (ccc c = 0%N ∨ (ccc c ≤ ccc d)%N) → ccc d ≠ 0%N →
  is_ordered (d :: r) →
  Forall (λ e, is_combining_diacritical e = true → ccc e ≠ 0%N) r →
  reorder_insert c (without_marks r) = c :: without_marks r.
Proof.
  revert d. induction r as [|e r IH]; intros d Hcd Hd [Hde Hord] Hr; [done|].
  apply Forall_cons in Hr as [He Hr]. simpl in Hde.
  rewrite strip_cons. destruct (is_combining_diacritical e) eqn:Hmark.
  - apply (IH e); [|by apply He|done|done].
    destruct Hcd as [?|?]; [by left|].
    destruct Hde as [?|?]; [by destruct He|right; lia].
  - apply reorder_insert_stays. simpl.
    destruct Hcd as [?|?]; [right; lia|]. destruct Hde as [?|?]; [by left|right; lia].
Qed.

Lemma strip_reorder_insert_kept c r :
  is_combining_diacritical c = false →
  is_ordered r →
  Forall (λ e, is_combining_diacritical e = true → ccc e ≠ 0%N) r →
  without_marks (reorder_insert c r) = reorder_insert c (without_marks r).
Proof.
  intros Hc. induction r as [|d r IH]; intros Hord Hr.
  - simpl. by rewrite strip_cons, Hc.
  - apply Forall_cons in Hr as [Hd Hr]. destruct Hord as [Hfollow Hord].
    simpl. destruct (passes c d) eqn:Hpass.
    + rewrite !(strip_cons d). destruct (is_combining_diacritical d).
      * by apply IH.
      * simpl. rewrite Hpass. f_equal. by apply IH.
    + rewrite (strip_cons c), Hc, (strip_cons d).
      destruct (is_combining_diacritical d) eqn:Hmark.
      * symmetry. apply (reorder_insert_strip_stays c d r); [|by apply Hd|done|done].
        apply passes_false in Hpass as [?|[Hd0|?]]; [by left| |by right].
        by destruct Hd.
      * simpl. by rewrite Hpass.
Qed.

Lemma strip_canonical_order s :
  Forall (λ e, is_combining_diacritical e = true → ccc e ≠ 0%N) s →
  without_marks (canonical_order s) = canonical_order (without_marks s).
Proof.
  induction 1 as [|c s Hc Hs IH]; [done|]. simpl.
  rewrite strip_cons. destruct (is_combining_diacritical c) eqn:Hmark.
  - by rewrite strip_reorder_insert_removed.
  - rewrite strip_reorder_insert_kept;
      [|done|apply canonical_order_ordered|by apply canonical_order_Forall].
    by rewrite IH.
Qed.

End canonical_ordering.

(** ** Trimming *)

Lemma trimStart_suffix s : ∃ x, s = x ++ trimStart s.
Proof.
  induction s as [|c s [x IH]]; [by exists []|]. simpl.
  destruct (is_white_space c); [|by exists []].
  exists (c :: x). simpl. by rewrite <- IH.
Qed.

Lemma trimEnd_prefix s : ∃ y, s = trimEnd s ++ y.
Proof.
  unfold trimEnd. destruct (trimStart_suffix (reverse s)) as [x Hx].
  exists (reverse x). by rewrite <- reverse_app, <- Hx, reverse_involutive.
Qed.

Lemma trim_infix s : ∃ x y, s = x ++ trim s ++ y.
Proof.
  unfold trim. destruct (trimStart_suffix s) as [x Hx].
  destruct (trimEnd_prefix (trimStart s)) as [y Hy].
  exists x, y. by rewrite <- Hy.
Qed.

Lemma trimStart_clean s : starts_clean (trimStart s).
Proof.
  induction s as [|c s IH]; [done|]. simpl.
  by destruct (is_white_space c) eqn:Hc.
Qed.

Lemma trimStart_fixed s : starts_clean s → trimStart s = s.
Proof. destruct s as [|c s]; [done|]. simpl. by intros ->. Qed.

Lemma trimEnd_clean s : starts_clean s → starts_clean (trimEnd s).
Proof.
  intros Hs. destruct (trimEnd_prefix s) as [y Hy].
  destruct (trimEnd s) as [|c t]; [done|]. by rewrite Hy in Hs.
Qed.

Lemma trimEnd_idemp s : trimEnd (trimEnd s) = trimEnd s.
Proof.
  unfold trimEnd. rewrite reverse_involutive.
  by rewrite (trimStart_fixed (trimStart _)) by apply trimStart_clean.
Qed.

Lemma trim_idemp s : trim (trim s) = trim s.
Proof.
  unfold trim. rewrite (trimStart_fixed (trimEnd _)).
  - apply trimEnd_idemp.
  - apply trimEnd_clean, trimStart_clean.
Qed.

Lemma is_ordered_trim `{Unicode} s : is_ordered s → is_ordered (trim s).
Proof.
  intros Hs. destruct (trim_infix s) as (x & y & Hxy). rewrite Hxy in Hs.
  apply is_ordered_app in Hs as [_ Hs]. by apply is_ordered_app in Hs as [Hs _].
Qed.

(** ** Lower case *)

Section lower_case.
Context `{Unicode} `{!UnicodeLaws}.

Lemma lower_from_cons before c s :
  lower_from before (c :: s) =
    (if (c =? capital_sigma)%N
     then (if final_sigma before s then [small_final_sigma] else [small_sigma])
     else lower_char c) ++ lower_from (c :: before) s.
Proof. reflexivity. Qed.

(** A string of lower-case code points is its own lower case. *)
Lemma lower_from_fixed before s :
  Forall (λ c, lower_char c = [c] ∧ c ≠ capital_sigma) s → lower_from before s = s.
Proof.
  intros Hs. revert before. induction Hs as [|c s [Hc Hsigma] Hs IH]; intros before; [done|].
  rewrite lower_from_cons, IH, Hc.
  by apply N.eqb_neq in Hsigma as ->.
Qed.

(** When no capital sigma stands in final position the mapping does not
    look at the context. *)
Lemma lower_from_plain before s :
  sigmas_not_final before s = true → lower_from before s = s ≫= lower_plain.
Proof.
  revert before. induction s as [|c s IH]; intros before Hs; [done|].
  simpl in Hs. apply andb_true_iff in Hs as [Hc Hs].
  rewrite lower_from_cons, bind_cons, IH by done. f_equal.
  unfold lower_plain. destruct (c =? capital_sigma)%N; [|done].
  by destruct (final_sigma before s).
Qed.

Lemma lowered_sigma x :
  x = small_sigma ∨ x = small_final_sigma → lowered capital_sigma x.
Proof.
  intros Hx. destruct (sigma_forms x Hx) as (Hdecomp & Hccc & Hlower).
  repeat split; try done; by destruct Hx as [-> | ->].
Qed.

(** The lower case of a string of code points without decomposition: code
    point by code point, with the same combining classes. *)
Lemma lower_from_lowered before s :
  Forall (λ c, decomp c = [c]) s → Forall2 lowered s (lower_from before s).
Proof.
  intros Hs. revert before. induction Hs as [|c s Hc Hs IH]; intros before; [constructor|].
  rewrite lower_from_cons. destruct (N.eqb_spec c capital_sigma) as [->|Hsigma].
  - destruct (final_sigma before s); simpl;
      (constructor; [apply lowered_sigma; by (left + right)|apply IH]).
  - destruct (lower_of_stable c Hc)
      as (d & -> & Hdecomp & Hccc & Hlower & Hd & Hmark & Hsurrogate).
    simpl. constructor; [|apply IH]. by repeat split.
Qed.

End lower_case.

(** ** Code units and code points *)

Lemma high_surrogate_is_surrogate c : is_high_surrogate c = true → is_surrogate c = true.
Proof.
  unfold is_high_surrogate, is_surrogate.
  intros [Hlo Hhi]%andb_true_iff. apply N.leb_le in Hlo, Hhi.
  apply andb_true_iff. split; apply N.leb_le; lia.
Qed.

Lemma Forall_well_formed s :
  Forall (λ c, is_surrogate c = false) s → well_formed s = true.
Proof.
  unfold well_formed. induction 1 as [|c s Hc Hs IH]; [done|].
  simpl. by rewrite Hc, IH.
Qed.

Lemma code_points_cons h l s :
  code_points (h :: l :: s) =
    if is_high_surrogate h && is_low_surrogate l
    then (0x10000 + (h - 0xD800) * 0x400 + (l - 0xDC00))%N :: code_points s
    else h :: code_points (l :: s).
Proof. reflexivity. Qed.

(** Without surrogates every code unit is a code point. *)
Lemma code_points_well_formed s :
  Forall (λ c, is_surrogate c = false) s → code_points s = s.
Proof.
  induction 1 as [|h s Hh Hs IH]; [done|].
  destruct s as [|l s]; [done|]. rewrite code_points_cons.
  destruct (is_high_surrogate h) eqn:Hhigh.
  { apply high_surrogate_is_surrogate in Hhigh. congruence. }
  cbn [andb]. by rewrite IH.
Qed.

(** ** Normalized names *)

Section normalize_name.
Context `{Unicode} `{!UnicodeLaws} `{Host}.

Lemma normalizeName_string s :
  normalizeName (VString s)
  = trim (toLowerCase (strip_diacriticals (canonical_order (s ≫= decomp)))).
Proof. reflexivity. Qed.

Lemma decomposition_stable s : Forall (λ c, decomp c = [c]) (s ≫= decomp).
Proof.
  apply Forall_bind, Forall_forall. intros c _.
  apply Forall_forall. intros d Hd. by eapply decomp_full.
Qed.

Lemma decomposition_well_formed s :
  well_formed s = true → Forall (λ c, is_surrogate c = false) (s ≫= decomp).
Proof.
  intros Hs%well_formed_Forall. apply Forall_bind.
  eapply Forall_impl; [exact Hs|]. intros c Hc.
  apply Forall_forall. intros d Hd. by eapply decomp_well_formed.
Qed.

Lemma bind_decomp_fixed s : Forall (λ c, decomp c = [c]) s → s ≫= decomp = s.
Proof. induction 1 as [|c s Hc Hs IH]; [done|]. by rewrite bind_cons, Hc, IH. Qed.

Lemma strip_Forall (P : N → Prop) s : Forall P s → Forall P (without_marks s).
Proof.
  rewrite !Forall_forall. intros Hs c Hc. apply Hs.
  unfold without_marks in Hc. by apply list_elem_of_filter in Hc as [_ ?].
Qed.

Lemma strip_clean s : Forall (λ c, is_combining_diacritical c = false) (without_marks s).
Proof.
  apply Forall_forall. intros c Hc.
  unfold without_marks in Hc. by apply list_elem_of_filter in Hc as [? _].
Qed.

Lemma strip_fixed s :
  Forall (λ c, is_combining_diacritical c = false) s → without_marks s = s.
Proof. induction 1 as [|c s Hc Hs IH]; [done|]. by rewrite strip_cons, Hc, IH. Qed.

(** On a string without surrogates the removal of the marks joins no
    surrogates. *)
Lemma strip_well_formed s :
  Forall (λ c, is_surrogate c = false) s → strip_diacriticals s = without_marks s.
Proof. intros Hs. by apply code_points_well_formed, strip_Forall. Qed.

Lemma normalizeName_well_formed s :
  well_formed s = true →
  normalizeName (VString s)
  = trim (toLowerCase (without_marks (canonical_order (s ≫= decomp)))).
Proof.
  intros Hs. rewrite normalizeName_string, strip_well_formed; [done|].
  by apply canonical_order_Forall, decomposition_well_formed.
Qed.

(** Without the joiner, every combining diacritical mark of the
    decomposition has a non-zero class. *)
Lemma no_zero_class_marks s :
  combining_grapheme_joiner ∉ s →
  Forall (λ e, is_combining_diacritical e = true → ccc e ≠ 0%N) (s ≫= decomp).
Proof.
  intros Hs. apply Forall_forall. intros e He Hmark Hzero.
  apply list_elem_of_bind in He as (c & He & Hc).
  rewrite (zero_class_mark e Hmark Hzero) in He.
  by rewrite (joiner_decomp c He) in Hc.
Qed.

Lemma normalizeName_letters s :
  well_formed s = true → combining_grapheme_joiner ∉ s →
  normalizeName (VString s) = trim (toLowerCase (canonical_order (base_letters s))).
Proof.
  intros Hwf Hs. rewrite normalizeName_well_formed by done.
  by rewrite strip_canonical_order by by apply no_zero_class_marks.
Qed.

(** A normal form is a fixed point. *)
Lemma normalizeName_fixed t : normal_form t → normalizeName (VString t) = t.
Proof.
  intros (Hchars & Hordered & Htrim).
  assert (well_formed t = true) as Hwf.
  { apply Forall_well_formed. eapply Forall_impl; [exact Hchars|].
    by intros c (_ & _ & _ & _ & ?). }
  rewrite normalizeName_well_formed by done.
  rewrite bind_decomp_fixed by (eapply Forall_impl; [done|]; by intros c (? & _)).
  rewrite canonical_order_fixed by done.
  rewrite strip_fixed by (eapply Forall_impl; [done|]; by intros c (_ & _ & _ & ? & _)).
  unfold toLowerCase.
  rewrite lower_from_fixed by (eapply Forall_impl; [done|]; by intros c (_ & ? & ? & _)).
  done.
Qed.

(** The result of [normalizeName] on a string without unpaired surrogate
    and without joiner is a normal form. *)
Lemma normalizeName_normal_form s :
  well_formed s = true → combining_grapheme_joiner ∉ s →
  normal_form (normalizeName (VString s)).
Proof.
  intros Hwf Hs. rewrite normalizeName_letters by done.
  set (z := canonical_order (base_letters s)).
  assert (Forall (λ c, decomp c = [c]) z) as Hstable.
  { apply canonical_order_Forall, strip_Forall, decomposition_stable. }
  assert (Forall (λ c, is_combining_diacritical c = false) z) as Hclean.
  { apply canonical_order_Forall, strip_clean. }
  assert (Forall (λ c, is_surrogate c = false) z) as Hscalar.
  { by apply canonical_order_Forall, strip_Forall, decomposition_well_formed. }
  assert (is_ordered z) as Hordered by apply canonical_order_ordered.
  pose proof (lower_from_lowered [] z Hstable) as Hlowered.
  fold (toLowerCase z) in Hlowered.
  split; [|split].
  - apply trim_Forall.
    assert (Forall (λ c, is_combining_diacritical c = false ∧ is_surrogate c = false) z)
      as Hboth by (by apply Forall_and).
    eapply (Forall2_Forall_r _ _ _ _ Hlowered), Forall_impl; [exact Hboth|].
    intros c [Hc Hc'] d (_ & ? & ? & ? & Hmark & Hsurrogate). auto 10.
  - apply is_ordered_trim. eapply is_ordered_Forall2; [|exact Hordered].
    eapply Forall2_impl; [exact Hlowered|]. by intros c d (? & _).
  - apply trim_idemp.
Qed.

(** C10 (amended).  On every string that holds no unpaired surrogate and no
    combining grapheme joiner (U+034F), [normalizeName] is idempotent. *)
Theorem normalizeName_idempotent_without_joiner s :
  well_formed s = true → combining_grapheme_joiner ∉ s →
  normalizeName (VString (normalizeName (VString s))) = normalizeName (VString s).
Proof. intros Hwf Hs. by apply normalizeName_fixed, normalizeName_normal_form. Qed.

(** *** Case and marks *)

(** A small letter and its capital have one lower case and one combining
    class. *)
Lemma case_pair_same_lower c c' :
  decomp c' = [c'] → case_pair c c' → same_lower c c' ∧ same_lower c' c.
Proof.
  intros Hstable (Hupper & Hlower & Hsmall).
  destruct (lower_of_stable c' Hstable) as (d & Hd & _ & Hccc & _).
  rewrite Hlower in Hd. injection Hd as <-.
  assert (lower_plain c = lower_plain c') as Hplain.
  { unfold lower_plain.
    destruct (N.eqb_spec c capital_sigma) as [->|Hc].
    - rewrite capital_sigma_lower in Hsmall. by injection Hsmall.
    - destruct (N.eqb_spec c' capital_sigma) as [->|Hc']; [|congruence].
      rewrite capital_sigma_lower in Hlower. injection Hlower as <-.
      destruct (sigma_forms small_sigma) as (_ & _ & Hsigma); [by left|].
      exact Hsigma. }
  by repeat split.
Qed.

Lemma same_letter_same_lower c c' :
  decomp c = [c] → decomp c' = [c'] → same_letter c c' → same_lower c c'.
Proof.
  intros Hc Hc' [->|[Hpair|Hpair]]; [done| |].
  - by destruct (case_pair_same_lower c c' Hc' Hpair).
  - by destruct (case_pair_same_lower c' c Hc Hpair).
Qed.

Lemma base_letters_stable s : Forall (λ c, decomp c = [c]) (base_letters s).
Proof. apply strip_Forall, decomposition_stable. Qed.

(** Names that differ in case and marks only have corresponding letters. *)
Lemma same_letters_same_lower s t :
  same_letters s t → Forall2 same_lower (base_letters s) (base_letters t).
Proof.
  unfold same_letters. intros Hst.
  pose proof (base_letters_stable s) as Hs. pose proof (base_letters_stable t) as Ht.
  induction Hst as [|c c' x y Hc _ IH]; [constructor|].
  apply Forall_cons in Hs as [Hstable Hs]. apply Forall_cons in Ht as [Hstable' Ht].
  constructor; [by apply same_letter_same_lower|by apply IH].
Qed.

Lemma same_lower_bind s t :
  Forall2 same_lower s t → s ≫= lower_plain = t ≫= lower_plain.
Proof.
  induction 1 as [|c c' s t [Hc _] _ IH]; [done|]. by rewrite !bind_cons, Hc, IH.
Qed.

(** C3 (amended).  For names without unpaired surrogate and without
    combining grapheme joiner (U+034F), among whose letters no Greek capital
    sigma stands in final position: two names whose letters are, one by one,
    the same or a small letter and its capital (the letters being the code
    points of the compatibility decomposition without the combining
    diacritical marks) have the same [normalizeName], so the comparison of
    the highlight succeeds. *)
Theorem normalizeName_ignores_case_and_marks s t :
  same_letters s t → plain_name s → plain_name t →
  normalizeName (VString s) = normalizeName (VString t)
  ∧ (t ≠ [] → is_highlighted (VString t) s = true).
Proof.
  intros Hst (Hws & Hjs & Hs) (Hwt & Hjt & Ht).
  assert (normalizeName (VString s) = normalizeName (VString t)) as Hsame.
  { rewrite !normalizeName_letters by done. f_equal. unfold toLowerCase.
    rewrite !lower_from_plain by done.
    apply same_lower_bind, canonical_order_Forall2; [by intros a b [_ ?]|].
    by apply same_letters_same_lower. }
  split; [done|]. intros Hne. unfold is_highlighted.
  apply andb_true_iff. split; [|by apply bool_decide_eq_true].
  simpl. by apply bool_decide_eq_true.
Qed.

End normalize_name.

(** ** The excerpt satisfies the laws *)

Lemma excerpt_lookup_key c e : excerpt !! c = Some e → c ∈ excerpt_keys.
Proof.
  intros Hc.
  assert (excerpt
          = list_to_map (other_entries ++ capital_entries ++ small_entries ++ mark_entries))
    as Hmap by (vm_compute; reflexivity).
  rewrite Hmap in Hc. apply elem_of_list_to_map_2 in Hc.
  change excerpt_keys
    with ((other_entries ++ capital_entries ++ small_entries ++ mark_entries).*1).
  apply list_elem_of_fmap. by exists (c, e).
Qed.

Lemma excerpt_outside c :
  excerpt !! c = None → ccc c = 0%N ∧ decomp c = [c] ∧ lower_char c = [c].
Proof. intros Hc. unfold ccc, decomp, lower_char. simpl. by rewrite Hc. Qed.

(** A property of code points holds everywhere when it holds outside the
    excerpt and for each code point of the excerpt. *)
Lemma excerpt_cases (P : N → Prop) :
  (∀ c, excerpt !! c = None → P c) → Forall P excerpt_keys → ∀ c, P c.
Proof.
  intros Houtside Hkeys c. destruct (excerpt !! c) as [e|] eqn:Hc; [|by apply Houtside].
  eapply Forall_forall; [exact Hkeys|]. by eapply excerpt_lookup_key.
Qed.

Lemma range_elem lo count c : (lo ≤ c < lo + count)%N → c ∈ range lo count.
Proof.
  intros Hc. unfold range. apply list_elem_of_fmap.
  exists (N.to_nat (c - lo)). split; [lia|].
  apply elem_of_seq. lia.
Qed.

(** The excerpt holds the whole block of combining diacritical marks. *)
Lemma excerpt_marks c : is_combining_diacritical c = true → is_Some (excerpt !! c).
Proof.
  intros [Hlo Hhi]%andb_true_iff. apply N.leb_le in Hlo, Hhi.
  assert (Forall (λ c, is_Some (excerpt !! c)) (range 0x300 112)) as Hblock.
  { apply (bool_decide_unpack _). vm_compute. exact I. }
  rewrite Forall_forall in Hblock. apply Hblock, range_elem. lia.
Qed.

Lemma excerpt_outside_no_mark c : excerpt !! c = None → is_combining_diacritical c = false.
Proof.
  intros Hc. destruct (is_combining_diacritical c) eqn:Hmark; [|done].
  apply excerpt_marks in Hmark as [e He]. congruence.
Qed.

Lemma excerpt_outside_no_sigma c : excerpt !! c = None → c ≠ capital_sigma.
Proof. intros Hc ->. vm_compute in Hc. discriminate. Qed.

Lemma lower_ok_spec `{Unicode} c :
  lower_ok c = true → decomp c = [c] →
  ∃ d, lower_char c = [d] ∧ decomp d = [d] ∧ ccc d = ccc c ∧ lower_char d = [d]
       ∧ d ≠ capital_sigma
       ∧ (is_combining_diacritical c = false → is_combining_diacritical d = false)
       ∧ (is_surrogate c = false → is_surrogate d = false).
Proof.
  unfold lower_ok. intros Hok Hc. rewrite (bool_decide_eq_true_2 _ Hc) in Hok.
  cbn [implb] in Hok.
  destruct (lower_char c) as [|d [|]]; try done. exists d.
  repeat (apply andb_true_iff in Hok as [Hok ?]).
  repeat match goal with
         | Hb : bool_decide _ = true |- _ => apply bool_decide_eq_true in Hb
         end.
  repeat split; try done.
  - intros Hmark. rewrite Hmark in *. simpl in *. by destruct (is_combining_diacritical d).
  - intros Hsurrogate. rewrite Hsurrogate in *. simpl in *. by destruct (is_surrogate d).
Qed.

#[export] Instance excerpt_laws : UnicodeLaws.
Proof.
  split.
  - (* decomp_full *)
    intros c. apply Forall_forall. revert c. apply excerpt_cases.
    + intros c Hc. destruct (excerpt_outside c Hc) as (_ & Hdecomp & _).
      rewrite Hdecomp. by repeat constructor.
    + apply (bool_decide_unpack _). vm_compute. exact I.
  - (* decomp_well_formed *)
    intros c d Hd Hc. revert d Hd. apply Forall_forall. revert c Hc.
    apply (excerpt_cases (λ c, is_surrogate c = false →
                               Forall (λ d, is_surrogate d = false) (decomp c))).
    + intros c Hc Hs. destruct (excerpt_outside c Hc) as (_ & -> & _). by repeat constructor.
    + apply (bool_decide_unpack _). vm_compute. exact I.
  - (* lower_of_stable *)
    intros c. apply lower_ok_spec. revert c. apply excerpt_cases.
    + intros c Hc. destruct (excerpt_outside c Hc) as (Hccc & Hdecomp & Hlower).
      unfold lower_ok. rewrite Hlower, Hdecomp.
      rewrite !bool_decide_eq_true_2 by (done || by apply excerpt_outside_no_sigma).
      by destruct (is_combining_diacritical c), (is_surrogate c).
    + apply (bool_decide_unpack _). vm_compute. exact I.
  - (* capital_sigma_lower *)
    reflexivity.
  - (* sigma_forms *)
    intros x [-> | ->]; vm_compute; done.
  - (* zero_class_mark *)
    apply (excerpt_cases (λ c, is_combining_diacritical c = true → ccc c = 0%N →
                               c = combining_grapheme_joiner)).
    + intros c Hc Hmark. by rewrite excerpt_outside_no_mark in Hmark.
    + apply (bool_decide_unpack _). vm_compute. exact I.
  - (* joiner_decomp *)
    apply (excerpt_cases (λ c, combining_grapheme_joiner ∈ decomp c →
                               c = combining_grapheme_joiner)).
    + intros c Hc. destruct (excerpt_outside c Hc) as (_ & -> & _).
      by intros ->%list_elem_of_singleton.
    + apply (bool_decide_unpack _). vm_compute. exact I.
Qed.

(** ** The claims about [normalizeName] on the excerpt *)

(** The example of the specification. *)
Example normalizeName_Jose : normalizeName (VString Jose) = str "jose".
Proof. reflexivity. Qed.

Lemma Jose_same_letters : same_letters Jose jose.
Proof. apply (bool_decide_unpack _). vm_compute. exact I. Qed.

Lemma normalizeName_ignores_case_and_marks_witness :
  normalizeName (VString Jose) = normalizeName (VString jose)
  ∧ (jose ≠ [] → is_highlighted (VString jose) Jose = true).
Proof.
  apply normalizeName_ignores_case_and_marks.
  - apply (bool_decide_unpack _). vm_compute. exact I.
  - split; [reflexivity|]. split; [|reflexivity].
    apply (bool_decide_unpack _). vm_compute. exact I.
  - split; [reflexivity|]. split; [|reflexivity].
    apply (bool_decide_unpack _). vm_compute. exact I.
Defined.

(** C3 (as stated, refuted).  The two spellings differ only in letter case,
    letter by letter a capital sigma and its small letter, but the capital
    sigma at the end of the word becomes a final sigma: the normalized names
    differ. *)
Lemma final_sigma_is_case_sensitive :
  same_letters SAS_capitals sas_small
  ∧ normalizeName (VString SAS_capitals) ≠ normalizeName (VString sas_small).
Proof.
  split.
  - apply (bool_decide_unpack _). vm_compute. exact I.
  - vm_compute. discriminate.
Qed.

(** A capital sigma that is not in final position is no obstacle. *)
Example inner_sigma_ignores_case :
  normalizeName (VString [0x3A3; 0x391]%N) = normalizeName (VString [0x3C3; 0x3B1]%N).
Proof. reflexivity. Qed.

(** The joiner is a combining diacritical mark too: with and without it the
    normalized names differ. *)
Lemma joiner_is_not_ignored :
  same_letters joined [0x61; 0x1DC0; 0x1DC2]%N
  ∧ normalizeName (VString joined) ≠ normalizeName (VString [0x61; 0x1DC0; 0x1DC2]%N).
Proof.
  split.
  - apply (bool_decide_unpack _). vm_compute. exact I.
  - vm_compute. discriminate.
Qed.

(** Letters that are not the lower case of their capital: the upper case of
    the dotless i is I, which lowers to i, and the upper case of the sharp s
    is SS, which lowers to ss.  The words and their upper case have different
    normalized names. *)
Lemma dotless_i_is_case_sensitive :
  kir_small ≫= upper_char = KIR_capitals
  ∧ normalizeName (VString kir_small) ≠ normalizeName (VString KIR_capitals).
Proof. split; [reflexivity|]. vm_compute. discriminate. Qed.

Lemma sharp_s_is_case_sensitive :
  strasse_small ≫= upper_char = STRASSE_capitals
  ∧ normalizeName (VString strasse_small) ≠ normalizeName (VString STRASSE_capitals).
Proof. split; [reflexivity|]. vm_compute. discriminate. Qed.

(** C10 (as stated, refuted).  The joiner keeps the two marks in their
    order and is then removed; the second pass puts the mark of class 220 in
    front of the one of class 230. *)
Lemma normalizeName_not_idempotent :
  normalizeName (VString (normalizeName (VString joined))) ≠ normalizeName (VString joined).
Proof. vm_compute. discriminate. Qed.

(** Unpaired surrogates around a mark: the first pass removes the mark and
    leaves the mathematical bold capital A, which the second pass decomposes
    and lower-cases to a. *)
Lemma split_pair_is_not_normalized :
  normalizeName (VString split_pair) = [0x1D400%N]
  ∧ normalizeName (VString (normalizeName (VString split_pair))) = str "a".
Proof. split; reflexivity. Qed.

Lemma normalizeName_idempotent_without_joiner_witness :
  normalizeName (VString (normalizeName (VString Jose))) = normalizeName (VString Jose).
Proof.
  apply normalizeName_idempotent_without_joiner.
  - reflexivity.
  - apply (bool_decide_unpack _). vm_compute. exact I.
Defined.

(** ** Reading the token of the URL *)

Lemma decode_from_URIError n pending missing s e :
  length s ≤ n → decode_from pending missing s = Throw e → e = URIError.
Proof.
  revert pending missing s. induction n as [|n IH]; intros pending missing s Hn.
  - destruct s; [|simpl in Hn; lia]. destruct missing; simpl; congruence.
  - destruct missing as [|m].
    + destruct s as [|c rest]; [simpl; congruence|]. cbn [decode_from].
      destruct (c =? percent)%N.
      * destruct rest as [|h [|l rest']]; [congruence..|].
        destruct (parse_hex_octet h l) as [b|]; [|congruence].
        destruct (b <? 128)%N.
        -- destruct (decode_from [] 0 rest') eqn:Hrest; simpl; [congruence|].
           intros [= <-]. eapply (IH _ _ rest'); [|exact Hrest]. simpl in Hn. lia.
        -- destruct (utf8_sequence_length b); [|congruence].
           apply IH. simpl in Hn. lia.
      * destruct (decode_from [] 0 rest) eqn:Hrest; simpl; [congruence|].
        intros [= <-]. eapply (IH _ _ rest); [|exact Hrest]. simpl in Hn. lia.
    + destruct s as [|c [|h [|l rest']]]; cbn [decode_from]; [congruence..|].
      destruct (c =? percent)%N; [|congruence].
      destruct (parse_hex_octet h l) as [b|]; [|congruence].
      destruct m.
      * destruct (utf8_decode_sequence _); [|congruence].
        destruct (decode_from [] 0 rest') eqn:Hrest; simpl; [congruence|].
        intros [= <-]. eapply (IH _ _ rest'); [|exact Hrest]. simpl in Hn. lia.
      * apply IH. simpl in Hn. lia.
Qed.

Lemma decodeURIComponent_URIError s e : decodeURIComponent s = Throw e → e = URIError.
Proof. apply (decode_from_URIError (length s)). done. Qed.










(** A plus sign written as [%2B] is read as a space. *)
Example escaped_plus_is_a_space :
  getGuestTokenFromUrl (str "?token=a%2Bb") = Ok (Some (str "a b")).
Proof. vm_compute. reflexivity. Qed.

(** X1.  A token read from the URL is never empty and has no white space at
    either end. *)
Theorem guest_token_is_trimmed_nonempty search token :
  getGuestTokenFromUrl search = Ok (Some token) → token ≠ [] ∧ trim token = token.
Proof.
  rewrite getGuestTokenFromUrl_first_present.
  destruct (first_present _ _) as [raw|]; [|done].
  case_bool_decide; [done|].
  destruct (decodeURIComponent _) as [decoded|]; simpl; [|done].
  case_bool_decide as Hempty; [done|]. intros [= <-]. split; [done|apply trim_idemp].
Qed.

(** X2.  Reading the token throws nothing but a URIError, and only when the first
    token parameter that is present holds, with its plus signs replaced by
    spaces, a text [decodeURIComponent] rejects. *)
Theorem guest_token_throws_URIError search e :
  getGuestTokenFromUrl search = Throw e →
  e = URIError
  ∧ ∃ raw, first_present (URLSearchParams search) token_parameters = Some raw
           ∧ decodeURIComponent (replace_plus raw) = Throw URIError.
Proof.
  rewrite getGuestTokenFromUrl_first_present.
  destruct (first_present _ _) as [raw|]; [|done].
  case_bool_decide; [done|].
  destruct (decodeURIComponent _) as [decoded|e'] eqn:Hdec; simpl.
  - by case_bool_decide.
  - intros [= <-]. pose proof (decodeURIComponent_URIError _ _ Hdec) as ->. eauto.
Qed.

Lemma ascii_not_surrogate c : is_ascii c = true → is_surrogate c = false.
Proof.
  unfold is_ascii, is_surrogate. intros Hc%N.ltb_lt.
  apply andb_false_iff. left. apply N.leb_gt. lia.
Qed.

Lemma to_usv_ascii s : Forall (λ c, is_ascii c = true) s → to_usv s = s.
Proof.
  unfold to_usv. induction 1 as [|c s Hc _ IH]; [done|].
  rewrite fmap_cons, IH. by rewrite (ascii_not_surrogate c Hc).
Qed.

Lemma utf8_encode_ascii s : Forall (λ c, is_ascii c = true) s → s ≫= utf8_encode = s.
Proof.
  induction 1 as [|c s Hc _ IH]; [done|].
  rewrite bind_cons, IH. unfold utf8_encode. unfold is_ascii in Hc. by rewrite Hc.
Qed.

Lemma split_on_absent sep s : sep ∉ s → split_on sep s = [s].
Proof.
  induction s as [|c s IH]; [done|]. intros Hsep. simpl.
  apply not_elem_of_cons in Hsep as [Hc Hs].
  rewrite (proj2 (N.eqb_neq c sep)) by done. by rewrite IH.
Qed.

Lemma split_first_app sep name value :
  sep ∉ name → split_first sep (name ++ sep :: value) = (name, Some value).
Proof.
  induction name as [|c name IH]; intros Hsep; simpl.
  - by rewrite N.eqb_refl.
  - apply not_elem_of_cons in Hsep as [Hc Hs].
    rewrite (proj2 (N.eqb_neq c sep)) by done. by rewrite IH.
Qed.

Lemma percent_decode_plain s : percent ∉ s → percent_decode s = s.
Proof.
  induction s as [|c s IH]; [done|]. intros Hs. simpl.
  apply not_elem_of_cons in Hs as [Hc Hs].
  rewrite (proj2 (N.eqb_neq c percent)) by done. by rewrite IH.
Qed.

Lemma utf8_decode_ascii s : Forall (λ c, is_ascii c = true) s → utf8_decode s = s.
Proof.
  unfold utf8_decode. induction 1 as [|c s Hc _ IH]; [done|].
  simpl. unfold utf8_lead.
  assert ((c <=? 0x7F)%N = true) as ->.
  { apply N.leb_le. apply N.ltb_lt in Hc. lia. }
  simpl. by rewrite IH.
Qed.

Lemma replace_plus_plain s : 0x2B%N ∉ s → replace_plus s = s.
Proof.
  unfold replace_plus. induction s as [|c s IH]; [done|]. intros Hs.
  apply not_elem_of_cons in Hs as [Hc Hs].
  rewrite fmap_cons, IH by done. by rewrite (proj2 (N.eqb_neq c _)).
Qed.

Lemma form_decode_plain s :
  Forall (λ c, is_ascii c = true) s → percent ∉ s → 0x2B%N ∉ s → form_decode s = s.
Proof.
  intros Hascii Hpercent Hplus. unfold form_decode.
  fold (replace_plus s).
  by rewrite replace_plus_plain, percent_decode_plain, utf8_decode_ascii.
Qed.

Lemma decodeURIComponent_plain s : percent ∉ s → decodeURIComponent s = Ok s.
Proof.
  unfold decodeURIComponent. induction s as [|c s IH]; [done|]. intros Hs.
  apply not_elem_of_cons in Hs as [Hc Hs]. cbn [decode_from].
  rewrite (proj2 (N.eqb_neq c percent)) by done. by rewrite IH.
Qed.

Lemma first_present_single name value names :
  first_present [(name, value)] names = if bool_decide (name ∈ names) then Some value else None.
Proof.
  induction names as [|n names IH]; [done|]. simpl.
  destruct (decide (name = n)) as [->|Hne].
  - rewrite !bool_decide_eq_true_2; [done|left|done].
  - rewrite (bool_decide_eq_false_2 (name = n)) by done. rewrite IH.
    rewrite (bool_decide_ext (name ∈ n :: names) (name ∈ names)); [done|].
    rewrite elem_of_cons. tauto.
Qed.

Lemma getGuestTokenFromUrl_plain name t :
  name ∈ token_parameters → plain_token t →
  getGuestTokenFromUrl (str "?" ++ name ++ str "=" ++ t) = Ok (Some t).
Proof.
  intros Hname (Hne & Htrim & Hchars).
  assert (Forall (λ c, is_ascii c = true) t) as Hascii.
  { eapply Forall_impl; [exact Hchars|]. by intros c (? & _). }
  assert ((percent ∉ t) ∧ (0x2B%N ∉ t) ∧ (0x26%N ∉ t)) as (Hpercent & Hplus & Hamp).
  { rewrite Forall_forall in Hchars.
    split; [|split]; intros Hin; by destruct (Hchars _ Hin) as (_ & ? & ? & ?). }
  assert (Forall (λ c, is_ascii c = true) name ∧ (percent ∉ name) ∧ (0x2B%N ∉ name)
          ∧ (0x26%N ∉ name) ∧ (0x3D%N ∉ name) ∧ name ≠ []) as (Hn1 & Hn2 & Hn3 & Hn4 & Hn5 & Hn6).
  { unfold token_parameters in Hname.
    repeat (apply elem_of_cons in Hname as [->|Hname]);
      [..|by apply elem_of_nil in Hname];
      (split; [by repeat constructor|]);
      repeat split; try done; apply (bool_decide_unpack _); vm_compute; exact I. }
  rewrite getGuestTokenFromUrl_first_present.
  assert (URLSearchParams (str "?" ++ name ++ str "=" ++ t) = [(name, t)]) as ->.
  { change (str "?" ++ name ++ str "=" ++ t) with (0x3F%N :: name ++ 0x3D%N :: t).
    unfold URLSearchParams. rewrite N.eqb_refl.
    change (0x3D%N :: t) with (str "=" ++ t).
    assert (Forall (λ c, is_ascii c = true) (name ++ str "=" ++ t)) as Hall.
    { apply Forall_app. split; [done|]. by constructor. }
    rewrite to_usv_ascii, utf8_encode_ascii by done.
    rewrite split_on_absent.
    2:{ change (str "=" ++ t) with (0x3D%N :: t).
        rewrite not_elem_of_app, not_elem_of_cons. done. }
    rewrite filter_cons_True by (by destruct name).
    rewrite filter_nil. simpl fmap. unfold parse_pair.
    change (str "=" ++ t) with (0x3D%N :: t). rewrite split_first_app by done.
    simpl default. by rewrite !form_decode_plain. }
  rewrite first_present_single, bool_decide_eq_true_2 by done.
  rewrite bool_decide_eq_false_2 by done.
  rewrite replace_plus_plain, decodeURIComponent_plain by done. simpl.
  rewrite Htrim. by rewrite bool_decide_eq_false_2.
Qed.

(** X3.  A plain token is read as it stands in the link, under any of the four
    parameter names. *)
Theorem plain_token_is_read_verbatim name t :
  name ∈ token_parameters → plain_token t →
  getGuestTokenFromUrl (str "?" ++ name ++ str "=" ++ t) = Ok (Some t).
Proof. apply getGuestTokenFromUrl_plain. Qed.

(** ** Encoding and decoding of URI components *)

Local Open Scope N_scope.

Lemma land_shiftl_low a w k : w < 2 ^ k → N.land (N.shiftl a k) w = 0.
Proof.
  intros Hw. apply N.bits_inj_0. intros n. rewrite N.land_spec.
  destruct (decide (n < k)) as [Hn|Hn].
  - by rewrite N.shiftl_spec_low.
  - destruct (decide (w = 0)) as [->|Hw0]; [by rewrite N.bits_0, andb_false_r|].
    rewrite (N.bits_above_log2 w n), andb_false_r; [done|].
    apply N.log2_lt_pow2; [lia|]. eapply N.lt_le_trans; [exact Hw|].
    apply N.pow_le_mono_r; lia.
Qed.

(** Bits put above a small number add up with it. *)
Lemma lor_high a w k : w < 2 ^ k → N.lor (a * 2 ^ k) w = a * 2 ^ k + w.
Proof.
  intros Hw. rewrite <- N.shiftl_mul_pow2.
  rewrite <- N.lxor_lor, <- N.add_nocarry_lxor; auto using land_shiftl_low.
Qed.

Lemma land_low a w k : w < 2 ^ k → N.land (a * 2 ^ k + w) (N.ones k) = w.
Proof.
  intros Hw. rewrite N.land_ones, N.add_comm, N.Div0.mod_add. by apply N.mod_small.
Qed.

Lemma split_64 c : ∃ h l, c = 64 * h + l ∧ l < 64 ∧ c / 64 = h ∧ c mod 64 = l.
Proof.
  exists (c / 64), (c mod 64). split; [apply N.div_mod'|]. split; [|done].
  by apply N.mod_upper_bound.
Qed.

Ltac compare_numbers :=
  repeat match goal with
         | |- context [(?a <? ?b)] => destruct (N.ltb_spec a b); try lia
         | |- context [(?a <=? ?b)] => destruct (N.leb_spec a b); try lia
         | |- context [(?a =? ?b)] => destruct (N.eqb_spec a b); try lia
         end.

Lemma continuation_octet l : l < 64 → is_continuation (128 + l) = true.
Proof. intros Hl. unfold is_continuation. by compare_numbers. Qed.

Lemma lor_continuation l : l < 64 → N.lor 0x80 l = 128 + l.
Proof. intros Hl. change 0x80 with (2 * 2 ^ 6). by rewrite lor_high. Qed.

Lemma land_continuation l : l < 64 → N.land (128 + l) 0x3F = l.
Proof. intros Hl. change 128 with (2 * 2 ^ 6). change 0x3F with (N.ones 6). by rewrite land_low. Qed.

Lemma lor_shifted a l : l < 64 → N.lor (N.shiftl a 6) l = 64 * a + l.
Proof.
  intros Hl. rewrite N.shiftl_mul_pow2, lor_high by done. change (2 ^ 6) with 64. lia.
Qed.

Lemma scalar_value_bounds c :
  is_scalar_value c = true → c ≤ 0x10FFFF ∧ (c < 0xD800 ∨ 0xDFFF < c).
Proof.
  unfold is_scalar_value, is_surrogate.
  intros [Hmax Hsurrogate]%andb_true_iff. apply N.leb_le in Hmax.
  apply negb_true_iff, andb_false_iff in Hsurrogate.
  split; [done|]. destruct Hsurrogate as [Hs%N.leb_gt|Hs%N.leb_gt]; lia.
Qed.

(** The octets of the UTF-8 encoding of a code point beyond ASCII, by the
    six-bit groups of the code point. *)
Lemma utf8_encode_cases c :
  0x80 ≤ c → c ≤ 0x10FFFF →
  (∃ h l, c = 64 * h + l ∧ l < 64 ∧ c < 0x800
          ∧ utf8_encode c = [192 + h; 128 + l])
  ∨ (∃ h m l, c = 64 * (64 * h + m) + l ∧ m < 64 ∧ l < 64 ∧ 0x800 ≤ c < 0x10000
              ∧ utf8_encode c = [224 + h; 128 + m; 128 + l])
  ∨ (∃ h m2 m l, c = 64 * (64 * (64 * h + m2) + m) + l ∧ m2 < 64 ∧ m < 64 ∧ l < 64
                 ∧ 0x10000 ≤ c
                 ∧ utf8_encode c = [240 + h; 128 + m2; 128 + m; 128 + l]).
Proof.
  intros Hmin Hmax.
  destruct (split_64 c) as (c1 & l & Hc & Hl & Hdiv & Hmod).
  unfold utf8_encode.
  rewrite !N.shiftr_div_pow2. change 0x3F with (N.ones 6). rewrite !N.land_ones.
  change (2 ^ 6) with 64. change (2 ^ 12) with (64 * 64). change (2 ^ 18) with (64 * 64 * 64).
  rewrite <- !N.Div0.div_div, Hdiv, Hmod.
  destruct (N.ltb_spec c 0x80) as [?|_]; [lia|].
  destruct (N.ltb_spec c 0x800) as [H2|H2].
  { left. exists c1, l. split; [done|]. split; [done|]. split; [done|].
    f_equal; [|by rewrite lor_continuation].
    change 0xC0 with (6 * 2 ^ 5). rewrite lor_high; [done|]. change (2 ^ 5) with 32. lia. }
  destruct (split_64 c1) as (c2 & m & Hc1 & Hm & Hdiv1 & Hmod1).
  rewrite Hdiv1, Hmod1. right.
  destruct (N.ltb_spec c 0x10000) as [H3|H3].
  { left. exists c2, m, l. split; [lia|]. split; [done|]. split; [done|]. split; [done|].
    f_equal; [|by rewrite !lor_continuation].
    change 0xE0 with (14 * 2 ^ 4). rewrite lor_high; [done|]. change (2 ^ 4) with 16. lia. }
  destruct (split_64 c2) as (c3 & m2 & Hc2 & Hm2 & Hdiv2 & Hmod2).
  rewrite Hdiv2, Hmod2. right.
  exists c3, m2, m, l. split; [lia|]. do 4 (split; [done|]).
  f_equal; [|by rewrite !lor_continuation].
  change 0xF0 with (30 * 2 ^ 3). rewrite lor_high; [done|]. change (2 ^ 3) with 8. lia.
Qed.

(** The UTF-8 encoding of a scalar value beyond ASCII: octets, the first of
    which announces their number, that decode to the scalar value. *)
Lemma utf8_encode_decodes c :
  is_scalar_value c = true → 0x80 ≤ c →
  ∃ b0 tail, utf8_encode c = b0 :: tail ∧ tail ≠ []
    ∧ Forall (λ b, b < 256) (b0 :: tail)
    ∧ utf8_sequence_length b0 = Some (S (length tail))
    ∧ utf8_decode_sequence (b0 :: tail) = Some c.
Proof.
  intros [Hmax Hs]%scalar_value_bounds Hmin.
  destruct (utf8_encode_cases c Hmin Hmax)
    as [(h & l & Hc & Hl & H2 & ->)
       |[(h & m & l & Hc & Hm & Hl & H3 & ->)
        |(h & m2 & m & l & Hc & Hm2 & Hm & Hl & H4 & ->)]];
    eexists _, _; (split; [reflexivity|]); (split; [done|]).
  - split; [repeat constructor; lia|]. split.
    + unfold utf8_sequence_length. by compare_numbers.
    + unfold utf8_decode_sequence.
      rewrite land_continuation, continuation_octet by done.
      change 192 with (6 * 2 ^ 5). change 0x1F with (N.ones 5).
      rewrite land_low by (change (2 ^ 5) with 32; lia).
      rewrite lor_shifted by done. rewrite <- Hc. simpl. by compare_numbers.
  - split; [repeat constructor; lia|]. split.
    + unfold utf8_sequence_length. by compare_numbers.
    + unfold utf8_decode_sequence.
      rewrite !land_continuation, !continuation_octet by done.
      change 224 with (14 * 2 ^ 4). change 0x0F with (N.ones 4).
      rewrite land_low by (change (2 ^ 4) with 16; lia).
      rewrite lor_shifted by done.
      assert (N.lor (N.shiftl h 12) (64 * m + l) = c) as ->.
      { rewrite N.shiftl_mul_pow2, lor_high by (change (2 ^ 12) with 4096; lia).
        change (2 ^ 12) with 4096. lia. }
      simpl. unfold is_surrogate. compare_numbers; done.
  - split; [repeat constructor; lia|]. split.
    + unfold utf8_sequence_length. by compare_numbers.
    + unfold utf8_decode_sequence.
      rewrite !land_continuation, !continuation_octet by done.
      change 240 with (30 * 2 ^ 3). change 0x07 with (N.ones 3).
      rewrite land_low by (change (2 ^ 3) with 8; lia).
      rewrite lor_shifted by done.
      assert (N.lor (N.shiftl m2 12) (64 * m + l) = 64 * (64 * m2 + m) + l) as ->.
      { rewrite N.shiftl_mul_pow2, lor_high by (change (2 ^ 12) with 4096; lia).
        change (2 ^ 12) with 4096. lia. }
      assert (N.lor (N.shiftl h 18) (64 * (64 * m2 + m) + l) = c) as ->.
      { rewrite N.shiftl_mul_pow2, lor_high by (change (2 ^ 18) with 262144; lia).
        change (2 ^ 18) with 262144. lia. }
      simpl. compare_numbers; done.
Qed.

Local Close Scope N_scope.

Lemma hex_value_hex_digit n : (n < 16)%N → hex_value (hex_digit n) = Some n.
Proof.
  intros Hn. unfold hex_digit, hex_value.
  destruct (N.ltb_spec n 10).
  - assert ((48 <=? 48 + n)%N && (48 + n <=? 57)%N = true) as ->.
    { apply andb_true_iff. split; apply N.leb_le; lia. }
    f_equal. lia.
  - assert ((48 <=? 65 + (n - 10))%N && (65 + (n - 10) <=? 57)%N = false) as ->.
    { apply andb_false_iff. right. apply N.leb_gt. lia. }
    assert ((65 <=? 65 + (n - 10))%N && (65 + (n - 10) <=? 70)%N = true) as ->.
    { apply andb_true_iff. split; apply N.leb_le; lia. }
    f_equal. lia.
Qed.

Lemma octet_halves b :
  (b < 256)%N → (N.shiftr b 4 < 16)%N ∧ (N.land b 0xF < 16)%N
                ∧ (16 * N.shiftr b 4 + N.land b 0xF)%N = b.
Proof.
  intros Hb. rewrite N.shiftr_div_pow2. change 0xF%N with (N.ones 4). rewrite N.land_ones.
  change (2 ^ 4)%N with 16%N.
  pose proof (N.div_mod' b 16). pose proof (N.mod_upper_bound b 16).
  assert (b `div` 16 < 16)%N by (apply N.Div0.div_lt_upper_bound; lia).
  split; [done|]. split; lia.
Qed.

Lemma parse_hex_octet_encoded b :
  (b < 256)%N →
  parse_hex_octet (hex_digit (N.shiftr b 4)) (hex_digit (N.land b 0xF)) = Some b.
Proof.
  intros (Hhi & Hlo & Hb)%octet_halves. unfold parse_hex_octet.
  rewrite !hex_value_hex_digit by done. simpl. by rewrite Hb.
Qed.

Lemma hex_digit_escape n : (n < 16)%N → is_escape_char (hex_digit n) = true.
Proof.
  intros Hn. unfold is_escape_char, hex_digit. destruct (N.ltb_spec n 10).
  - assert ((48 <=? 48 + n)%N && (48 + n <=? 57)%N = true) as ->.
    { apply andb_true_iff. split; apply N.leb_le; lia. }
    by rewrite orb_true_r.
  - assert ((65 <=? 65 + (n - 10))%N && (65 + (n - 10) <=? 70)%N = true) as ->.
    { apply andb_true_iff. split; apply N.leb_le; lia. }
    by rewrite orb_true_r.
Qed.

Lemma percent_encode_octet_escape b :
  (b < 256)%N → Forall (λ c, is_escape_char c = true) (percent_encode_octet b).
Proof.
  intros (Hhi & Hlo & _)%octet_halves. unfold percent_encode_octet.
  repeat constructor; auto using hex_digit_escape.
Qed.

Lemma decode_escape_ascii b rest :
  (b < 0x80)%N →
  decode_from [] 0 (percent_encode_octet b ++ rest)
  = (r ←! decode_from [] 0 rest ;; Ok (b :: r)).
Proof.
  intros Hb. unfold percent_encode_octet. simpl app. cbn [decode_from].
  rewrite N.eqb_refl, parse_hex_octet_encoded by lia.
  by rewrite (proj2 (N.ltb_lt _ _) Hb).
Qed.

Lemma decode_escape_lead b n rest :
  (b < 256)%N → utf8_sequence_length b = Some n →
  decode_from [] 0 (percent_encode_octet b ++ rest) = decode_from [b] (n - 1) rest.
Proof.
  intros Hb Hn. unfold percent_encode_octet. simpl app. cbn [decode_from].
  rewrite N.eqb_refl, parse_hex_octet_encoded, Hn by lia.
  destruct (N.ltb_spec b 0x80) as [Hlow|_]; [|done].
  unfold utf8_sequence_length in Hn.
  by rewrite (proj2 (N.ltb_lt b 0xC0)) in Hn by lia.
Qed.

Lemma decode_escape_tail pending tail rest :
  tail ≠ [] → Forall (λ b, (b < 256)%N) tail →
  decode_from pending (length tail) ((tail ≫= percent_encode_octet) ++ rest)
  = match utf8_decode_sequence (pending ++ tail) with
    | Some cp => r ←! decode_from [] 0 rest ;; Ok (cp :: r)
    | None => Throw URIError
    end.
Proof.
  intros Hne Htail. revert pending.
  induction Htail as [|b tail Hb Htail IH]; intros pending; [done|].
  rewrite bind_cons, <- app_assoc. unfold percent_encode_octet at 1. simpl app.
  simpl length. cbn [decode_from].
  rewrite N.eqb_refl, parse_hex_octet_encoded by done.
  destruct tail as [|b' tail']; [done|].
  rewrite (IH ltac:(done)). by rewrite <- app_assoc.
Qed.

Lemma encode_decode_scalar s :
  Forall (λ c, is_scalar_value c = true) s →
  ∃ encoded, encodeURIComponent s = Ok encoded
             ∧ Forall (λ c, is_escape_char c = true) encoded
             ∧ decodeURIComponent encoded = Ok s.
Proof.
  unfold decodeURIComponent.
  induction 1 as [|c s Hc _ (encoded & Hencoded & Halphabet & Hdecoded)]; [by exists []|].
  simpl. rewrite Hencoded. cbn [bind].
  destruct (is_uri_unreserved c) eqn:Hunreserved.
  { exists (c :: encoded). split; [done|]. split.
    - constructor; [|done]. unfold is_escape_char. by rewrite Hunreserved.
    - cbn [decode_from]. destruct (N.eqb_spec c percent) as [->|_]; [done|].
      by rewrite Hdecoded. }
  assert (is_surrogate c = false) as ->.
  { unfold is_scalar_value in Hc. apply andb_true_iff in Hc as [_ Hc].
    by apply negb_true_iff. }
  eexists. split; [done|].
  destruct (N.ltb_spec c 0x80) as [Hascii|Hbeyond].
  - assert (utf8_encode c = [c]) as ->.
    { unfold utf8_encode. by rewrite (proj2 (N.ltb_lt _ _) Hascii). }
    change ([c] ≫= percent_encode_octet) with (percent_encode_octet c). split.
    + apply Forall_app. split; [|done]. apply percent_encode_octet_escape. lia.
    + rewrite decode_escape_ascii by done. by rewrite Hdecoded.
  - destruct (utf8_encode_decodes c Hc Hbeyond)
      as (b0 & tail & -> & Hne & Hoctets & Hlength & Hsequence).
    split.
    + apply Forall_app. split; [|done]. apply Forall_bind.
      eapply Forall_impl; [exact Hoctets|]. apply percent_encode_octet_escape.
    + apply Forall_cons in Hoctets as [Hb0 Htail].
      rewrite bind_cons, <- app_assoc.
      rewrite (decode_escape_lead b0 _ _ Hb0 Hlength).
      replace (S (length tail) - 1) with (length tail) by lia.
      rewrite (decode_escape_tail [b0]) by done. simpl app.
      by rewrite Hsequence, Hdecoded.
Qed.

(** X4.  On a string of scalar values [encodeURIComponent] returns, the encoded
    text is made of unreserved characters, percent signs and upper-case
    hexadecimal digits only, and [decodeURIComponent] reads it back. *)
Theorem decoding_undoes_encoding s :
  Forall (λ c, is_scalar_value c = true) s →
  ∃ encoded, encodeURIComponent s = Ok encoded
             ∧ Forall (λ c, is_escape_char c = true) encoded
             ∧ decodeURIComponent encoded = Ok s.
Proof. apply encode_decode_scalar. Qed.

(** ** What the renderers leave alone *)

Section keeps.
Context (R : relation Document) `{!PreOrder R}.

Lemma keeps_ret {A} (a : A) : keeps R (ret a).
Proof. intros d. reflexivity. Qed.

Lemma keeps_throw {A} e : keeps R (throw (A:=A) e).
Proof. intros d. reflexivity. Qed.

Lemma keeps_lift {A} (r : result A) : keeps R (lift r).
Proof. intros d. reflexivity. Qed.

Lemma keeps_read {A} (f : Document → A) : keeps R (read f).
Proof. intros d. reflexivity. Qed.

Lemma keeps_mbind {A B} (m : M A) (k : A → M B) :
  keeps R m → (∀ a, keeps R (k a)) → keeps R (mbind m k).
Proof.
  intros Hm Hk d. unfold mbind. specialize (Hm d).
  destruct (m d) as [d1 [a|e]]; [|done].
  etrans; [exact Hm|apply Hk].
Qed.

Lemma keeps_mtry {A} (m : M A) (h : exn → M A) :
  keeps R m → (∀ e, keeps R (h e)) → keeps R (mtry m h).
Proof.
  intros Hm Hh d. unfold mtry. specialize (Hm d).
  destruct (m d) as [d1 [a|e]]; [done|].
  etrans; [exact Hm|apply Hh].
Qed.

Lemma keeps_forEach {A} (f : A → M ()) items :
  (∀ x, keeps R (f x)) → keeps R (forEach f items).
Proof.
  intros Hf. induction items as [|x items IH]; [apply keeps_ret|].
  simpl. apply keeps_mbind; [apply Hf|]. intros _. apply IH.
Qed.

End keeps.

Lemma set_lists_set_lists f g d : set_lists g (set_lists f d) = set_lists (λ m, g (f m)) d.
Proof. by destruct d. Qed.

Lemma set_lists_same d : set_lists (λ _, lists d) d = d.
Proof. by destruct d. Qed.

#[export] Instance only_list_preorder selector : PreOrder (only_list selector).
Proof.
  split.
  - intros d. split; [by rewrite set_lists_same|done].
  - intros d1 d2 d3 [H12 Hother12] [H23 Hother23]. split.
    + etrans; [exact H23|]. rewrite H12. by rewrite set_lists_set_lists.
    + intros other Hne. by rewrite Hother23, Hother12.
Qed.

#[export] Instance only_texts_preorder : PreOrder only_texts.
Proof.
  split.
  - intros d. split; [by destruct d|done].
  - intros d1 d2 d3 [H12 Hdom12] [H23 Hdom23]. split.
    + etrans; [exact H23|]. rewrite H12. by destruct d1.
    + intros selector. by rewrite Hdom23, Hdom12.
Qed.

Lemma keeps_clear_list selector : keeps (only_list selector) (clear_list selector).
Proof.
  intros d. rewrite clear_list_run. simpl. split.
  - by destruct d.
  - intros other Hne. rewrite lists_set_lists. by apply lookup_insert_ne.
Qed.

Lemma keeps_appendChild selector node : keeps (only_list selector) (appendChild selector node).
Proof.
  intros d. rewrite appendChild_run. simpl. split.
  - by destruct d.
  - intros other Hne. rewrite lists_set_lists. by apply lookup_insert_ne.
Qed.

(** ** Page metadata *)

Lemma set_text_run selector text d :
  set_text selector text d =
    match texts d !! selector with
    | Some l => (set_texts (<[selector := {| label_text := text;
                                              label_display := label_display l |}]>) d, Ok ())
    | None => (d, Throw TypeError)
    end.
Proof. unfold set_text, mbind, read. by destruct (texts d !! selector). Qed.

Lemma set_display_run selector display d :
  set_display selector display d =
    match texts d !! selector with
    | Some l => (set_texts (<[selector := {| label_text := label_text l;
                                              label_display := Some display |}]>) d, Ok ())
    | None => (d, Throw TypeError)
    end.
Proof. unfold set_display, mbind, read. by destruct (texts d !! selector). Qed.

Lemma insert_present {A} (m : gmap jsstring A) k x s :
  is_Some (m !! k) → is_Some (<[k := x]> m !! s) ↔ is_Some (m !! s).
Proof.
  intros Hk. destruct (decide (s = k)) as [->|Hne].
  - rewrite lookup_insert_eq. split; eauto.
  - by rewrite lookup_insert_ne.
Qed.

Lemma keeps_set_text selector text : keeps only_texts (set_text selector text).
Proof.
  intros d. rewrite set_text_run. destruct (texts d !! selector) eqn:Hsel; [|reflexivity].
  split; [by destruct d|]. intros s. simpl. apply insert_present. eauto.
Qed.

Lemma keeps_set_display selector display : keeps only_texts (set_display selector display).
Proof.
  intros d. rewrite set_display_run. destruct (texts d !! selector) eqn:Hsel; [|reflexivity].
  split; [by destruct d|]. intros s. simpl. apply insert_present. eauto.
Qed.

Lemma keeps_set_title t : keeps only_texts (modify (set_title t)).
Proof. intros d. split; [by destruct d|done]. Qed.

Ltac keeps_step :=
  lazymatch goal with
  | |- PreOrder _ => apply _
  | |- ∀ _, _ => intros ?
  | |- keeps _ (match ?x with _ => _ end) => destruct x
  | |- keeps _ (mbind _ _) => apply keeps_mbind
  | |- keeps _ (forEach _ _) => apply keeps_forEach
  | |- keeps _ (clear_list _) => apply keeps_clear_list
  | |- keeps _ (appendChild _ _) => apply keeps_appendChild
  | |- keeps _ (set_text _ _) => apply keeps_set_text
  | |- keeps _ (set_display _ _) => apply keeps_set_display
  | |- keeps _ (modify (set_title _)) => apply keeps_set_title
  | |- keeps _ (ret _) => apply keeps_ret
  | |- keeps _ (throw _) => apply keeps_throw
  | |- keeps _ (lift _) => apply keeps_lift
  | |- keeps _ (read _) => apply keeps_read
  end.

Lemma renderLeaderboard_only_list `{Unicode} `{Host} players hl labels :
  keeps (only_list leaderboard_selector) (renderLeaderboard players hl labels).
Proof. unfold renderLeaderboard, query_list. repeat keeps_step. Qed.

Lemma renderScoringRules_only_list rules :
  keeps (only_list scoring_rules_selector) (renderScoringRules rules).
Proof. unfold renderScoringRules, query_list. repeat keeps_step. Qed.

Lemma renderEvents_only_list `{Unicode} `{Host} events hl options :
  keeps (only_list (default (str "#events-timeline") (containerSelector options)))
    (renderEvents events hl options).
Proof. unfold renderEvents, query_list. repeat keeps_step. Qed.

Lemma renderPlays_only_list `{Unicode} `{Host} plays hl options :
  keeps (only_list (default (str "#recent-plays") (containerSelector options)))
    (renderPlays plays hl options).
Proof. unfold renderPlays, query_list. repeat keeps_step. Qed.

Lemma renderPlayerActivity_only_list `{Unicode} `{Host} activity hl :
  keeps (only_list activity_selector) (renderPlayerActivity activity hl).
Proof. unfold renderPlayerActivity, query_list. repeat keeps_step. Qed.

(** X5.  Each renderer changes nothing of the page but the children of its own
    container: not the greeting, the texts, the links, the title, the console
    or any other list. *)
Theorem renderers_write_their_container `{Unicode} `{Host} (hl : value) :
  (∀ players labels,
     keeps (only_list leaderboard_selector) (renderLeaderboard players hl labels))
  ∧ (∀ rules, keeps (only_list scoring_rules_selector) (renderScoringRules rules))
  ∧ (∀ events options,
       keeps (only_list (default (str "#events-timeline") (containerSelector options)))
         (renderEvents events hl options))
  ∧ (∀ plays options,
       keeps (only_list (default (str "#recent-plays") (containerSelector options)))
         (renderPlays plays hl options))
  ∧ (∀ activity, keeps (only_list activity_selector) (renderPlayerActivity activity hl)).
Proof.
  split; [|split; [|split; [|split]]]; intros.
  - apply renderLeaderboard_only_list.
  - apply renderScoringRules_only_list.
  - apply renderEvents_only_list.
  - apply renderPlays_only_list.
  - apply renderPlayerActivity_only_list.
Qed.

Lemma hydrateMeta_only_texts `{Host} data : keeps only_texts (hydrateMeta data).
Proof. unfold hydrateMeta. repeat keeps_step. Qed.

Lemma needs_nothing (m : M ()) :
  keeps only_texts m → (∀ d, (m d).2 = Ok ()) → needs [] m.
Proof.
  intros Hkeeps Hok d. split; [apply Hkeeps|].
  rewrite bool_decide_eq_true_2 by constructor. apply Hok.
Qed.

Lemma needs_set_text selector text : needs [selector] (set_text selector text).
Proof.
  intros d. split; [apply keeps_set_text|]. rewrite set_text_run.
  destruct (texts d !! selector) eqn:Hsel; simpl.
  - rewrite bool_decide_eq_true_2; [done|]. repeat constructor. by rewrite Hsel.
  - rewrite bool_decide_eq_false_2; [done|].
    intros [Hs _]%Forall_cons. rewrite Hsel in Hs. by destruct Hs.
Qed.

Lemma needs_set_display selector display : needs [selector] (set_display selector display).
Proof.
  intros d. split; [apply keeps_set_display|]. rewrite set_display_run.
  destruct (texts d !! selector) eqn:Hsel; simpl.
  - rewrite bool_decide_eq_true_2; [done|]. repeat constructor. by rewrite Hsel.
  - rewrite bool_decide_eq_false_2; [done|].
    intros [Hs _]%Forall_cons. rewrite Hsel in Hs. by destruct Hs.
Qed.

Lemma needs_mbind needed1 needed2 (m1 m2 : M ()) :
  needs needed1 m1 → needs needed2 m2 → needs (needed1 ++ needed2) (mbind m1 (λ _, m2)).
Proof.
  intros H1 H2 d. destruct (H1 d) as [Hkeep1 Hres1]. unfold mbind.
  destruct (m1 d) as [d1 r1]. simpl in Hkeep1, Hres1. subst r1.
  destruct (H2 d1) as [Hkeep2 Hres2].
  assert (Forall (λ s, is_Some (texts d1 !! s)) needed2
          ↔ Forall (λ s, is_Some (texts d !! s)) needed2) as Hsame.
  { apply Forall_proper; [|done]. intros s. apply Hkeep1. }
  destruct (decide (Forall (λ s, is_Some (texts d !! s)) needed1)) as [Hneeded1|Hneeded1].
  - rewrite (bool_decide_eq_true_2 _ Hneeded1).
    split; [by etrans|]. rewrite Hres2.
    rewrite (bool_decide_ext _ (Forall (λ s, is_Some (texts d !! s)) (needed1 ++ needed2)));
      [done|].
    rewrite Forall_app, Hsame. tauto.
  - rewrite (bool_decide_eq_false_2 _ Hneeded1).
    split; [done|]. simpl. rewrite bool_decide_eq_false_2; [done|].
    rewrite Forall_app. tauto.
Qed.

Lemma needs_same needed needed' m : needed = needed' → needs needed m → needs needed' m.
Proof. by intros ->. Qed.

Lemma hydrateMeta_needs `{Host} (data : Feed) : needs (needed_texts data) (hydrateMeta data).
Proof.
  unfold hydrateMeta, needed_texts.
  apply needs_mbind.
  { destruct (truthy_string (title data)) as [t|].
    - apply (needs_mbind [] [_]); [|apply needs_set_text].
      apply needs_nothing; [repeat keeps_step|done].
    - apply needs_nothing; [repeat keeps_step|done]. }
  apply needs_mbind.
  { destruct (truthy_string (tagline data)) as [t|]; [apply needs_set_text|].
    apply needs_nothing; [repeat keeps_step|done]. }
  apply (needs_mbind [_] [_]).
  { destruct (truthy_string (seasonLabel data)) as [t|]; [|apply needs_set_display].
    intros d. destruct (needs_mbind [_] [_] _ _ (needs_set_text (str "#season-label") t)
                          (needs_set_display (str "#season-label") (str "inline-flex")) d)
      as [Hkeep Hres].
    split; [done|]. rewrite Hres.
    rewrite (bool_decide_ext _ (Forall (λ s, is_Some (texts d !! s)) [str "#season-label"]));
      [done|].
    rewrite Forall_app, !Forall_cons, !Forall_nil. tauto. }
  destruct (truthy_string (lastUpdated data)); apply needs_set_text.
Qed.

(** X6.  [hydrateMeta] changes nothing but the title and the text elements; it
    returns when the text elements it writes to are on the page and throws a
    TypeError when one of them is missing. *)
Theorem hydrateMeta_needs_its_elements `{Host} (data : Feed) (d : Document) :
  only_texts d (hydrateMeta data d).1
  ∧ (hydrateMeta data d).2 =
      if bool_decide (Forall (λ s, is_Some (texts d !! s)) (needed_texts data))
      then Ok () else Throw TypeError.
Proof. apply hydrateMeta_needs. Qed.

(** ** What [init] can throw *)

Lemma handleError_returns e d : (handleError e d).2 = Ok ().
Proof. by rewrite handleError_run. Qed.

Lemma load_tokens_returns `{Host} net d :
  ∃ tokens log, load_tokens net d = (set_console (λ _, log) d, Ok tokens).
Proof.
  unfold load_tokens, mtry, mbind, lift.
  destruct (fetchGuestTokens _) as [tokensData|e].
  - destruct (normalizeGuestTokens tokensData) as [tokens|e].
    + exists tokens, (console d). by destruct d.
    + exists ∅, (console d ++ [LogWarn e]). by destruct d.
  - exists ∅, (console d ++ [LogWarn e]). by destruct d.
Qed.

Lemma load_tokens_keeps `{Host} net d :
  ∃ d0 tokens, load_tokens net d = (d0, Ok tokens)
               ∧ guest_greeting d0 = guest_greeting d
               ∧ location_search d0 = location_search d
               ∧ lists d0 = lists d.
Proof.
  destruct (load_tokens_returns net d) as (tokens & log & ->).
  eexists _, tokens. by destruct d.
Qed.

Lemma renderGreeting_result `{Host} tokens d :
  match guest_greeting d, getGuestTokenFromUrl (location_search d) with
  | Some _, Throw e => renderGreeting tokens d = (d, Throw e)
  | _, _ => ∃ d1 v, renderGreeting tokens d = (d1, Ok v)
  end.
Proof.
  destruct (guest_greeting d) as [g|] eqn:Hg.
  - destruct (getGuestTokenFromUrl (location_search d)) as [token|e] eqn:Htoken.
    + rewrite (renderGreeting_run tokens d g token Hg Htoken).
      destruct token as [token|]; [|by eexists _, _].
      destruct (truthy _); by eexists _, _.
    + unfold renderGreeting, mbind, read, lift. by rewrite Hg, Htoken.
  - exists d, VNull. unfold renderGreeting, mbind, read. by rewrite Hg.
Qed.

Lemma caught_by_handleError (m : M ()) d :
  ∃ d', mtry m handleError d = (d', Ok ()).
Proof.
  unfold mtry. destruct (m d) as [d1 [[]|e]]; [by eexists|].
  pose proof (handleError_returns e d1) as Hok.
  destruct (handleError e d1) as [d2 r]. simpl in Hok. subst r. by eexists.
Qed.

(** X7.  [init] throws exactly when the page has the greeting banner and the
    token parameter of the URL holds a malformed escape; what it throws is
    the URIError of the decoding, neither fetch result matters, and the page
    is left as the loading of the tokens left it: nothing is rendered. *)
Theorem init_throws_iff_token_is_malformed `{Unicode} `{Host} (net : Network)
    (d d' : Document) (e : exn) :
  init net d = (d', Throw e)
  ↔ is_Some (guest_greeting d) ∧ getGuestTokenFromUrl (location_search d) = Throw e
    ∧ d' = (load_tokens net d).1.
Proof.
  unfold init. unfold mbind at 1.
  destruct (load_tokens_keeps net d) as (d0 & tokens & -> & Hg & Hsearch & _).
  unfold mbind at 1.
  pose proof (renderGreeting_result tokens d0) as Hgreeting.
  rewrite Hg, Hsearch in Hgreeting. simpl fst.
  destruct (guest_greeting d) as [g|];
    [destruct (getGuestTokenFromUrl (location_search d)) as [token|e']|].
  - destruct Hgreeting as (d1 & v & ->).
    destruct (caught_by_handleError (render_feed (leaderboard_fetch net) v) d1)
      as [d2 ->].
    split; [done|by intros (_ & ? & _)].
  - rewrite Hgreeting. split.
    + intros [= -> ->]. eauto.
    + by intros (_ & [= ->] & ->).
  - destruct Hgreeting as (d1 & v & ->).
    destruct (caught_by_handleError (render_feed (leaderboard_fetch net) v) d1)
      as [d2 ->].
    split; [done|by intros ([? ?] & _)].
Qed.

Lemma mbind_Ok_inv {A B} (m : M A) (k : A → M B) d d' b :
  mbind m k d = (d', Ok b) → ∃ d1 a, m d = (d1, Ok a) ∧ k a d1 = (d', Ok b).
Proof. unfold mbind. destruct (m d) as [d1 [a|e]]; [eauto|done]. Qed.

(** [renderGreeting] writes nothing but the banner. *)
Lemma renderGreeting_frame `{Host} tokens d d1 r :
  renderGreeting tokens d = (d1, r) → d1 = d ∨ ∃ g, d1 = set_greeting g d.
Proof.
  pose proof (renderGreeting_result tokens d) as Hresult.
  destruct (guest_greeting d) as [g|] eqn:Hg.
  - destruct (getGuestTokenFromUrl (location_search d)) as [token|e] eqn:Htoken.
    + rewrite (renderGreeting_run tokens d g token Hg Htoken).
      destruct token as [token|]; [destruct (truthy _)|]; intros [= <- _]; eauto.
    + rewrite Hresult. intros [= <- _]. by left.
  - unfold renderGreeting, mbind, read. rewrite Hg. intros [= <- _]. by left.
Qed.

Lemma with_errors_console sections d :
  console (foldl (λ d '(selector, node), with_error node d selector) d sections)
  = console d.
Proof.
  revert d. induction sections as [|[s n] sections IH]; intros d; [done|].
  simpl. rewrite IH. unfold with_error. by destruct (lists d !! s).
Qed.

Lemma handleError_console e d : console (handleError e d).1 = console d ++ [LogError e].
Proof.
  rewrite handleError_run. unfold fst. by rewrite with_errors_console.
Qed.

Lemma only_texts_lists d d' : only_texts d d' → lists d' = lists d.
Proof. intros [-> _]. by destruct d. Qed.

(** X8.  When the feed loads but a text element [hydrateMeta] writes to is
    missing from the page, [init] ends as if the feed had failed to load:
    every data section that is on the page holds its error message. *)
Theorem missing_text_element_shows_errors `{Unicode} `{Host} (net : Network)
    (d : Document) (data : Feed) (token : option jsstring) (s : jsstring) :
  getGuestTokenFromUrl (location_search d) = Ok token →
  fetchLeaderboard (leaderboard_fetch net) = Ok data →
  s ∈ needed_texts data → texts d !! s = None →
  ∃ d', init net d = (d', Ok ())
        ∧ last (console d') = Some (LogError TypeError)
        ∧ ∀ selector node, (selector, node) ∈ error_sections →
            lists d' !! selector = (λ _, [node]) <$> lists d !! selector.
Proof.
  intros Htoken Hfeed Hs Hmissing.
  unfold init. unfold mbind at 1.
  destruct (load_tokens_returns net d) as (tokens & log & ->).
  set (d0 := set_console _ d). unfold mbind at 1.
  pose proof (renderGreeting_result tokens d0) as Hresult.
  pose proof (renderGreeting_frame tokens d0) as Hframe.
  assert (∃ d1 v, renderGreeting tokens d0 = (d1, Ok v)) as (d1 & v & Hgreeting).
  { change (location_search d0) with (location_search d) in Hresult.
    rewrite Htoken in Hresult. by destruct (guest_greeting d0). }
  rewrite Hgreeting.
  assert (lists d1 = lists d ∧ texts d1 = texts d) as [Hlists Htexts].
  { destruct (Hframe d1 _ Hgreeting) as [->|[g ->]]; by destruct d. }
  unfold mtry, render_feed. unfold mbind at 1. unfold lift at 1. rewrite Hfeed.
  unfold mbind at 1.
  destruct (hydrateMeta_needs data d1) as [Hkeep Hres].
  destruct (hydrateMeta data d1) as [d2 r] eqn:Hmeta. simpl in Hkeep, Hres.
  rewrite bool_decide_eq_false_2 in Hres.
  2:{ rewrite Forall_forall. intros Hall. specialize (Hall s Hs).
      rewrite Htexts, Hmissing in Hall. by destruct Hall. }
  subst r.
  destruct (handleError_sections TypeError d2) as (d' & Hrun & _ & Hsections).
  exists d'. split; [done|]. split.
  - replace d' with (handleError TypeError d2).1 by by rewrite Hrun.
    rewrite handleError_console. apply last_snoc.
  - intros selector node Hin. rewrite (Hsections selector node Hin).
    by rewrite (only_texts_lists _ _ Hkeep), Hlists.
Qed.

(** ** Navigation links *)

Lemma only_list_same_links selector d d' : only_list selector d d' → same_links d d'.
Proof. intros [-> _]. by destruct d. Qed.

Lemma only_texts_same_links d d' : only_texts d d' → same_links d d'.
Proof. intros [-> _]. by destruct d. Qed.

Lemma ran {A} (R : relation Document) (m : M A) d d' r : keeps R m → m d = (d', r) → R d d'.
Proof. intros Hkeeps Hrun. specialize (Hkeeps d). by rewrite Hrun in Hkeeps. Qed.

Lemma update_link_run selector base suffix display d d' r :
  update_link selector base suffix display d = (d', r) →
  r = Ok () ∧ location_search d' = location_search d
  ∧ ∀ other, links d' !! other =
      if bool_decide (other = selector) then updated base suffix display <$> links d !! other
      else links d !! other.
Proof.
  unfold update_link, modify. intros [= <- <-]. split; [done|]. split; [by destruct d|].
  intros other. replace (links (set_links _ d)) with
    (match links d !! selector with
     | Some link => <[selector := updated base suffix display link]> (links d)
     | None => links d
     end) by by destruct d.
  case_bool_decide as Heq.
  - subst. destruct (links d !! selector) as [link|] eqn:Hlink.
    + by rewrite lookup_insert_eq.
    + by rewrite Hlink.
  - destruct (links d !! selector); [|done]. by rewrite lookup_insert_ne.
Qed.

#[export] Instance same_links_preorder : PreOrder same_links.
Proof.
  split; [done|]. intros d1 d2 d3 [? ?] [? ?]. split; congruence.
Qed.

(** The part of [render_feed] that renders: the links and the query string
    are as before. *)
Ltac rendered Hrun d1 Hsame :=
  let Hstep := fresh "Hstep" in
  apply mbind_Ok_inv in Hrun as (d1 & [] & Hstep & Hrun);
  lazymatch type of Hstep with
  | hydrateMeta _ _ = _ =>
      apply (ran _ _ _ _ _ (hydrateMeta_only_texts _)), only_texts_same_links in Hstep
  | renderLeaderboard _ _ _ _ = _ =>
      apply (ran _ _ _ _ _ (renderLeaderboard_only_list _ _ _)), only_list_same_links in Hstep
  | renderScoringRules _ _ = _ =>
      apply (ran _ _ _ _ _ (renderScoringRules_only_list _)), only_list_same_links in Hstep
  | renderEvents _ _ _ _ = _ =>
      apply (ran _ _ _ _ _ (renderEvents_only_list _ _ _)), only_list_same_links in Hstep
  | renderPlays _ _ _ _ = _ =>
      apply (ran _ _ _ _ _ (renderPlays_only_list _ _ _)), only_list_same_links in Hstep
  | renderPlayerActivity _ _ _ = _ =>
      apply (ran _ _ _ _ _ (renderPlayerActivity_only_list _ _)), only_list_same_links in Hstep
  end;
  (assert (same_links _ d1) as Hsame' by (etrans; [exact Hsame|exact Hstep]));
  clear Hsame Hstep; rename Hsame' into Hsame.

(** X9.  After a feed is rendered, each navigation link that is on the page has
    the query string of the current URL appended to its target: the links to
    all plays and all points go to the pages of the feed's mode and are shown
    only when there is more than the preview shows (more than three plays,
    more events than the recent ones); the link to the other view keeps its
    own target, or [./index.html] when it has none. *)
Theorem navigation_links_carry_the_query `{Unicode} `{Host}
    (fetched : result (Response Feed)) (hl : value) (d d' : Document) (data : Feed) :
  fetchLeaderboard fetched = Ok data →
  render_feed fetched hl d = (d', Ok ()) →
  let search := location_search d in
  let unranked := bool_decide (mode data = Some (str "unranked")) in
  let plays := default [] (or_else (allPlays data) (recentPlays data)) in
  let events := default [] (or_else (allEvents data) (recentEvents data)) in
  let recent := default [] (recentEvents data) in
  links d' !! str "#view-all-plays" =
    (λ _, {| link_href :=
               Some ((if unranked then str "./plays-unranked.html" else str "./plays.html")
                     ++ search);
             link_display :=
               Some (if bool_decide (3 < length plays) then str "inline-flex"
                     else str "none") |})
      <$> links d !! str "#view-all-plays"
  ∧ links d' !! str "#view-all-events" =
      (λ _, {| link_href :=
                 Some ((if unranked then str "./points-unranked.html" else str "./points.html")
                       ++ search);
               link_display :=
                 Some (if bool_decide (length recent < length events) then str "inline-flex"
                       else str "none") |})
        <$> links d !! str "#view-all-events"
  ∧ links d' !! str "#switch-view" =
      (λ link, {| link_href := Some (href_or_index link ++ search);
                  link_display := link_display link |})
        <$> links d !! str "#switch-view".
Proof.
  intros Hfeed Hrun. cbv zeta.
  unfold render_feed in Hrun. cbv zeta in Hrun.
  apply mbind_Ok_inv in Hrun as (d0 & data' & Hfetch & Hrun).
  unfold lift in Hfetch. rewrite Hfeed in Hfetch. injection Hfetch as <- <-.
  assert (same_links d d) as Hsame by done.
  rendered Hrun d1 Hsame. destruct Hsame as [Hlinks1 Hsearch1].
  apply mbind_Ok_inv in Hrun as (d1' & searchSuffix & Hsearch & Hrun).
  injection Hsearch as <- <-. rewrite Hsearch1 in Hrun.
  assert (same_links d d1) as Hsame by done.
  rendered Hrun d2 Hsame. rendered Hrun d3 Hsame. rendered Hrun d4 Hsame.
  rendered Hrun d5 Hsame. rendered Hrun d6 Hsame. destruct Hsame as [Hlinks6 _].
  apply mbind_Ok_inv in Hrun as (d7 & [] & (_ & _ & Hlinks7)%update_link_run & Hrun).
  apply mbind_Ok_inv in Hrun as (d8 & [] & (_ & _ & Hlinks8)%update_link_run & Hrun).
  apply mbind_Ok_inv in Hrun as (d9 & [] & (_ & _ & Hlinks9)%update_link_run & Hrun).
  assert (∀ other, other ≠ str "#back-to-leaderboard" →
                   links d' !! other = links d9 !! other) as Hlinks.
  { intros other Hother.
    assert (∀ (m : M ()) da db dc,
              same_links da db →
              update_link (str "#back-to-leaderboard") href_or_index
                (location_search d) None db = (dc, Ok ()) →
              links dc !! other = links da !! other) as Hback.
    { intros m da db dc [Hab _] (_ & _ & Hbc)%update_link_run.
      by rewrite Hbc, bool_decide_eq_false_2, Hab. }
    apply mbind_Ok_inv in Hrun as (d9' & allPlaysList & [= <- <-] & Hrun).
    apply mbind_Ok_inv in Hrun as (d10 & [] & Hplays & Hrun).
    apply mbind_Ok_inv in Hrun as (d10' & allEventsList & [= <- <-] & Hrun).
    transitivity (links d10 !! other).
    - destruct (lists d10 !! _); [|by injection Hrun as <-].
      apply mbind_Ok_inv in Hrun as (d11 & [] & Hrendered & Hrun).
      apply (ran _ _ _ _ _ (renderEvents_only_list _ _ _)), only_list_same_links in Hrendered.
      by apply (Hback (ret ()) d10 d11 d').
    - destruct (lists d9 !! _); [|by injection Hplays as <-].
      apply mbind_Ok_inv in Hplays as (d11 & [] & Hrendered & Hplays).
      apply (ran _ _ _ _ _ (renderPlays_only_list _ _ _)), only_list_same_links in Hrendered.
      by apply (Hback (ret ()) d9 d11 d10). }
  rewrite !Hlinks by (intros Heq; vm_compute in Heq; discriminate).
  rewrite !Hlinks9, !Hlinks8, !Hlinks7, Hlinks6.
  repeat match goal with
         | |- context [@bool_decide (?a = ?b) ?i] =>
             first [ rewrite (@bool_decide_eq_true_2 (a = b) i) by reflexivity
                   | rewrite (@bool_decide_eq_false_2 (a = b) i)
                       by (intros Heq; vm_compute in Heq; discriminate) ]
         end.
  split; [|split]; by destruct (links d !! _).
Qed.

(** ** More on the guest-token registry *)

Lemma last_pair_snoc `{Host} (items : list JSON) (entry : JSON) (k : jsstring) :
  last_pair (items ++ [entry]) k =
    match pair_of entry with
    | Some (Ok (token, name)) =>
        if bool_decide (token = k) then Some name else last_pair items k
    | _ => last_pair items k
    end.
Proof.
  unfold last_pair, pairs_of. rewrite omap_app, filter_app. simpl.
  destruct (pair_of entry) as [[[token name]|e]|]; simpl.
  - case_bool_decide as Heq.
    + rewrite filter_cons_True by done. by rewrite filter_nil, last_snoc.
    + rewrite filter_cons_False by done. by rewrite filter_nil, app_nil_r.
  - by rewrite filter_nil, app_nil_r.
  - by rewrite filter_nil, app_nil_r.
Qed.

(** The last element that contributes a name for a token. *)
Lemma last_pair_Some `{Host} (items : list JSON) (k name : jsstring) :
  last_pair items k = Some name
  ↔ ∃ before entry after,
      items = before ++ entry :: after
      ∧ pair_of entry = Some (Ok (k, name))
      ∧ Forall (λ later, ∀ other, pair_of later ≠ Some (Ok (k, other))) after.
Proof.
  induction items as [|entry items IH] using rev_ind.
  - split; [done|]. intros (before & entry & after & Hnil & _). by destruct before.
  - rewrite last_pair_snoc.
    assert (∀ found,
              (∀ other, pair_of entry ≠ Some (Ok (k, other))) →
              (found ↔ ∃ before entry' after,
                         items = before ++ entry' :: after
                         ∧ pair_of entry' = Some (Ok (k, name))
                         ∧ Forall (λ later, ∀ other, pair_of later ≠ Some (Ok (k, other)))
                             after) →
              (found ↔ ∃ before entry' after,
                         items ++ [entry] = before ++ entry' :: after
                         ∧ pair_of entry' = Some (Ok (k, name))
                         ∧ Forall (λ later, ∀ other, pair_of later ≠ Some (Ok (k, other)))
                             after)) as Hskip.
    { intros found Hentry ->. split.
      - intros (before & entry' & after & -> & Hpair' & Hafter).
        exists before, entry', (after ++ [entry]).
        split; [by rewrite <- app_assoc|]. split; [done|].
        apply Forall_app. split; [done|]. by constructor.
      - intros (before & entry' & after & Hsplit & Hpair' & Hafter).
        destruct after as [|later after _] using rev_ind.
        + apply app_inj_tail in Hsplit as [_ <-]. by destruct (Hentry name).
        + rewrite app_comm_cons, app_assoc in Hsplit.
          apply app_inj_tail in Hsplit as [-> <-].
          apply Forall_app in Hafter as [Hafter _].
          by exists before, entry', after. }
    destruct (pair_of entry) as [[[token name']|e]|] eqn:Hpair.
    + case_bool_decide as Htoken.
      * subst token. split.
        -- intros [= <-]. exists items, entry, []. done.
        -- intros (before & entry' & after & Hsplit & Hpair' & Hafter).
           destruct after as [|later after _] using rev_ind.
           ++ apply app_inj_tail in Hsplit as [_ <-]. congruence.
           ++ rewrite app_comm_cons, app_assoc in Hsplit.
              apply app_inj_tail in Hsplit as [_ <-].
              apply Forall_app in Hafter as [_ [Hlater _]%Forall_cons].
              by destruct (Hlater name').
      * apply Hskip; [|done]. intros other. congruence.
    + apply Hskip; [|done]. intros other. congruence.
    + apply Hskip; [|done]. intros other. congruence.
Qed.

(** X10.  The registry never has an own property [__proto__], whatever the token
    file holds; a file that gives no registry is refused with a TypeError. *)
Theorem registry_never_holds_proto `{Host} (raw : JSON) :
  match normalizeGuestTokens raw with
  | Ok registry => registry !! proto_key = None
  | Throw e => e = TypeError
  end.
Proof.
  destruct raw as [| | | |items|members].
  1-4: unfold normalizeGuestTokens; by destruct (negb _).
  - unfold normalizeGuestTokens. simpl json_truthy. cbn [negb].
    destruct (reduce_add_pair items ∅) as [[_ ->]|[_ ->]]; [|done].
    by rewrite set_pairs_lookup, bool_decide_eq_true_2.
  - destruct (normalizeGuestTokens_mapping members) as (registry' & -> & Hlookup).
    by rewrite Hlookup, bool_decide_eq_true_2.
Qed.

(** X11.  The registry of a mapping file: the file is accepted, and a token is
    registered exactly when it is a key, other than [__proto__], of the
    object the keys are read from and its value is a string that is not
    blank; the name is the trimmed value. *)
Theorem registry_of_mapping_file `{Host} (members : list (jsstring * JSON)) :
  ∃ registry,
    normalizeGuestTokens (JObj members) = Ok registry
    ∧ ∀ k name,
        registry !! k = Some name
        ↔ k ≠ proto_key
          ∧ ∃ value, own_property (token_source (JObj members)) k = Some (JStr value)
                     ∧ name = trim value ∧ name ≠ [].
Proof.
  destruct (normalizeGuestTokens_mapping members) as (registry & Hrun & Hlookup).
  exists registry. split; [done|]. intros k name.
  rewrite Hlookup. unfold token_value.
  case_bool_decide as Hproto; [split; [done|by intros [? _]]|].
  destruct (own_property _ k) as [[| | |value| |]|]; try (split; [done|by intros (_ & ? & ? & _)]).
  case_bool_decide as Hblank.
  - split.
    + intros [= <-]. eauto.
    + intros (_ & value' & [= <-] & -> & _). done.
  - split; [done|]. intros (_ & value' & [= <-] & -> & Hne). by destruct Hblank.
Qed.

(** X12.  The registry of an array file.  The file is refused with a TypeError
    exactly when some element is an object with truthy [token] and [name]
    of which one cannot be converted to a string.  Otherwise a token is
    registered exactly when it is not [__proto__] and some such element has
    it as the string of its token; the name is the string of the name of
    the last such element. *)
Theorem registry_of_array_file `{Host} (items : list JSON) :
  match normalizeGuestTokens (JArr items) with
  | Ok registry =>
      Forall (λ entry, pair_of entry ≠ Some (Throw TypeError)) items
      ∧ ∀ k name,
          registry !! k = Some name
          ↔ k ≠ proto_key
            ∧ ∃ before entry after,
                items = before ++ entry :: after
                ∧ pair_of entry = Some (Ok (k, name))
                ∧ Forall (λ later, ∀ other, pair_of later ≠ Some (Ok (k, other))) after
  | Throw e =>
      e = TypeError
      ∧ Exists (λ entry, pair_of entry = Some (Throw TypeError)) items
  end.
Proof.
  unfold normalizeGuestTokens. simpl json_truthy. cbn [negb].
  destruct (reduce_add_pair items ∅) as [[Hall ->]|[Hsome ->]]; [|done].
  split; [done|]. intros k name.
  rewrite set_pairs_lookup, lookup_empty. fold (pairs_of items) (last_pair items k).
  case_bool_decide as Hproto; [split; [done|by intros [? _]]|].
  rewrite <- last_pair_Some. destruct (last_pair items k); split; try done; by intros [_ ?].
Qed.

(** X13.  A mapping file is accepted, and every name it registers is not empty
    and has no white space at either end. *)
Theorem mapping_names_are_trimmed `{Host} (members : list (jsstring * JSON)) :
  ∃ registry,
    normalizeGuestTokens (JObj members) = Ok registry
    ∧ ∀ k name, registry !! k = Some name → name ≠ [] ∧ trim name = name.
Proof.
  destruct (normalizeGuestTokens_mapping members) as (registry & Hrun & Hlookup).
  exists registry. split; [done|]. intros k name.
  rewrite Hlookup. unfold token_value.
  case_bool_decide; [done|].
  destruct (own_property _ k) as [[| | |value| |]|]; try done.
  case_bool_decide; [|done]. intros [= <-]. split; [done|apply trim_idemp].
Qed.

(** X14.  A file that wraps the mapping in a [tokens] member registers what the
    mapping alone registers; its other members are ignored. *)
Theorem tokens_wrapper_is_transparent `{Host} (members inner : list (jsstring * JSON)) :
  own_property (JObj members) (str "tokens") = Some (JObj inner) →
  token_source (JObj inner) = JObj inner →
  normalizeGuestTokens (JObj members) = normalizeGuestTokens (JObj inner).
Proof.
  intros Htokens Hinner. rewrite !normalizeGuestTokens_object, Hinner.
  unfold token_source at 1 2. by rewrite Htokens.
Qed.

(** X15.  From the token file to the banner: a plain token that a mapping file
    registers with a non-blank name is greeted by the trimmed name, which is
    also the name to highlight. *)
Theorem issued_token_is_greeted `{Host} (members : list (jsstring * JSON))
    (k value : jsstring) (d : Document) (g : Greeting) :
  plain_token k → k ≠ proto_key →
  own_property (token_source (JObj members)) k = Some (JStr value) → trim value ≠ [] →
  guest_greeting d = Some g →
  location_search d = str "?guest=" ++ k →
  ∃ registry,
    normalizeGuestTokens (JObj members) = Ok registry
    ∧ renderGreeting registry d =
        (set_greeting
           {| greeting_hidden := false;
              greeting_text := str "Welcome to the party, " ++ trim value ++ str "!" |} d,
         Ok (VString (trim value))).
Proof.
  intros Hplain Hproto Hvalue Hblank Hg Hsearch.
  destruct (normalizeGuestTokens_mapping members) as (registry & Hrun & Hlookup).
  exists registry. split; [done|].
  apply (registered_token_is_greeted _ d g k); [done| | |done].
  - rewrite Hsearch.
    apply (getGuestTokenFromUrl_plain (str "guest") k); [left|done].
  - rewrite Hlookup, bool_decide_eq_false_2 by done.
    unfold token_value. rewrite Hvalue. by rewrite bool_decide_eq_true_2.
Qed.

(** ** The leaderboard *)

(** The nodes a loop appends when each needs a computation that can throw:
    the loop appends the nodes of the items before the first one that
    throws. *)
Lemma forEach_lift_appendChild {A B} selector (f : A → result B) (node : A → B → Node)
    items d old :
  lists d !! selector = Some old →
  ∃ d' values,
    lists d' !! selector = Some (old ++ zip_with node items values)
    ∧ ((Forall2 (λ x v, f x = Ok v) items values
        ∧ forEach (λ x, v ⇐ lift (f x) ;; appendChild selector (node x v)) items d
          = (d', Ok ()))
       ∨ ∃ before bad after e,
           items = before ++ bad :: after
           ∧ Forall2 (λ x v, f x = Ok v) before values ∧ f bad = Throw e
           ∧ forEach (λ x, v ⇐ lift (f x) ;; appendChild selector (node x v)) items d
             = (d', Throw e)).
Proof.
  revert d old. induction items as [|x items IH]; intros d old Hold.
  - exists d, []. rewrite app_nil_r. split; [done|]. left. split; [constructor|done].
  - cbn [forEach]. unfold mbind at 1. unfold mbind at 1. unfold lift at 1.
    destruct (f x) as [v|e] eqn:Hx.
    + rewrite appendChild_run. set (d1 := set_lists _ d).
      destruct (IH d1 (old ++ [node x v])) as (d' & values & Hlist & Hcases).
      { subst d1. rewrite lists_set_lists, lookup_insert_eq, Hold. done. }
      exists d', (v :: values). split; [by rewrite Hlist, <- app_assoc|].
      destruct Hcases as [[Hall Hrun]|(before & bad & after & e & -> & Hbefore & Hbad & Hrun)].
      * left. split; [by constructor|done].
      * right. exists (x :: before), bad, after, e. split; [done|].
        split; [by constructor|]. done.
    + exists d, []. rewrite app_nil_r. split; [done|]. right.
      exists [], x, items, e. split; [done|]. split; [constructor|]. done.
Qed.

Lemma unreserved_not_surrogate c : is_uri_unreserved c = true → is_surrogate c = false.
Proof.
  unfold is_uri_unreserved, is_surrogate. intros Hc.
  apply andb_false_iff. left. apply N.leb_gt.
  repeat (apply orb_true_iff in Hc as [Hc|Hc]).
  - apply andb_true_iff in Hc as [_ Hc%N.leb_le]. lia.
  - apply andb_true_iff in Hc as [_ Hc%N.leb_le]. lia.
  - apply andb_true_iff in Hc as [_ Hc%N.leb_le]. lia.
  - apply bool_decide_eq_true in Hc.
    repeat (apply elem_of_cons in Hc as [->|Hc]; [lia|]). by apply elem_of_nil in Hc.
Qed.

(** [encodeURIComponent] throws exactly on a string with an unpaired
    surrogate, and what it throws is a URIError. *)
Lemma encodeURIComponent_throws s e :
  encodeURIComponent s = Throw e ↔ e = URIError ∧ well_formed s = false.
Proof.
  induction s as [|c s IH]; simpl; [split; [done|by intros [_ ?]]|].
  destruct (is_uri_unreserved c) eqn:Hunreserved.
  - rewrite (unreserved_not_surrogate c Hunreserved). simpl.
    destruct (encodeURIComponent s) as [encoded|e'] eqn:Hs; simpl.
    + split; [done|]. intros Hthrow. by apply IH in Hthrow.
    + rewrite <- IH. split; congruence.
  - destruct (is_surrogate c); simpl.
    + split; [by intros [= <-]|by intros [-> _]].
    + destruct (encodeURIComponent s) as [encoded|e'] eqn:Hs; simpl.
      * split; [done|]. intros Hthrow. by apply IH in Hthrow.
      * rewrite <- IH. split; congruence.
Qed.

Lemma getAvatarBases_throws `{Unicode} `{Host} name e :
  getAvatarBases (Some name) = Throw e ↔ e = URIError ∧ well_formed (trim name) = false.
Proof.
  unfold getAvatarBases. case_bool_decide as Hname.
  - subst name. split; [done|by intros [_ ?]].
  - rewrite <- encodeURIComponent_throws.
    destruct (encodeURIComponent (trim name)); simpl; split; congruence.
Qed.

Lemma applyAvatar_throws `{Unicode} `{Host} els name e :
  applyAvatar els (Some name) = Throw e
  ↔ is_Some (avatar_img els) ∧ e = URIError ∧ well_formed (trim name) = false.
Proof.
  unfold applyAvatar. destruct (avatar_img els) as [img|].
  - rewrite <- getAvatarBases_throws.
    destruct (getAvatarBases (Some name)) as [bases|e'] eqn:Hbases; simpl.
    + destruct (avatar_sources bases); split; try done; by intros [_ ?].
    + split; [intros [= ->]; eauto|by intros [_ [= ->]]].
  - split; [done|by intros [[? ?] _]].
Qed.

(** X16.  Giving a row its avatar throws exactly when the row has an image and the
    trimmed name holds an unpaired surrogate; it throws a URIError. *)
Theorem avatar_throws_iff_name_is_malformed `{Unicode} `{Host} (els : AvatarElements)
    (name : jsstring) (e : exn) :
  applyAvatar els (Some name) = Throw e
  ↔ is_Some (avatar_img els) ∧ e = URIError ∧ well_formed (trim name) = false.
Proof. apply applyAvatar_throws. Qed.

Lemma applyAvatar_returns `{Unicode} `{Host} els name :
  well_formed (trim name) = true → ∃ els', applyAvatar els (Some name) = Ok els'.
Proof.
  intros Hname. destruct (applyAvatar els (Some name)) as [els'|e] eqn:Happly; [eauto|].
  apply applyAvatar_throws in Happly as (_ & _ & Hbad). congruence.
Qed.

Lemma renderLeaderboard_run `{Unicode} `{Host} (players : list Player)
    (highlightedName : value) (labels : Labels) (d : Document) old template :
  lists d !! leaderboard_selector = Some old →
  player_template d = Some template →
  renderLeaderboard (Some players) highlightedName labels d =
    match players with
    | [] =>
        appendChild leaderboard_selector
          (Created (str "li") (str "leaderboard-item empty")
             (str "No scores yet. Check back after the next game night!"))
    | _ =>
        forEach (λ player,
            avatar ⇐ lift (applyAvatar template (Some (player_name player))) ;;
            appendChild leaderboard_selector
              (leaderboard_row highlightedName labels player avatar))
          players
    end (set_lists (<[leaderboard_selector := []]>) d).
Proof.
  intros Hold Htemplate.
  unfold renderLeaderboard, mbind at 1, query_list, read. rewrite Hold.
  unfold mbind at 1. rewrite Htemplate. unfold mbind at 1. rewrite clear_list_run.
  by destruct players.
Qed.

(** X17.  With the list and the row template on the page, [renderLeaderboard]
    replaces the children of the list: by the placeholder when there is no
    player, else by the rows of the players in feed order up to the first
    player whose avatar throws, each row with the avatar [applyAvatar] gave
    for its player; it returns when no avatar throws and throws URIError at
    the first player whose name holds an unpaired surrogate otherwise. *)
Theorem leaderboard_rows `{Unicode} `{Host} (players : list Player)
    (highlightedName : value) (labels : Labels) (d : Document) old template :
  lists d !! leaderboard_selector = Some old →
  player_template d = Some template →
  ∃ d' avatars,
    lists d' !! leaderboard_selector =
      Some (match players with
            | [] => [Created (str "li") (str "leaderboard-item empty")
                       (str "No scores yet. Check back after the next game night!")]
            | _ => zip_with (leaderboard_row highlightedName labels) players avatars
            end)
    ∧ ((Forall2 (λ player avatar,
                   applyAvatar template (Some (player_name player)) = Ok avatar)
          players avatars
        ∧ renderLeaderboard (Some players) highlightedName labels d = (d', Ok ()))
       ∨ ∃ before bad after,
           players = before ++ bad :: after
           ∧ Forall2 (λ player avatar,
                        applyAvatar template (Some (player_name player)) = Ok avatar)
               before avatars
           ∧ is_Some (avatar_img template)
           ∧ well_formed (trim (player_name bad)) = false
           ∧ renderLeaderboard (Some players) highlightedName labels d
             = (d', Throw URIError)).
Proof.
  intros Hold Htemplate.
  rewrite (renderLeaderboard_run players _ _ d old template Hold Htemplate).
  set (d1 := set_lists _ d).
  assert (lists d1 !! leaderboard_selector = Some []) as Hd1.
  { subst d1. rewrite lists_set_lists. apply lookup_insert_eq. }
  destruct players as [|player players].
  - rewrite appendChild_run. eexists _, []. split; last first.
    { left. split; [constructor|reflexivity]. }
    by rewrite lists_set_lists, lookup_insert_eq, Hd1.
  - destruct (forEach_lift_appendChild leaderboard_selector
                (λ player, applyAvatar template (Some (player_name player)))
                (leaderboard_row highlightedName labels)
                (player :: players) d1 [] Hd1) as (d' & avatars & Hlist & Hcases).
    exists d', avatars. split; [exact Hlist|].
    destruct Hcases as [[Hall Hrun]|(before & bad & after & e & Hsplit & Hbefore & Hbad & Hrun)].
    + left. split; [done|]. exact Hrun.
    + right. exists before, bad, after.
      apply applyAvatar_throws in Hbad as (Himg & -> & Hname).
      split; [done|]. split; [done|].
      split; [done|]. split; [done|]. exact Hrun.
Qed.

(** ** Scoring rules and plays *)

(** X18.  With the list and the rule template on the page, [renderScoringRules]
    replaces the children of the list by one item for each rule, in feed
    order, with the points followed by "pts", or by the placeholder when
    there is no rule (or no [scoringRules] member); it never throws. *)
Theorem scoring_rules_rows (rules : option (list Rule)) (d : Document) old :
  lists d !! scoring_rules_selector = Some old →
  scoring_rule_template d = true →
  ∃ d', renderScoringRules rules d = (d', Ok ())
        ∧ lists d' !! scoring_rules_selector =
            Some (match default [] rules with
                  | [] => [Created (str "li") (str "scoring-rule")
                             (str "No scoring rules set. Add some in config.json.")]
                  | rules =>
                      (λ rule, ScoringRule (rule_label rule)
                                 (Z_to_string (rule_points rule) ++ str " pts")) <$> rules
                  end).
Proof.
  intros Hold Htemplate.
  unfold renderScoringRules, mbind, query_list, read. simpl.
  rewrite Hold, Htemplate.
  set (d1 := set_lists _ d).
  assert (lists d1 !! scoring_rules_selector = Some []) as Hd1.
  { subst d1. rewrite lists_set_lists. apply lookup_insert_eq. }
  destruct (default [] rules) as [|rule rules'].
  - eexists. split; [reflexivity|].
    rewrite lists_set_lists, lookup_insert_eq, Hd1. done.
  - destruct (forEach_appendChild scoring_rules_selector
                (λ rule, ScoringRule (rule_label rule)
                           (Z_to_string (rule_points rule) ++ str " pts"))
                (rule :: rules') d1 [] Hd1) as (d' & Hrun & Hsel & _).
    exists d'. split; [exact Hrun|]. rewrite Hsel. done.
Qed.


(** ** The award preview of an event *)

Lemma threshold_flags p len :
  (λ i, bool_decide (p ≤ i)) <$> seq 0 len
  = replicate (len - (len - p)) false ++ replicate (len - p) true.
Proof.
  induction len as [|len IH]; [done|].
  rewrite seq_S, fmap_app, IH. simpl.
  destruct (decide (p ≤ len)) as [Hp|Hp].
  - rewrite bool_decide_eq_true_2 by done.
    replace (S len - p) with (S (len - p)) by lia.
    replace (S len - S (len - p)) with (len - (len - p)) by lia.
    rewrite replicate_S_end. by rewrite app_assoc.
  - rewrite bool_decide_eq_false_2 by done.
    replace (S len - p) with 0 by lia. replace (len - p) with 0 by lia.
    simpl. rewrite !app_nil_r, Nat.sub_0_r.
    replace (len - 0) with len by lia. by rewrite <- replicate_S_end.
Qed.

Lemma count_collapsed (lines : list Line) a h :
  is_collapsed <$> lines = replicate a false ++ replicate h true →
  length (filter (λ l, is_collapsed l = true) lines) = h.
Proof.
  revert lines. induction a as [|a IH]; intros lines Hflags; simpl in Hflags.
  - revert lines Hflags. induction h as [|h IHh]; intros lines Hflags.
    + by apply fmap_nil_inv in Hflags as ->.
    + destruct lines as [|l lines]; [done|]. injection Hflags as Hl Hflags.
      rewrite filter_cons_True by done. simpl. f_equal. by apply IHh.
  - destruct lines as [|l lines]; [done|]. injection Hflags as Hl Hflags.
    rewrite filter_cons_False by (by rewrite Hl). by apply IH.
Qed.

(** X20.  An event with awards: the first [preview] awards are shown and the
    others collapsed, where [preview] is the preview limit (at least zero)
    when expansion is allowed and a limit is given, and the number of awards
    otherwise; the expand button of the template, if any, is shown with the
    number of collapsed awards when there are some and hidden without text
    when there are none. *)
Theorem award_preview_collapses_the_rest `{Unicode} `{Host} (highlightedName : value)
    (awardPreviewLimit : option Z) (allowExpand : bool) (button : option ExpandButton)
    (event : Event) (awards : list Award) :
  event_awards event = Some awards → awards ≠ [] →
  let preview :=
    match awardPreviewLimit with
    | Some n => if allowExpand then Z.to_nat (Z.max 0 n) else length awards
    | None => length awards
    end in
  let hidden := length awards - preview in
  let node := event_node highlightedName awardPreviewLimit allowExpand button event in
  is_collapsed <$> node_lines node
  = replicate (length awards - hidden) false ++ replicate hidden true
  ∧ node_expand node =
      (λ b, if bool_decide (hidden ≠ 0)
            then {| expand_hidden := false;
                    expand_text :=
                      if bool_decide (hidden = 1) then str "Show 1 more"
                      else str "Show " ++ Z_to_string (Z.of_nat hidden) ++ str " more";
                    expand_expanded := Some false;
                    expand_collapsed := hidden |}
            else {| expand_hidden := true; expand_text := [];
                    expand_expanded := expand_expanded b;
                    expand_collapsed := expand_collapsed b |}) <$> button.
Proof.
  intros Hawards Hne preview hidden node.
  assert (is_collapsed <$> node_lines node
          = replicate (length awards - hidden) false ++ replicate hidden true) as Hflags.
  { subst node. unfold event_node. rewrite Hawards.
    destruct awards as [|award awards']; [done|]. set (awards := award :: awards') in *.
    cbv [node_lines]. rewrite fmap_imap. unfold hidden.
    rewrite <- threshold_flags, <- imap_seq_0. apply imap_ext. intros i a Hi. simpl.
    apply lookup_lt_Some in Hi. subst preview awards. simpl length in *.
    destruct allowExpand; simpl.
    - destruct awardPreviewLimit as [n|];
        match goal with |- context [(?x <=? ?y)%Z] => destruct (Z.leb_spec x y) end;
        try lia;
        first [rewrite bool_decide_eq_true_2 by lia|rewrite bool_decide_eq_false_2 by lia];
        done.
    - rewrite bool_decide_eq_false_2; [done|]. destruct awardPreviewLimit; lia. }
  split; [exact Hflags|].
  pose proof (count_collapsed _ _ _ Hflags) as Hcount.
  subst node. unfold event_node in *. rewrite Hawards in *.
  destruct awards as [|award awards']; [done|]. set (awards := award :: awards') in *.
  cbv [node_lines] in Hcount. cbv [node_expand]. rewrite Hcount.
  destruct button as [b|]; [|done]. simpl. f_equal.
  destruct allowExpand; [done|].
  assert (hidden = 0) as ->; [|done].
  subst hidden preview. destruct awardPreviewLimit; lia.
Qed.

(** ** The candidates of an avatar *)

Lemma first_occurrences_sublist {A K} `{EqDecision K} (key : A → K) l :
  first_occurrences key l `sublist_of` l.
Proof.
  induction l as [|x l IH]; [done|]. simpl. constructor.
  etrans; [apply sublist_filter|done].
Qed.

Lemma NoDup_fmap_filter {A K} (key : A → K) (P : A → Prop) `{!∀ x, Decision (P x)} l :
  NoDup (key <$> l) → NoDup (key <$> filter P l).
Proof.
  induction l as [|x l IH]; [done|]. rewrite fmap_cons, NoDup_cons. intros [Hx Hl].
  rewrite filter_cons. destruct (decide (P x)); [|by apply IH].
  rewrite fmap_cons, NoDup_cons. split; [|by apply IH].
  rewrite list_elem_of_fmap in Hx |- *. intros (y & Hkey & Hy%list_elem_of_filter).
  apply Hx. exists y. by destruct Hy.
Qed.

Lemma first_occurrences_NoDup {A K} `{EqDecision K} (key : A → K) l :
  NoDup (key <$> first_occurrences key l).
Proof.
  induction l as [|x l IH]; [constructor|]. simpl. constructor.
  - rewrite list_elem_of_fmap. intros (y & Hkey & Hy%list_elem_of_filter). by destruct Hy.
  - by apply NoDup_fmap_filter.
Qed.

Lemma first_occurrences_head {A K} `{EqDecision K} (key : A → K) l :
  head (first_occurrences key l) = head l.
Proof. by destruct l. Qed.

Lemma extension_ends base base' ext ext' :
  ext ∈ extensions → ext' ∈ extensions →
  base ++ str "." ++ ext = base' ++ str "." ++ ext' → base = base' ∧ ext = ext'.
Proof.
  intros Hext Hext' Heq.
  assert (ext = ext') as <-.
  { apply (f_equal reverse) in Heq. rewrite !reverse_app in Heq.
    unfold extensions in *.
    repeat (apply elem_of_cons in Hext as [->|Hext]);
      [..|by apply elem_of_nil in Hext];
      repeat (apply elem_of_cons in Hext' as [->|Hext']);
      try (by apply elem_of_nil in Hext'); try done;
      vm_compute in Heq; discriminate. }
  split; [|done]. by apply app_inv_tail in Heq.
Qed.

(** X21.  The candidates of a name: at most four bases, none empty, no two equal
    up to case, the trimmed name first; four sources for each base, and no
    source twice. *)
Theorem avatar_candidates_are_distinct `{Unicode} `{Host} (name : jsstring)
    (bases : list jsstring) :
  getAvatarBases (Some name) = Ok bases →
  length bases ≤ 4
  ∧ Forall (λ base, base ≠ []) bases
  ∧ NoDup (toLowerCase <$> bases)
  ∧ (trim name ≠ [] → head bases = Some (trim name))
  ∧ length (avatar_sources bases) = 4 * length bases
  ∧ NoDup (avatar_sources bases).
Proof.
  intros Hbases.
  destruct (encodeURIComponent (trim name)) as [encoded|e] eqn:Hencoded.
  2:{ unfold getAvatarBases in Hbases. case_bool_decide; [|by rewrite Hencoded in Hbases].
      subst name. done. }
  rewrite (getAvatarBases_first_occurrences name encoded Hencoded) in Hbases.
  injection Hbases as <-.
  set (candidates := [trim name; encoded; _; _]).
  assert (NoDup (toLowerCase <$> first_occurrences toLowerCase
                    (filter (λ b, b ≠ []) candidates))) as Hdistinct
    by apply first_occurrences_NoDup.
  assert (∀ l : list jsstring, length (avatar_sources l) = 4 * length l) as Hlength.
  { intros l. unfold avatar_sources. induction l as [|b l IH]; [done|].
    rewrite bind_cons, length_app, IH, length_fmap. simpl. lia. }
  split; [|split; [|split; [|split; [|split]]]].
  - etrans; [apply sublist_length, first_occurrences_sublist|].
    etrans; [apply length_filter|]. done.
  - apply Forall_forall. intros base Hbase.
    eapply elem_of_sublist in Hbase; [|apply first_occurrences_sublist].
    by apply list_elem_of_filter in Hbase as [? _].
  - done.
  - intros Hname. rewrite first_occurrences_head. subst candidates.
    by rewrite filter_cons_True.
  - apply Hlength.
  - apply NoDup_bind.
    + intros base base' source _ _ (ext & -> & Hext)%list_elem_of_fmap
        (ext' & Heq & Hext')%list_elem_of_fmap.
      apply app_inv_head in Heq. by apply extension_ends in Heq as [? _].
    + intros base _. apply NoDup_fmap_2_strong; [|apply (bool_decide_unpack _); vm_compute; exact I].
      intros ext ext' Hext Hext' Heq. apply app_inv_head in Heq.
      by apply extension_ends in Heq as [_ ?].
    + by apply NoDup_fmap_1 in Hdistinct.
Qed.

(** X22.  A name that is blank: there is no candidate, and the image and its
    wrapper are hidden at once, without a [src] and without a listener. *)
Theorem blank_name_hides_avatar `{Unicode} `{Host} (els : AvatarElements) (img : Img)
    (name : jsstring) :
  avatar_img els = Some img → trim name = [] →
  ∃ img', applyAvatar els (Some name)
          = Ok {| avatar_img := Some img';
                  avatar_wrapper_hidden := (λ _, true) <$> avatar_wrapper_hidden els |}
          ∧ img_hidden img' = true ∧ img_src img' = None ∧ img_alt img' = []
          ∧ img_avatarErrorHandler img' = None.
Proof.
  intros Himg Hname.
  assert (getAvatarBases (Some name) = Ok []) as Hbases.
  { unfold getAvatarBases. case_bool_decide; [done|]. by rewrite Hname. }
  unfold applyAvatar. rewrite Himg, Hbases. simpl.
  destruct (img_avatarErrorHandler img) eqn:Hhandler; eexists; (split; [reflexivity|done]).
Qed.

(** ** The normalized name *)

Section normalized_output.
Context `{Unicode} `{!UnicodeLaws} `{Host}.

Lemma normalizeName_value (v : value) :
  normalizeName v = [] ∨ normalizeName v = normalizeName (VString (ToString v)).
Proof. destruct v; auto. Qed.

(** X23.  Whatever the value, the normalized name has no white space at either
    end; when the string of the value has no unpaired surrogate, the
    normalized name holds no combining diacritical mark and only code points
    that are their own lower case and have no decomposition. *)
Theorem normalizeName_output_is_clean (v : value) :
  trim (normalizeName v) = normalizeName v
  ∧ (well_formed (ToString v) = true →
     Forall (λ c, is_combining_diacritical c = false ∧ lower_char c = [c] ∧ decomp c = [c])
       (normalizeName v)).
Proof.
  split.
  { destruct (normalizeName_value v) as [-> | ->]; [done|].
    rewrite normalizeName_string. apply trim_idemp. }
  intros Hwf. destruct (normalizeName_value v) as [-> | ->]; [done|].
  rewrite normalizeName_well_formed by done. generalize (ToString v). intros s.
  set (z := without_marks (canonical_order (s ≫= decomp))).
  assert (Forall (λ c, decomp c = [c]) z) as Hstable.
  { apply strip_Forall, canonical_order_Forall, decomposition_stable. }
  assert (Forall (λ c, is_combining_diacritical c = false) z) as Hclean by apply strip_clean.
  pose proof (lower_from_lowered [] z Hstable) as Hlowered.
  fold (toLowerCase z) in Hlowered.
  apply trim_Forall.
  eapply (Forall2_Forall_r _ _ _ _ Hlowered), Forall_impl; [exact Hclean|].
  intros c Hc d (_ & ? & ? & ? & Hmark & _). auto.
Qed.

End normalized_output.

(** ** The earlier revision (public/app.js) *)

(** X24.  On a page whose row template has no avatar image, the current
    [renderLeaderboard], called without a name to highlight and with the
    default units, renders what the earlier revision rendered. *)
Theorem renderLeaderboard_agrees_with_earlier_revision `{Unicode} `{Host}
    (players : option (list Player)) (d : Document) old template :
  lists d !! leaderboard_selector = Some old →
  player_template d = Some template →
  avatar_img template = None →
  renderLeaderboard players VNull {| singular := str "pt"; plural := str "pts" |} d
  = renderLeaderboard_v2 players d.
Proof.
  intros Hold Htemplate Himg.
  unfold renderLeaderboard, renderLeaderboard_v2, mbind, query_list, read.
  rewrite Hold, Htemplate, !clear_list_run.
  destruct (default [] players) as [|player players']; [done|].
  apply forEach_ext. intros p d1. unfold lift, applyAvatar. rewrite Himg.
  unfold is_highlighted. simpl.
  do 2 f_equal. by destruct (bool_decide _); rewrite ?app_nil_r.
Qed.

Lemma renderGreeting_v2_returns `{Host} tokens d token :
  getGuestTokenFromUrl (location_search d) = Ok token →
  ∃ d1, renderGreeting_v2 tokens d = (d1, Ok ()) ∧ lists d1 = lists d.
Proof.
  intros Htoken. unfold renderGreeting_v2, mbind, read, lift.
  destruct (guest_greeting d); [|by eexists]. rewrite Htoken.
  destruct token as [token|]; [destruct (negb _)|]; eexists; (split; [reflexivity|by destruct d]).
Qed.

(** X25.  In the earlier revision a failed load on a page without the leaderboard
    list escapes [init] as a TypeError, thrown by the error handler itself;
    the current revision returns and reports the failure on the console. *)
Theorem earlier_handleError_needs_the_list `{Unicode} `{Host} (net : Network) (d : Document)
    (e : exn) (token : option jsstring) :
  fetchLeaderboard (leaderboard_fetch net) = Throw e →
  getGuestTokenFromUrl (location_search d) = Ok token →
  lists d !! leaderboard_selector = None →
  (∃ d', init_v2 net d = (d', Throw TypeError))
  ∧ (∃ d', init net d = (d', Ok ()) ∧ last (console d') = Some (LogError e)).
Proof.
  intros Hfeed Htoken Hlist.
  destruct (load_tokens_keeps net d) as (d0 & tokens & Hload & Hg & Hsearch & Hlists0).
  split.
  - unfold init_v2. unfold mbind at 1. rewrite Hload. unfold mbind at 1.
    destruct (renderGreeting_v2_returns tokens d0 token) as (d1 & -> & Hlists1);
      [by rewrite Hsearch|].
    unfold mtry, mbind at 1, lift. rewrite Hfeed.
    unfold handleError_v2, mbind, modify, query_list, read. simpl.
    rewrite Hlists1, Hlists0, Hlist. by eexists.
  - unfold init. unfold mbind at 1. rewrite Hload. unfold mbind at 1.
    pose proof (renderGreeting_result tokens d0) as Hgreeting.
    rewrite Hsearch, Htoken in Hgreeting.
    assert (∃ d1 v, renderGreeting tokens d0 = (d1, Ok v)) as (d1 & v & ->)
      by by destruct (guest_greeting d0).
    unfold mtry, render_feed, mbind at 1, lift. rewrite Hfeed.
    exists (handleError e d1).1. split.
    + pose proof (handleError_returns e d1) as Hok.
      by destruct (handleError e d1) as [d2 r]; simpl in *; subst.
    + rewrite handleError_console. apply last_snoc.
Qed.

(** X26.  The greeting of the earlier revision is the current one, which
    returns the guest's name in addition: both leave the same page and throw
    alike. *)
Theorem renderGreeting_agrees_with_earlier_revision `{Host}
    (tokens : gmap jsstring jsstring) (d : Document) :
  renderGreeting_v2 tokens d
  = ((renderGreeting tokens d).1, _ ←! (renderGreeting tokens d).2 ;; Ok ()).
Proof.
  unfold renderGreeting_v2, renderGreeting, hide_greeting, mbind, read, lift, modify, ret.
  destruct (guest_greeting d); [|done].
  destruct (getGuestTokenFromUrl (location_search d)) as [[token|]|e]; try done.
  by destruct (negb _).
Qed.

(** X27.  The name [renderGreeting] returns is the name the banner shows: on a
    page with the banner it returns null and hides the banner, or returns a
    truthy value and shows the banner with the welcome of that value. *)
Theorem greeting_and_highlight_agree `{Host} (tokens : gmap jsstring jsstring)
    (d d' : Document) (g : Greeting) (v : value) :
  guest_greeting d = Some g →
  renderGreeting tokens d = (d', Ok v) →
  (v = VNull ∧ d' = set_greeting hidden_greeting d)
  ∨ (truthy v = true ∧ d' = set_greeting (welcome v) d).
Proof.
  intros Hg. destruct (getGuestTokenFromUrl (location_search d)) as [token|e] eqn:Htoken.
  - rewrite (renderGreeting_run tokens d g token Hg Htoken).
    destruct token as [token|]; [|intros [= <- <-]; by left].
    destruct (truthy (property_get tokens token)) eqn:Htruthy; intros [= <- <-]; auto.
  - unfold renderGreeting, mbind, read, lift. by rewrite Hg, Htoken.
Qed.

(** ** Links with an encoded token *)

Local Open Scope N_scope.

Lemma land_lead a w k mask :
  mask = N.ones k → w < 2 ^ k → N.land (a * 2 ^ k + w) mask = w.
Proof. intros ->. apply land_low. Qed.

Lemma utf8_decode_lead b rest p :
  utf8_lead b = ([], Some p) →
  utf8_decode_from None (b :: rest) = utf8_decode_from (Some p) rest.
Proof. intros Hlead. cbn [utf8_decode_from]. by rewrite Hlead. Qed.

Lemma utf8_decode_continue p b rest :
  u_lower p ≤ b → b ≤ u_upper p →
  utf8_decode_from (Some p) (b :: rest) =
    let cp := N.lor (N.shiftl (u_code_point p) 6) (N.land b 0x3F) in
    match u_remaining p with
    | S (S m) =>
        utf8_decode_from
          (Some {| u_code_point := cp; u_remaining := S m; u_lower := 0x80; u_upper := 0xBF |})
          rest
    | _ => cp :: utf8_decode_from None rest
    end.
Proof.
  intros Hlower Hupper. cbn [utf8_decode_from].
  by rewrite (proj2 (N.leb_le _ _) Hlower), (proj2 (N.leb_le _ _) Hupper).
Qed.

Lemma utf8_lead_2 h :
  2 ≤ h → h < 32 →
  utf8_lead (192 + h)
  = ([], Some {| u_code_point := h; u_remaining := 1; u_lower := 0x80; u_upper := 0xBF |}).
Proof.
  intros Hmin Hmax. unfold utf8_lead. compare_numbers. simpl. do 3 f_equal.
  apply (land_lead 6 h 5); [done|]. change (2 ^ 5) with 32. lia.
Qed.

Lemma utf8_lead_3 h :
  h < 16 →
  utf8_lead (224 + h)
  = ([], Some {| u_code_point := h; u_remaining := 2;
                 u_lower := if (h =? 0) then 0xA0 else 0x80;
                 u_upper := if (h =? 13) then 0x9F else 0xBF |}).
Proof.
  intros Hmax. unfold utf8_lead.
  assert (N.land (224 + h) 15 = h) as ->.
  { apply (land_lead 14 h 4); [done|]. change (2 ^ 4) with 16. lia. }
  by compare_numbers.
Qed.

Lemma utf8_lead_4 h :
  h ≤ 4 →
  utf8_lead (240 + h)
  = ([], Some {| u_code_point := h; u_remaining := 3;
                 u_lower := if (h =? 0) then 0x90 else 0x80;
                 u_upper := if (h =? 4) then 0x8F else 0xBF |}).
Proof.
  intros Hmax. unfold utf8_lead.
  assert (N.land (240 + h) 7 = h) as ->.
  { apply (land_lead 30 h 3); [done|]. change (2 ^ 3) with 8. lia. }
  by compare_numbers.
Qed.

(** The UTF-8 decoder of the Encoding standard reads the encoding of a
    scalar value back. *)
Lemma utf8_decode_from_scalar c rest :
  is_scalar_value c = true →
  utf8_decode_from None (utf8_encode c ++ rest) = c :: utf8_decode_from None rest.
Proof.
  intros Hscalar. destruct (scalar_value_bounds c Hscalar) as [Hmax Hs].
  destruct (N.ltb_spec c 0x80) as [Hascii|Hmin].
  { unfold utf8_encode. rewrite (proj2 (N.ltb_lt _ _) Hascii). simpl app.
    cbn [utf8_decode_from]. unfold utf8_lead.
    by rewrite (proj2 (N.leb_le c 0x7F)) by lia. }
  destruct (utf8_encode_cases c Hmin Hmax)
    as [(h & l & Hc & Hl & H2 & ->)
       |[(h & m & l & Hc & Hm & Hl & H3 & ->)
        |(h & m2 & m & l & Hc & Hm2 & Hm & Hl & H4 & ->)]];
    simpl app.
  - rewrite (utf8_decode_lead _ _ _ (utf8_lead_2 h ltac:(lia) ltac:(lia))).
    rewrite utf8_decode_continue by (simpl; lia). simpl.
    rewrite land_continuation, lor_shifted by done. by rewrite <- Hc.
  - rewrite (utf8_decode_lead _ _ _ (utf8_lead_3 h ltac:(lia))).
    rewrite utf8_decode_continue by (simpl; compare_numbers).
    cbn [u_remaining u_code_point].
    rewrite utf8_decode_continue by (simpl; lia). simpl.
    rewrite !land_continuation, !lor_shifted by done. by rewrite <- Hc.
  - rewrite (utf8_decode_lead _ _ _ (utf8_lead_4 h ltac:(lia))).
    rewrite utf8_decode_continue by (simpl; compare_numbers).
    cbn [u_remaining u_code_point].
    rewrite utf8_decode_continue by (simpl; lia).
    cbn [u_remaining u_code_point].
    rewrite utf8_decode_continue by (simpl; lia). simpl.
    rewrite !land_continuation, !lor_shifted by done. by rewrite <- Hc.
Qed.

Local Close Scope N_scope.

Lemma utf8_decode_encoded s :
  Forall (λ c, is_scalar_value c = true) s → utf8_decode (s ≫= utf8_encode) = s.
Proof.
  unfold utf8_decode. induction 1 as [|c s Hc _ IH]; [done|].
  by rewrite bind_cons, utf8_decode_from_scalar, IH.
Qed.

Lemma percent_decode_octet b rest :
  (b < 256)%N → percent_decode (percent_encode_octet b ++ rest) = b :: percent_decode rest.
Proof.
  intros Hb. unfold percent_encode_octet. simpl app. cbn [percent_decode].
  by rewrite N.eqb_refl, parse_hex_octet_encoded.
Qed.

Lemma percent_decode_octets octets rest :
  Forall (λ b, (b < 256)%N) octets →
  percent_decode ((octets ≫= percent_encode_octet) ++ rest) = octets ++ percent_decode rest.
Proof.
  induction 1 as [|b octets Hb _ IH]; [done|].
  by rewrite bind_cons, <- app_assoc, percent_decode_octet, IH.
Qed.

Lemma utf8_encode_octets c :
  is_scalar_value c = true → Forall (λ b, (b < 256)%N) (utf8_encode c).
Proof.
  intros Hc. destruct (N.ltb_spec c 0x80) as [Hascii|Hmin].
  - unfold utf8_encode. rewrite (proj2 (N.ltb_lt _ _) Hascii). repeat constructor. lia.
  - by destruct (utf8_encode_decodes c Hc Hmin) as (b0 & tail & -> & _ & ? & _).
Qed.

Lemma unreserved_ascii c : is_uri_unreserved c = true → (c < 0x80)%N ∧ c ≠ percent.
Proof.
  unfold is_uri_unreserved. intros Hc.
  repeat (apply orb_true_iff in Hc as [Hc|Hc]).
  - apply andb_true_iff in Hc as [Hlow%N.leb_le Hc%N.leb_le]. unfold percent. lia.
  - apply andb_true_iff in Hc as [Hlow%N.leb_le Hc%N.leb_le]. unfold percent. lia.
  - apply andb_true_iff in Hc as [Hlow%N.leb_le Hc%N.leb_le]. unfold percent. lia.
  - apply bool_decide_eq_true in Hc. unfold percent.
    repeat (apply elem_of_cons in Hc as [->|Hc]; [lia|]). by apply elem_of_nil in Hc.
Qed.

(** Percent-decoding the encoded text gives the UTF-8 octets of the
    original. *)
Lemma percent_decode_encoded s encoded :
  Forall (λ c, is_scalar_value c = true) s →
  encodeURIComponent s = Ok encoded → percent_decode encoded = s ≫= utf8_encode.
Proof.
  intros Hs. revert encoded. induction Hs as [|c s Hc _ IH]; intros encoded.
  { by intros [= <-]. }
  cbn [encodeURIComponent]. rewrite bind_cons.
  destruct (encodeURIComponent s) as [rest|e]; cbn [bind].
  2:{ by destruct (is_uri_unreserved c), (is_surrogate c). }
  specialize (IH rest eq_refl).
  destruct (is_uri_unreserved c) eqn:Hunreserved.
  - intros [= <-]. destruct (unreserved_ascii c Hunreserved) as [Hascii Hpercent].
    cbn [percent_decode]. rewrite (proj2 (N.eqb_neq c percent)) by done.
    unfold utf8_encode. rewrite (proj2 (N.ltb_lt _ _) Hascii). by rewrite IH.
  - destruct (is_surrogate c); [done|]. intros [= <-].
    by rewrite percent_decode_octets, IH by by apply utf8_encode_octets.
Qed.

Lemma escape_char_ascii c :
  is_escape_char c = true →
  is_ascii c = true ∧ c ≠ 0x26%N ∧ c ≠ 0x2B%N ∧ c ≠ 0x3D%N.
Proof.
  unfold is_escape_char, is_ascii. intros Hc.
  apply orb_true_iff in Hc as [Hc|Hc];
    [apply orb_true_iff in Hc as [Hc|Hc]; [apply orb_true_iff in Hc as [Hc|Hc]|]|].
  - destruct (unreserved_ascii c Hc) as [Hascii _]. split; [by apply N.ltb_lt|].
    unfold is_uri_unreserved in Hc.
    repeat split; intros ->; vm_compute in Hc; discriminate.
  - apply N.eqb_eq in Hc as ->. done.
  - apply andb_true_iff in Hc as [Hlow%N.leb_le Hc%N.leb_le].
    split; [apply N.ltb_lt; lia|]. repeat split; lia.
  - apply andb_true_iff in Hc as [Hlow%N.leb_le Hc%N.leb_le].
    split; [apply N.ltb_lt; lia|]. repeat split; lia.
Qed.

(** X28.  A link whose token was written with [encodeURIComponent] is read back,
    provided the token holds neither a percent sign nor a plus sign: the
    result is the trimmed token, and null when nothing is left of it. *)
Theorem encoded_token_is_read_back name t encoded :
  name ∈ token_parameters →
  Forall (λ c, is_scalar_value c = true) t → (percent ∉ t) → (0x2B%N ∉ t) →
  encodeURIComponent t = Ok encoded →
  getGuestTokenFromUrl (str "?" ++ name ++ str "=" ++ encoded)
  = Ok (if bool_decide (trim t = []) then None else Some (trim t)).
Proof.
  intros Hname Hscalar Hpercent Hplus Hencoded.
  destruct (encode_decode_scalar t Hscalar) as (encoded' & Hencoded' & Halphabet & _).
  rewrite Hencoded in Hencoded'. injection Hencoded' as <-.
  assert (Forall (λ c, is_ascii c = true) encoded ∧ (0x26%N ∉ encoded) ∧ (0x2B%N ∉ encoded))
    as (Hascii & Hamp & Hplus').
  { rewrite Forall_forall in Halphabet. split; [|split].
    - apply Forall_forall. intros c Hc. by apply escape_char_ascii, Halphabet.
    - intros Hc. by destruct (escape_char_ascii _ (Halphabet _ Hc)) as (_ & ? & _).
    - intros Hc. by destruct (escape_char_ascii _ (Halphabet _ Hc)) as (_ & _ & ? & _). }
  assert (Forall (λ c, is_ascii c = true) name ∧ (percent ∉ name) ∧ (0x2B%N ∉ name)
          ∧ (0x26%N ∉ name) ∧ (0x3D%N ∉ name) ∧ name ≠ []) as (Hn1 & Hn2 & Hn3 & Hn4 & Hn5 & Hn6).
  { unfold token_parameters in Hname.
    repeat (apply elem_of_cons in Hname as [->|Hname]);
      [..|by apply elem_of_nil in Hname];
      (split; [by repeat constructor|]);
      repeat split; try done; apply (bool_decide_unpack _); vm_compute; exact I. }
  rewrite getGuestTokenFromUrl_first_present.
  assert (URLSearchParams (str "?" ++ name ++ str "=" ++ encoded) = [(name, t)]) as ->.
  { change (str "?" ++ name ++ str "=" ++ encoded) with (0x3F%N :: name ++ 0x3D%N :: encoded).
    unfold URLSearchParams. rewrite N.eqb_refl.
    assert (Forall (λ c, is_ascii c = true) (name ++ 0x3D%N :: encoded)) as Hall.
    { apply Forall_app. split; [done|]. by constructor. }
    rewrite to_usv_ascii, utf8_encode_ascii by done.
    rewrite split_on_absent by (rewrite not_elem_of_app, not_elem_of_cons; done).
    rewrite filter_cons_True by (by destruct name).
    rewrite filter_nil. simpl fmap. unfold parse_pair.
    rewrite split_first_app by done. simpl default.
    rewrite form_decode_plain by done. unfold form_decode.
    fold (replace_plus encoded). rewrite replace_plus_plain by done.
    by rewrite (percent_decode_encoded t), utf8_decode_encoded. }
  rewrite first_present_single, bool_decide_eq_true_2 by done.
  case_bool_decide as Hempty; [by subst t|].
  rewrite replace_plus_plain, decodeURIComponent_plain by done. cbn [bind].
  by destruct (bool_decide (trim t = [])).
Qed.

(** ** The theorems at concrete inputs *)

Lemma guest_token_is_trimmed_nonempty_witness :
  str "Q7xG8O" ≠ [] ∧ trim (str "Q7xG8O") = str "Q7xG8O".
Proof.
  apply (guest_token_is_trimmed_nonempty (str "?guest=%20Q7xG8O+")).
  vm_compute. reflexivity.
Defined.

Lemma guest_token_throws_URIError_witness :
  URIError = URIError
  ∧ ∃ raw, first_present (URLSearchParams (str "?code=50%25")) token_parameters = Some raw
           ∧ decodeURIComponent (replace_plus raw) = Throw URIError.
Proof.
  apply (guest_token_throws_URIError (str "?code=50%25")). vm_compute. reflexivity.
Defined.

Lemma plain_token_is_read_verbatim_witness :
  getGuestTokenFromUrl (str "?" ++ str "ticket" ++ str "=" ++ str "Q7xG8O")
  = Ok (Some (str "Q7xG8O")).
Proof.
  apply plain_token_is_read_verbatim.
  - apply (bool_decide_unpack _). vm_compute. exact I.
  - split; [done|]. split; [vm_compute; reflexivity|].
    apply (bool_decide_unpack _). vm_compute. exact I.
Defined.

Lemma decoding_undoes_encoding_witness :
  ∃ encoded, encodeURIComponent sample_token = Ok encoded
             ∧ Forall (λ c, is_escape_char c = true) encoded
             ∧ decodeURIComponent encoded = Ok sample_token.
Proof.
  apply decoding_undoes_encoding. apply (bool_decide_unpack _). vm_compute. exact I.
Defined.

Lemma encoded_token_is_read_back_witness :
  getGuestTokenFromUrl
    (str "?" ++ str "guest" ++ str "=" ++ str "J%C3%A9%20%E2%82%AC%F0%9F%98%80")
  = Ok (if bool_decide (trim sample_token = []) then None else Some (trim sample_token)).
Proof.
  apply (encoded_token_is_read_back (str "guest") sample_token).
  - apply (bool_decide_unpack _). vm_compute. exact I.
  - apply (bool_decide_unpack _). vm_compute. exact I.
  - apply (bool_decide_unpack _). vm_compute. exact I.
  - apply (bool_decide_unpack _). vm_compute. exact I.
  - vm_compute. reflexivity.
Defined.

Lemma tokens_wrapper_is_transparent_witness :
  normalizeGuestTokens (H:=plain_host)
    (JObj [(str "version", JNum 2%Z);
           (str "tokens", JObj [(str "Q7xG8O", JStr (str "Sasha"))])])
  = normalizeGuestTokens (JObj [(str "Q7xG8O", JStr (str "Sasha"))]).
Proof. apply tokens_wrapper_is_transparent; vm_compute; reflexivity. Defined.

Lemma issued_token_is_greeted_witness :
  ∃ registry,
    normalizeGuestTokens (H:=plain_host) (JObj [(str "Q7xG8O", JStr (str " Sasha "))])
    = Ok registry
    ∧ renderGreeting registry (page_at (str "?guest=" ++ str "Q7xG8O"))
      = (set_greeting
           {| greeting_hidden := false;
              greeting_text :=
                str "Welcome to the party, " ++ trim (str " Sasha ") ++ str "!" |}
           (page_at (str "?guest=" ++ str "Q7xG8O")),
         Ok (VString (trim (str " Sasha ")))).
Proof.
  apply (issued_token_is_greeted [(str "Q7xG8O", JStr (str " Sasha "))] (str "Q7xG8O")
           (str " Sasha ") (page_at (str "?guest=" ++ str "Q7xG8O"))
           {| greeting_hidden := true; greeting_text := [] |}).
  - split; [done|]. split; [vm_compute; reflexivity|].
    apply (bool_decide_unpack _). vm_compute. exact I.
  - apply (bool_decide_unpack _). vm_compute. exact I.
  - vm_compute. reflexivity.
  - apply (bool_decide_unpack _). vm_compute. exact I.
  - reflexivity.
  - reflexivity.
Defined.

Lemma greeting_and_highlight_agree_witness :
  let d := page_at (str "?guest=Q7xG8O") in
  let tokens : gmap jsstring jsstring := {[ str "Q7xG8O" := str "Sasha" ]} in
  (VString (str "Sasha") = VNull (H:=plain_host)
   ∧ (renderGreeting tokens d).1 = set_greeting hidden_greeting d)
  ∨ (truthy (VString (str "Sasha")) = true
     ∧ (renderGreeting tokens d).1 = set_greeting (welcome (VString (str "Sasha"))) d).
Proof.
  intros d tokens.
  apply (greeting_and_highlight_agree tokens d _ {| greeting_hidden := true; greeting_text := [] |}).
  - reflexivity.
  - vm_compute. reflexivity.
Defined.

Lemma missing_text_element_shows_errors_witness :
  ∃ d', init online undated_page = (d', Ok ())
        ∧ last (console d') = Some (LogError TypeError)
        ∧ ∀ selector node, (selector, node) ∈ error_sections →
            lists d' !! selector = (λ _, [node]) <$> lists undated_page !! selector.
Proof.
  apply (missing_text_element_shows_errors online undated_page sample_feed None
           (str "#last-updated")).
  - reflexivity.
  - reflexivity.
  - apply (bool_decide_unpack _). vm_compute. exact I.
  - vm_compute. reflexivity.
Defined.

Lemma navigation_links_carry_the_query_witness :
  let d := linked_page (str "?guest=Q7xG8O") in
  let d' := (render_feed (leaderboard_fetch online) VNull d).1 in
  links d' !! str "#view-all-plays" =
    Some {| link_href := Some (str "./plays-unranked.html?guest=Q7xG8O");
            link_display := Some (str "inline-flex") |}.
Proof.
  intros d d'.
  destruct (navigation_links_carry_the_query (leaderboard_fetch online) VNull d d' sample_feed)
    as (Hplays & _ & _).
  - reflexivity.
  - vm_compute. reflexivity.
  - rewrite Hplays. vm_compute. reflexivity.
Defined.

Lemma leaderboard_rows_witness :
  ∃ d' avatars,
    lists d' !! leaderboard_selector =
      Some (zip_with (leaderboard_row VNull {| singular := str "pt"; plural := str "pts" |})
              sample_players avatars)
    ∧ ((Forall2 (λ player avatar,
                   applyAvatar sample_avatar (Some (player_name player)) = Ok avatar)
          sample_players avatars
        ∧ renderLeaderboard (Some sample_players) VNull
            {| singular := str "pt"; plural := str "pts" |} (page_at []) = (d', Ok ()))
       ∨ ∃ before bad after,
           sample_players = before ++ bad :: after
           ∧ Forall2 (λ player avatar,
                        applyAvatar sample_avatar (Some (player_name player)) = Ok avatar)
               before avatars
           ∧ is_Some (avatar_img sample_avatar)
           ∧ well_formed (trim (player_name bad)) = false
           ∧ renderLeaderboard (Some sample_players) VNull
               {| singular := str "pt"; plural := str "pts" |} (page_at [])
             = (d', Throw URIError)).
Proof.
  apply (leaderboard_rows sample_players VNull {| singular := str "pt"; plural := str "pts" |}
           (page_at []) []).
  - vm_compute. reflexivity.
  - reflexivity.
Defined.

Lemma scoring_rules_rows_witness :
  ∃ d', renderScoringRules (Some sample_rules) (page_at []) = (d', Ok ())
        ∧ lists d' !! scoring_rules_selector =
            Some ((λ rule, ScoringRule (rule_label rule)
                             (Z_to_string (rule_points rule) ++ str " pts")) <$> sample_rules).
Proof.
  apply (scoring_rules_rows (Some sample_rules) (page_at []) []).
  - vm_compute. reflexivity.
  - reflexivity.
Defined.


Lemma award_preview_collapses_the_rest_witness :
  let button := {| expand_hidden := true; expand_text := [];
                   expand_expanded := None; expand_collapsed := 0 |} in
  let node := event_node VNull (Some 3%Z) true (Some button) sample_event in
  is_collapsed <$> node_lines node = [false; false; false; true]
  ∧ node_expand node =
      Some {| expand_hidden := false; expand_text := str "Show 1 more";
              expand_expanded := Some false; expand_collapsed := 1 |}.
Proof.
  intros button node.
  apply (award_preview_collapses_the_rest VNull (Some 3%Z) true (Some button) sample_event
           sample_awards).
  - reflexivity.
  - discriminate.
Defined.

Lemma avatar_candidates_are_distinct_witness :
  let bases := [sample_name; str "Jos%C3%A9%20L"; str "Jos" ++ [0xE9%N] ++ str "_L";
                str "jose_l"] in
  length bases ≤ 4
  ∧ Forall (λ base, base ≠ []) bases
  ∧ NoDup (toLowerCase <$> bases)
  ∧ (trim sample_name ≠ [] → head bases = Some (trim sample_name))
  ∧ length (avatar_sources bases) = 4 * length bases
  ∧ NoDup (avatar_sources bases).
Proof.
  intros bases. apply (avatar_candidates_are_distinct sample_name bases).
  vm_compute. reflexivity.
Defined.

Lemma blank_name_hides_avatar_witness :
  ∃ img', applyAvatar sample_avatar (Some (str "   "))
          = Ok {| avatar_img := Some img';
                  avatar_wrapper_hidden := (λ _, true) <$> avatar_wrapper_hidden sample_avatar |}
          ∧ img_hidden img' = true ∧ img_src img' = None ∧ img_alt img' = []
          ∧ img_avatarErrorHandler img' = None.
Proof.
  apply (blank_name_hides_avatar sample_avatar sample_img (str "   ")).
  - reflexivity.
  - vm_compute. reflexivity.
Defined.

Lemma normalizeName_output_is_clean_witness :
  trim (normalizeName (VString Jose)) = normalizeName (VString Jose)
  ∧ Forall (λ c, is_combining_diacritical c = false ∧ lower_char c = [c] ∧ decomp c = [c])
      (normalizeName (VString Jose)).
Proof.
  destruct (normalizeName_output_is_clean (VString Jose)) as [Htrim Hclean].
  split; [exact Htrim|]. apply Hclean. reflexivity.
Defined.

Lemma renderLeaderboard_agrees_with_earlier_revision_witness :
  renderLeaderboard (Some sample_players) VNull
    {| singular := str "pt"; plural := str "pts" |} page_without_avatars
  = renderLeaderboard_v2 (Some sample_players) page_without_avatars.
Proof.
  apply (renderLeaderboard_agrees_with_earlier_revision (Some sample_players)
           page_without_avatars [] plain_template).
  - vm_compute. reflexivity.
  - reflexivity.
  - reflexivity.
Defined.

Lemma earlier_handleError_needs_the_list_witness :
  (∃ d', init_v2 offline page_without_leaderboard = (d', Throw TypeError))
  ∧ (∃ d', init offline page_without_leaderboard = (d', Ok ())
           ∧ last (console d') = Some (LogError NetworkError)).
Proof.
  apply (earlier_handleError_needs_the_list offline page_without_leaderboard NetworkError None).
  - reflexivity.
  - reflexivity.
  - vm_compute. reflexivity.
Defined.

Lemma renderEvents_v2_shows_eight_witness :
  ∃ d' nodes, renderEvents_v2 (replicate 9 sample_event) (page_at []) = (d', Ok ())
              ∧ lists d' !! str "#events-timeline" = Some nodes
              ∧ length nodes = 8 `min` length (replicate 9 sample_event).
Proof.
  apply (renderEvents_v2_shows_eight (replicate 9 sample_event) (page_at []) []
           (Some {| expand_hidden := true; expand_text := [];
                    expand_expanded := None; expand_collapsed := 0 |})).
  - vm_compute. reflexivity.
  - reflexivity.
  - reflexivity.
  - discriminate.
Defined.
